(** * tsl screenplay parser: a shallow embedding of [script/parse/parse.py]

    The development follows the source file top to bottom: the regular
    expressions of the line predicates, the line classifier [get_types],
    the segmenter [parse_script_lines], the noun registry and the
    interaction graph with their update operations, the offset mapper and
    the two-pass extraction engine [compute_presence_and_interactions].

    Python 2 byte strings are modelled as [string] (a list of 8-bit
    [ascii]), integers as [Z], dictionaries as [gmap], exceptions as an
    explicit [outcome], and text printed on standard output as a list of
    messages. *)

From Stdlib Require Import ZArith Ascii String List Bool Lia.
From stdpp Require Import base option list sorting gmap strings fin_maps.

Local Open Scope Z_scope.
Local Open Scope string_scope.
Local Open Scope list_scope.

(** stdpp blocks the unfolding of string concatenation; the proofs below
    compute with it. *)
#[local] Arguments String.append !_ _ / : simpl nomatch.

(** ** Characters and character classes of Python 2 [re] (no flags) *)

Module Chars.

Definition code (c : ascii) : N := N_of_ascii c.

Definition in_range (lo hi : N) (c : ascii) : bool :=
  (N.leb lo (code c) && N.leb (code c) hi)%bool.

(** [\s] is [ \t\n\r\f\v]; [str.strip] and [str.split] use the same set. *)
Definition is_space (c : ascii) : bool :=
  (N.eqb (code c) 32 || in_range 9 13 c)%bool.

Definition is_lower (c : ascii) : bool := in_range 97 122 c.
Definition is_upper (c : ascii) : bool := in_range 65 90 c.
Definition is_digit (c : ascii) : bool := in_range 48 57 c.

(** [\w] is [a-zA-Z0-9_]. *)
Definition is_word (c : ascii) : bool :=
  (is_lower c || is_upper c || is_digit c || N.eqb (code c) 95)%bool.

Definition is_char (a c : ascii) : bool := Ascii.eqb a c.

Definition LF : ascii := ascii_of_N 10.

(** ASCII lower-casing, used for [re.I] matching. *)
Definition to_lower (c : ascii) : ascii :=
  if is_upper c then ascii_of_N (code c + 32) else c.

#[global] Arguments is_space : simpl never.
#[global] Arguments is_lower : simpl never.
#[global] Arguments is_upper : simpl never.
#[global] Arguments is_digit : simpl never.
#[global] Arguments is_word : simpl never.
#[global] Arguments is_char : simpl never.
#[global] Arguments to_lower : simpl never.

End Chars.

(** ** Regular expressions and a derivative matcher *)

Module Regex.
Import Chars.

Inductive regex : Type :=
| Void : regex
| Eps : regex
| Cls : (ascii -> bool) -> regex
| Seq : regex -> regex -> regex
| Alt : regex -> regex -> regex
| Star : regex -> regex.

Definition Plus (r : regex) : regex := Seq r (Star r).
Definition Opt (r : regex) : regex := Alt r Eps.
Definition Chr (a : ascii) : regex := Cls (is_char a).

Fixpoint Lit (s : string) : regex :=
  match s with
  | EmptyString => Eps
  | String a s' => Seq (Chr a) (Lit s')
  end.

Fixpoint nullable (r : regex) : bool :=
  match r with
  | Void => false
  | Eps => true
  | Cls _ => false
  | Seq a b => nullable a && nullable b
  | Alt a b => nullable a || nullable b
  | Star _ => true
  end.

Fixpoint deriv (c : ascii) (r : regex) : regex :=
  match r with
  | Void => Void
  | Eps => Void
  | Cls p => if p c then Eps else Void
  | Seq a b =>
      if nullable a then Alt (Seq (deriv c a) b) (deriv c b)
      else Seq (deriv c a) b
  | Alt a b => Alt (deriv c a) (deriv c b)
  | Star a => Seq (deriv c a) (Star a)
  end.

(** [matches r s]: the whole of [s] is a word of [r]. *)
Fixpoint matches (r : regex) (s : string) : bool :=
  match s with
  | EmptyString => nullable r
  | String c s' => matches (deriv c r) s'
  end.

(** The words of a regular expression, as a relation. *)
Inductive lang : regex -> string -> Prop :=
| L_eps : lang Eps EmptyString
| L_cls p c : p c = true -> lang (Cls p) (String c EmptyString)
| L_seq a b s t : lang a s -> lang b t -> lang (Seq a b) (s +:+ t)
| L_alt_l a b s : lang a s -> lang (Alt a b) s
| L_alt_r a b s : lang b s -> lang (Alt a b) s
| L_star_nil a : lang (Star a) EmptyString
| L_star_cons a c s t :
    lang a (String c s) -> lang (Star a) t -> lang (Star a) (String c s +:+ t).

(** Removes one final newline, when there is one. *)
Fixpoint chop_newline (s : string) : option string :=
  match s with
  | EmptyString => None
  | String c EmptyString => if is_char LF c then Some EmptyString else None
  | String c s' => option_map (String c) (chop_newline s')
  end.

(** [re.search('^' + r + '$', s)]: without [re.MULTILINE], [$] matches at
    the end of the string and just before a newline that ends it. *)
Definition search_anchored (r : regex) (s : string) : bool :=
  matches r s
  || match chop_newline s with
     | Some s' => matches r s'
     | None => false
     end.

Fixpoint forall_chars (p : ascii -> bool) (s : string) : bool :=
  match s with
  | EmptyString => true
  | String c s' => p c && forall_chars p s'
  end.

Fixpoint exists_char (p : ascii -> bool) (s : string) : bool :=
  match s with
  | EmptyString => false
  | String c s' => p c || exists_char p s'
  end.

End Regex.

(** ** Constants of [tsl.script.parse.const] *)

(** Modelled from the spec: [tsl/script/parse/const.py] is not among the
    sources.  The parser states (block and line types) are the tags the
    classification ranges over; they are compared with [==] only, so they
    are modelled as pairwise distinct constructors. *)
Inductive ptype : Type :=
| ACTION | CONTINUED | DIALOG | DIALOG_HEADER | DIRECTION | EMPTY
| ERROR | FRONT | PAGE_NUM | RESUMED | SCENE_HEADING.

(** Modelled from the spec: the process-wide [strict | fuzzy] setting
    [mode] of [const.py]. *)
Inductive parse_mode : Type := STRICT | FUZZY.

(** Modelled from the spec: the noun types of [const.py]. *)
Inductive ntype : Type := THING | LOCATION | CHARACTER.

(** Modelled from the spec: the presence and interaction types of
    [const.py]. *)
Inductive itype : Type := SETTING | DISCUSS | MENTION | APPEAR.

#[global] Instance ptype_eq_dec : EqDecision ptype.
Proof. solve_decision. Defined.
#[global] Instance parse_mode_eq_dec : EqDecision parse_mode.
Proof. solve_decision. Defined.
#[global] Instance ntype_eq_dec : EqDecision ntype.
Proof. solve_decision. Defined.
#[global] Instance itype_eq_dec : EqDecision itype.
Proof. solve_decision. Defined.

(** ** Standard output and exceptions *)

(** One argument of a [print] statement. *)
Inductive piece : Type :=
| PS : string -> piece
| PZ : Z -> piece
| PT : ptype -> piece
| POffsets : list (Z * Z) -> piece.

(** One [print] statement: its arguments in order. *)
Definition message : Type := list piece.

Inductive exn : Type := KeyError | IndexError | TypeError.

Inductive outcome (A : Type) : Type :=
| Ok : A -> outcome A
| Raise : exn -> outcome A.
Arguments Ok {A} _.
Arguments Raise {A} _.

#[global] Instance exn_eq_dec : EqDecision exn.
Proof. solve_decision. Defined.

(** ** Python list and string helpers *)

Module Py.
Import Chars.

(** [l[i]] with Python's negative indices; [IndexError] out of range. *)
Definition index {A} (l : list A) (i : Z) : outcome A :=
  let n := Z.of_nat (length l) in
  let j := if Z.ltb i 0 then i + n else i in
  if Z.ltb j 0 then Raise IndexError
  else match nth_error l (Z.to_nat j) with
       | Some x => Ok x
       | None => Raise IndexError
       end.

(** A slice bound, clamped as [l[lo:hi]] does. *)
Definition clamp (n i : Z) : Z :=
  let j := if Z.ltb i 0 then i + n else i in
  Z.max 0 (Z.min n j).

(** [l[lo:hi]]. *)
Definition slice {A} (l : list A) (lo hi : Z) : list A :=
  let n := Z.of_nat (length l) in
  let a := clamp n lo in
  let b := clamp n hi in
  firstn (Z.to_nat (b - a)) (skipn (Z.to_nat a) l).

(** [range(lo, hi)]. *)
Definition range (lo hi : Z) : list Z :=
  map (fun k => lo + Z.of_nat k) (seq 0 (Z.to_nat (hi - lo))).

(** [len(s)]. *)
Definition len (s : string) : Z := Z.of_nat (String.length s).

(** [len(s.split())]: the number of maximal runs of non-space characters. *)
Fixpoint count_words_from (in_word : bool) (s : string) : Z :=
  match s with
  | EmptyString => 0
  | String c s' =>
      if is_space c then count_words_from false s'
      else (if in_word then 0 else 1) + count_words_from true s'
  end.

Definition count_words (s : string) : Z := count_words_from false s.

(** [s.startswith(p)]. *)
Definition startswith (s p : string) : bool := String.prefix p s.

(** [s.lstrip()]. *)
Fixpoint lstrip (s : string) : string :=
  match s with
  | EmptyString => EmptyString
  | String c s' => if is_space c then lstrip s' else s
  end.

(** [s.rstrip()]. *)
Fixpoint rstrip (s : string) : string :=
  match s with
  | EmptyString => EmptyString
  | String c s' =>
      match rstrip s' with
      | EmptyString => if is_space c then EmptyString else String c EmptyString
      | t => String c t
      end
  end.

(** [s.strip()]. *)
Definition strip (s : string) : string := rstrip (lstrip s).

(** [s[n:]] for [n >= 0]. *)
Fixpoint drop (n : nat) (s : string) : string :=
  match n, s with
  | O, _ => s
  | S n', String _ s' => drop n' s'
  | S _, EmptyString => EmptyString
  end.

(** [s.split('\n')]: never empty. *)
Fixpoint split_lines (s : string) : list string :=
  match s with
  | EmptyString => [EmptyString]
  | String c s' =>
      if is_char LF c then EmptyString :: split_lines s'
      else match split_lines s' with
           | [] => [String c EmptyString]
           | hd :: tl => String c hd :: tl
           end
  end.

(** [''.join(l)]. *)
Definition join (l : list string) : string :=
  fold_right String.append EmptyString l.

(** [sorted(keys, key=int)] on integer keys. *)
Definition sorted (l : list Z) : list Z := merge_sort Z.le l.

(** The truth value of [x and f(x)] where [x] is [False] or a string. *)
Definition and_then (x : option string) (f : string -> bool) : bool :=
  match x with
  | Some s => negb (String.eqb s EmptyString) && f s
  | None => false
  end.

End Py.

(** ** Line predicates and the line classifier *)

Section Classifier.
Import Chars Regex.

(** The module-level [mode] imported from [const.py]. *)
Variable mode : parse_mode.

Definition space : regex := Cls is_space.
Definition non_lower : regex := Cls (fun c => negb (is_lower c)).
Definition digit : regex := Cls is_digit.

(** [^\s*$] *)
Definition is_empty_line (line : string) : bool :=
  search_anchored (Star space) line.

(** [^[^\sa-z][^a-z]+$] *)
Definition scene_header_re : regex :=
  Seq (Cls (fun c => negb (is_space c || is_lower c))) (Plus non_lower).

Definition is_scene_header (line : string) : bool :=
  match mode with
  | STRICT =>
      search_anchored scene_header_re line
      && (Py.startswith line "INTERIOR" || Py.startswith line "EXTERIOR"
          || Py.startswith line "INT." || Py.startswith line "EXT.")
  | FUZZY =>
      if search_anchored scene_header_re line
      then exists_char is_word line
      else false
  end.

(** [^\s*\(\s*CONTINUED\s*\)\s*$] *)
Definition start_continue_re : regex :=
  Seq (Star space) (Seq (Chr "(") (Seq (Star space) (Seq (Lit "CONTINUED")
    (Seq (Star space) (Seq (Chr ")") (Star space)))))).

Definition is_start_continue (line : string) : bool :=
  search_anchored start_continue_re line.

(** [^\s*CONTINUED:\s*(\(\d+\))?\s*$] *)
Definition end_continue_paren_re : regex :=
  Seq (Star space) (Seq (Lit "CONTINUED:") (Seq (Star space)
    (Seq (Opt (Seq (Chr "(") (Seq (Plus digit) (Chr ")")))) (Star space)))).

(** [^\s*CONTINUED:\s*(\d+)?\s*$] *)
Definition end_continue_bare_re : regex :=
  Seq (Star space) (Seq (Lit "CONTINUED:") (Seq (Star space)
    (Seq (Opt (Plus digit)) (Star space)))).

Definition is_end_continue (line : string) : bool :=
  if search_anchored end_continue_paren_re line then true
  else if search_anchored end_continue_bare_re line then true
  else false.

(** [^\s+\d+\.?$] *)
Definition page_num_re : regex :=
  Seq (Plus space) (Seq (Plus digit) (Opt (Chr "."))).

Definition is_page_num (line : string) : bool :=
  search_anchored page_num_re line.

(** [^\s+[^a-z]+:$] *)
Definition direction_re : regex :=
  Seq (Plus space) (Seq (Plus non_lower) (Chr ":")).

Definition is_direction (line : string) : bool :=
  search_anchored direction_re line.

(** [re.search(r'^[^\s]', line)]: the line begins with a non-space. *)
Definition starts_with_non_space (line : string) : bool :=
  match line with
  | EmptyString => false
  | String c _ => negb (is_space c)
  end.

Definition is_action (line : string) : bool := starts_with_non_space line.

(** [^\s+[^a-z]+$] *)
Definition dialog_header_re : regex := Seq (Plus space) (Plus non_lower).

Definition is_dialog_header (line : string) : bool :=
  search_anchored dialog_header_re line.

Definition is_dialog (line : string) : bool :=
  if starts_with_non_space line then false else true.

Definition types : Type := (ptype * ptype)%type.

Definition ptype_in (t : ptype) (l : list ptype) : bool :=
  bool_decide (t ∈ l).

(** [get_types]: the classification of [line], and what it printed. *)
Definition get_types (line : string) (next_line : option string)
    (prior_types : types) : types * list message :=
  let prior_block_type := fst prior_types in
  let prior_line_type := snd prior_types in
  if bool_decide (prior_block_type = FRONT) && negb (is_scene_header line)
  then
    if is_empty_line line then ((FRONT, EMPTY), [])
    else ((FRONT, FRONT), [])
  else if is_start_continue line then ((prior_block_type, CONTINUED), [])
  else if bool_decide (prior_line_type = CONTINUED) then
    if is_end_continue line then ((prior_block_type, RESUMED), [])
    else ((prior_block_type, CONTINUED), [])
  else if is_page_num line then ((PAGE_NUM, PAGE_NUM), [])
  else if is_empty_line line then
    if bool_decide (prior_block_type = DIALOG)
       && bool_decide (prior_line_type = DIALOG_HEADER)
    then ((ERROR, EMPTY), [[PS "EMPTY LINE CAN'T FOLLOW A DIALOG HEADER!"]])
    else if bool_decide (prior_block_type = DIALOG)
            && bool_decide (prior_line_type = DIALOG)
            && Py.and_then next_line is_dialog_header
    then ((DIALOG, EMPTY), [])
    else if bool_decide (prior_block_type = DIALOG)
            && bool_decide (prior_line_type = RESUMED)
    then ((DIALOG, EMPTY), [])
    else ((EMPTY, EMPTY), [])
  else if is_direction line then
    if negb (bool_decide (prior_line_type = EMPTY))
    then ((ERROR, DIRECTION), [[PS "DIRECTION MUST FOLLOW EMPTY LINE!"]])
    else ((DIRECTION, DIRECTION), [])
  else if is_scene_header line then
    if Py.and_then next_line is_action
       || bool_decide (prior_block_type = ACTION)
    then ((ACTION, ACTION), [])
    else if ptype_in prior_block_type [EMPTY; FRONT]
            || bool_decide (prior_line_type = EMPTY)
    then ((SCENE_HEADING, SCENE_HEADING), [])
    else ((ERROR, SCENE_HEADING),
          [[PS "SCENE_HEADING HEADER MUST FOLLOW EMPTY LINE OR FRONT!"]])
  else if is_action line then
    if ptype_in prior_block_type [EMPTY; ACTION]
       || bool_decide (prior_line_type = EMPTY)
    then ((ACTION, ACTION), [])
    else ((ERROR, ACTION), [[PS "ACTION MUST FOLLOW EMPTY LINE OR ACTION!"]])
  else if is_dialog_header line then
    if ptype_in prior_line_type [DIALOG; DIALOG_HEADER]
    then ((DIALOG, DIALOG), [])
    else if ptype_in prior_block_type [EMPTY; DIALOG]
            && bool_decide (prior_line_type = EMPTY)
    then ((DIALOG, DIALOG_HEADER), [])
    else ((ERROR, DIALOG_HEADER),
          [[PS "DIALOG HEADER MUST FOLLOW EMPTY LINE OR DIALOG"]])
  else if is_dialog line then
    if bool_decide (prior_block_type = DIALOG)
       && ptype_in prior_line_type [DIALOG_HEADER; DIALOG]
    then ((DIALOG, DIALOG), [])
    else ((ERROR, DIALOG), [[PS "DIALOG MUST FOLLOW DIALOG HEADER OR DIALOG"]])
  else ((ERROR, ERROR),
        [[PS "Line: '"; PS line; PS "'"]; [PS "UNHANDLED LINE TYPE!"]]).

End Classifier.

(** ** The document tree *)

(** A line record of [Script.script_lines]. *)
Record line : Type := Line {
  line_no : Z;
  page_no : Z;
  content : string
}.

(** A block.  [line_types] is keyed by [str(line_no)] in the source (the
    seed block by the integer [1]) and always read through [int]; the key
    is modelled as the integer.  [block_total_words] is absent until the
    word-count pass. *)
Record block : Type := Block {
  block_type : ptype;
  first_line : Z;
  last_line : Z;
  line_types : gmap Z ptype;
  block_total_words : option Z
}.

(** A scene.  [scene_last_line] is [None] when the source stores Python's
    [None] (the input had no line). *)
Record scene : Type := Scene {
  scene_number : Z;
  heading_line : Z;
  scene_first_line : Z;
  scene_last_line : option Z;
  scene_blocks : list block;
  scene_total_words : option Z;
  scene_dialog_words : option Z
}.

(** The [script] dictionary held by a [Structure]; [scenes] is keyed by
    [str(scene_number)], modelled as the number. *)
Record structure : Type := Structure {
  front : Z * Z;
  scenes : gmap Z scene;
  total_words : Z;
  dialog_words : Z
}.

#[global] Instance outcome_ret : MRet outcome := fun _ x => Ok x.
#[global] Instance outcome_bind : MBind outcome := fun _ _ f m =>
  match m with
  | Ok x => f x
  | Raise e => Raise e
  end.

(** ** The segmenter *)

Section Segmenter.

Variable mode : parse_mode.

Definition new_block (t : types) (ln : Z) : block :=
  {| block_type := fst t; first_line := ln; last_line := ln;
     line_types := {[ ln := snd t ]}; block_total_words := None |}.

Definition set_block_type (b : block) (t : ptype) : block :=
  {| block_type := t; first_line := first_line b; last_line := last_line b;
     line_types := line_types b; block_total_words := block_total_words b |}.

Definition extend_block (b : block) (ln : Z) (lt : ptype) : block :=
  {| block_type := block_type b; first_line := first_line b; last_line := ln;
     line_types := <[ ln := lt ]> (line_types b);
     block_total_words := block_total_words b |}.

Definition append_block (s : scene) (b : block) : scene :=
  {| scene_number := scene_number s; heading_line := heading_line s;
     scene_first_line := scene_first_line s;
     scene_last_line := scene_last_line s;
     scene_blocks := scene_blocks s ++ [b];
     scene_total_words := scene_total_words s;
     scene_dialog_words := scene_dialog_words s |}.

Definition set_scene_last_line (s : scene) (ln : option Z) : scene :=
  {| scene_number := scene_number s; heading_line := heading_line s;
     scene_first_line := scene_first_line s;
     scene_last_line := ln;
     scene_blocks := scene_blocks s;
     scene_total_words := scene_total_words s;
     scene_dialog_words := scene_dialog_words s |}.

Definition new_scene (number ln : Z) : scene :=
  {| scene_number := number; heading_line := ln; scene_first_line := ln;
     scene_last_line := Some ln; scene_blocks := [];
     scene_total_words := None; scene_dialog_words := None |}.

(** The local variables of the loop of [parse_script_lines]. *)
Record pstate : Type := PState {
  st_front : Z * Z;
  st_scenes : gmap Z scene;
  current_scene : scene;
  current_block : block;
  prior_types : types;
  st_line_no : option Z;
  st_out : list message
}.

Definition initial_pstate : pstate :=
  {| st_front := (0, 0);
     st_scenes := ∅;
     current_scene :=
       {| scene_number := 0; heading_line := 1; scene_first_line := 1;
          scene_last_line := Some 1; scene_blocks := [];
          scene_total_words := None; scene_dialog_words := None |};
     current_block :=
       {| block_type := EMPTY; first_line := 1; last_line := 1;
          line_types := {[ 1 := EMPTY ]}; block_total_words := None |};
     prior_types := (FRONT, FRONT);
     st_line_no := None;
     st_out := [] |}.

(** One iteration of the loop over the lines. *)
Definition parse_line (l : line) (next_line : option string) (st : pstate)
    : pstate :=
  let ln := line_no l in
  let '(t, printed) := get_types mode (content l) next_line (prior_types st) in
  let out := st_out st ++ printed in
  if bool_decide (fst t = FRONT) then
    {| st_front := (1, ln); st_scenes := st_scenes st;
       current_scene := current_scene st; current_block := current_block st;
       prior_types := prior_types st; st_line_no := Some ln; st_out := out |}
  else if bool_decide (fst t = ERROR) then
    {| st_front := st_front st; st_scenes := st_scenes st;
       current_scene :=
         append_block (current_scene st)
           (set_block_type (current_block st) (fst (prior_types st)));
       current_block := new_block t ln;
       prior_types := t; st_line_no := Some ln;
       st_out := out ++
         [ [PS "Error - Page:"; PZ (page_no l); PS "Line:"; PZ ln;
            PS "Content:"; PS (content l)];
           [PS "Prior block_type:"; PT (fst (prior_types st));
            PS "prior line type:"; PT (snd (prior_types st))] ] |}
  else if bool_decide (fst t = fst (prior_types st)) then
    {| st_front := st_front st; st_scenes := st_scenes st;
       current_scene := current_scene st;
       current_block := extend_block (current_block st) ln (snd t);
       prior_types := t; st_line_no := Some ln; st_out := out |}
  else
    let closed := append_block (current_scene st) (current_block st) in
    if bool_decide (fst t = SCENE_HEADING) then
      let finished := set_scene_last_line closed (Some (ln - 1)) in
      {| st_front := st_front st;
         st_scenes := <[ scene_number finished := finished ]> (st_scenes st);
         current_scene := new_scene (scene_number finished + 1) ln;
         current_block := new_block t ln;
         prior_types := t; st_line_no := Some ln; st_out := out |}
    else
      {| st_front := st_front st; st_scenes := st_scenes st;
         current_scene := closed;
         current_block := new_block t ln;
         prior_types := t; st_line_no := Some ln; st_out := out |}.

(** The loop [for (i, line_dict) in enumerate(script_lines)]: the
    lookahead is the content of the following line, when there is one. *)
Fixpoint parse_lines (ls : list line) (st : pstate) : pstate :=
  match ls with
  | [] => st
  | l :: rest =>
      let next_line :=
        match rest with
        | [] => None
        | n :: _ => Some (content n)
        end in
      parse_lines rest (parse_line l next_line st)
  end.

(** After the loop: the terminal block and scene are appended and the
    seed scene is deleted. *)
Definition flush (st : pstate) : gmap Z scene :=
  let last :=
    set_scene_last_line (append_block (current_scene st) (current_block st))
      (st_line_no st) in
  delete 0 (<[ scene_number last := last ]> (st_scenes st)).

(** The words of the lines [range(first_line - 1, last_line)], added to
    the running counts [(block_words, dialog_words)]. *)
Fixpoint count_lines (script_lines : list line) (bt : ptype)
    (idxs : list Z) (acc : Z * Z) : outcome (Z * Z) :=
  match idxs with
  | [] => Ok acc
  | i :: rest =>
      l ← Py.index script_lines i;
      let word_count := Py.count_words (content l) in
      count_lines script_lines bt rest
        (fst acc + word_count,
         if bool_decide (bt = DIALOG) then snd acc + word_count else snd acc)
  end.

Definition set_block_total_words (b : block) (w : Z) : block :=
  {| block_type := block_type b; first_line := first_line b;
     last_line := last_line b; line_types := line_types b;
     block_total_words := Some w |}.

(** The loop over the blocks of one scene; the accumulator holds the
    blocks already counted and [(total_words, dialog_words)]. *)
Fixpoint count_blocks (script_lines : list line) (bs : list block)
    (acc : list block * (Z * Z)) : outcome (list block * (Z * Z)) :=
  match bs with
  | [] => Ok acc
  | b :: rest =>
      let '(done, (total, dialog)) := acc in
      if bool_decide (block_type b = EMPTY) then
        count_blocks script_lines rest
          (done ++ [set_block_total_words b 0], (total, dialog))
      else
        r ← count_lines script_lines (block_type b)
              (Py.range (first_line b - 1) (last_line b)) (0, dialog);
        count_blocks script_lines rest
          (done ++ [set_block_total_words b (fst r)], (total + fst r, snd r))
  end.

Definition count_scene (script_lines : list line) (s : scene)
    : outcome scene :=
  r ← count_blocks script_lines (scene_blocks s) ([], (0, 0));
  Ok {| scene_number := scene_number s; heading_line := heading_line s;
        scene_first_line := scene_first_line s;
        scene_last_line := scene_last_line s;
        scene_blocks := fst r;
        scene_total_words := Some (fst (snd r));
        scene_dialog_words := Some (snd (snd r)) |}.

Definition scene_words (s : scene) : Z := default 0 (scene_total_words s).
Definition scene_dialog (s : scene) : Z := default 0 (scene_dialog_words s).
Definition block_words (b : block) : Z := default 0 (block_total_words b).

(** The loop [for scene_id in script['scenes'].keys()].  Python leaves the
    order of the keys unspecified; the order of [map_to_list] stands for
    it.  The accumulator holds the scenes already counted and
    [(script_total_words, script_dialog_words)]. *)
Fixpoint count_scenes (script_lines : list line) (ss : list (Z * scene))
    (acc : list (Z * scene) * (Z * Z))
    : outcome (list (Z * scene) * (Z * Z)) :=
  match ss with
  | [] => Ok acc
  | (k, s) :: rest =>
      s' ← count_scene script_lines s;
      count_scenes script_lines rest
        (fst acc ++ [(k, s')],
         (fst (snd acc) + scene_words s', snd (snd acc) + scene_dialog s'))
  end.

(** [parse_script_lines]: the structure, or the exception raised, and the
    text printed. *)
Definition parse_script_lines (script_lines : list line)
    : outcome structure * list message :=
  let st := parse_lines script_lines initial_pstate in
  let result :=
    r ← count_scenes script_lines (map_to_list (flush st)) ([], (0, 0));
    Ok {| front := st_front st;
          scenes := list_to_map (fst r);
          total_words := fst (snd r);
          dialog_words := snd (snd r) |} in
  (result, st_out st).

End Segmenter.

(** ** Nouns, presences and interactions *)

(** A [where] dictionary ([where] is reserved in Rocq).  [scene_id] is a key of [script['scenes']],
    modelled as the scene number. *)
Record where_t : Type := Where {
  scene_id : Z;
  where_page_no : Z;
  where_line_no : Z
}.

(** A presence dictionary; [presence_dialog_words] is absent until the
    last pass of [compute_presence_and_interactions] sets it. *)
Record presence : Type := Presence {
  name : string;
  noun_type : ntype;
  presence_type : itype;
  where_ : where_t;
  presence_dialog_words : option Z
}.

(** An interaction dictionary.  Its first participant is the scene
    location on some paths, which may be the empty dictionary [{}]:
    [None] stands for it. *)
Record interaction : Type := Interaction {
  int_a : option presence;
  int_b : presence;
  int_where : where_t;
  interaction_type : itype
}.

#[global] Instance where_eq_dec : EqDecision where_t.
Proof. solve_decision. Defined.
#[global] Instance presence_eq_dec : EqDecision presence.
Proof. solve_decision. Defined.
#[global] Instance interaction_eq_dec : EqDecision interaction.
Proof. solve_decision. Defined.

(** The value of [presence_ns[name]]: the authoritative noun type under
    the key ['noun_type'] and the presences under each scene id. *)
Record ns_entry : Type := NsEntry {
  entry_noun_type : ntype;
  entry_scenes : gmap Z (list presence)
}.

(** Modelled from the spec: the class [tsl.script.Presences.Presences] is
    not among the sources; it holds the append-only log and the two
    indices, all empty at construction. *)
Record Presences : Type := MkPresences {
  presences : list presence;
  presence_ns : gmap string ns_entry;
  presence_sn : gmap Z (gmap string (list presence))
}.

(** Modelled from the spec: the class [tsl.script.Interactions.Interactions]
    is not among the sources; it holds the append-only log and the two
    indices, all empty at construction. *)
Record Interactions : Type := MkInteractions {
  interactions : list interaction;
  interaction_ns : gmap string (gmap string (gmap Z (list interaction)));
  interaction_sn : gmap Z (gmap string (gmap string (list interaction)))
}.

Definition new_Presences : Presences :=
  {| presences := []; presence_ns := ∅; presence_sn := ∅ |}.

Definition new_Interactions : Interactions :=
  {| interactions := []; interaction_ns := ∅; interaction_sn := ∅ |}.

Definition get_presence (noun : string * ntype) (ptype_ : itype)
    (sid pg ln : Z) : presence :=
  {| name := fst noun; noun_type := snd noun; presence_type := ptype_;
     where_ := {| scene_id := sid; where_page_no := pg; where_line_no := ln |};
     presence_dialog_words := None |}.

(** [update_noun_type]: the type kept, and what it printed. *)
Definition update_noun_type (old_type new_type : ntype)
    : ntype * list message :=
  if (bool_decide (old_type = THING)
      && bool_decide (new_type ∈ [LOCATION; CHARACTER]))
     || (bool_decide (old_type = LOCATION)
         && bool_decide (new_type = CHARACTER))
  then (new_type, [])
  else if bool_decide (old_type = CHARACTER)
          && bool_decide (new_type = LOCATION)
  then (old_type, [[PS "ERROR: detected a character in a location context."]])
  else (old_type, []).

Definition set_entry_noun_type (e : ns_entry) (t : ntype) : ns_entry :=
  {| entry_noun_type := t; entry_scenes := entry_scenes e |}.

(** [update_presence]: the registry after the call, and what it printed. *)
Definition update_presence (P : Presences) (p : presence)
    : Presences * list message :=
  let nm := name p in
  let ntype_ := noun_type p in
  let sid := scene_id (where_ p) in
  let entry :=
    match presence_ns P !! nm with
    | None =>
        {| entry_noun_type := ntype_; entry_scenes := {[ sid := [p] ]} |}
    | Some e =>
        match entry_scenes e !! sid with
        | None =>
            {| entry_noun_type := entry_noun_type e;
               entry_scenes := <[ sid := [p] ]> (entry_scenes e) |}
        | Some ps =>
            {| entry_noun_type := entry_noun_type e;
               entry_scenes := <[ sid := ps ++ [p] ]> (entry_scenes e) |}
        end
    end in
  let '(t, printed) := update_noun_type (entry_noun_type entry) ntype_ in
  let sn :=
    match presence_sn P !! sid with
    | None => <[ sid := {[ nm := [p] ]} ]> (presence_sn P)
    | Some by_name =>
        match by_name !! nm with
        | None => <[ sid := <[ nm := [p] ]> by_name ]> (presence_sn P)
        | Some ps => <[ sid := <[ nm := ps ++ [p] ]> by_name ]> (presence_sn P)
        end
    end in
  ({| presences := presences P ++ [p];
      presence_ns := <[ nm := set_entry_noun_type entry t ]> (presence_ns P);
      presence_sn := sn |},
   printed).

Definition get_noun_type_for_name (P : Presences) (nm : string)
    (default : ntype) : ntype :=
  match presence_ns P !! nm with
  | Some e => entry_noun_type e
  | None => default
  end.

Definition get_page_for_line (script_lines : list line) (ln : Z)
    : outcome Z :=
  l ← Py.index script_lines (ln - 1);
  Ok (page_no l).

Definition get_interaction (a : option presence) (b : presence)
    (w : where_t) (nature : itype) : interaction :=
  {| int_a := a; int_b := b; int_where := w; interaction_type := nature |}.

(** [a['name']] on a presence or on [{}]. *)
Definition name_of (a : option presence) : outcome string :=
  match a with
  | Some p => Ok (name p)
  | None => Raise KeyError
  end.

(** [_update_interaction_helper], given the three key lookups
    [a[a_key]], [b[b_key]] and [c[c_key]], which come first and may
    raise. *)
Definition _update_interaction_helper `{Countable K1, Countable K2, Countable K3}
    (dictionary : gmap K1 (gmap K2 (gmap K3 (list interaction))))
    (a_val : outcome K1) (b_val : outcome K2) (c_val : outcome K3)
    (i : interaction)
    : outcome (gmap K1 (gmap K2 (gmap K3 (list interaction)))) :=
  av ← a_val;
  bv ← b_val;
  cv ← c_val;
  Ok match dictionary !! av with
     | None => <[ av := {[ bv := {[ cv := [i] ]} ]} ]> dictionary
     | Some da =>
         match da !! bv with
         | None => <[ av := <[ bv := {[ cv := [i] ]} ]> da ]> dictionary
         | Some db =>
             match db !! cv with
             | None =>
                 <[ av := <[ bv := <[ cv := [i] ]> db ]> da ]> dictionary
             | Some is_ =>
                 <[ av := <[ bv := <[ cv := is_ ++ [i] ]> db ]> da ]>
                   dictionary
             end
         end
     end.

(** [update_interaction]: the exception raised, if any, and the graph as
    the call leaves it (the log is appended to before the indices are
    touched). *)
Definition update_interaction (I : Interactions) (a : option presence)
    (b : presence) (w : where_t) (it : itype) : outcome unit * Interactions :=
  let i := get_interaction a b w it in
  let log := interactions I ++ [i] in
  let I0 := {| interactions := log; interaction_ns := interaction_ns I;
               interaction_sn := interaction_sn I |} in
  match _update_interaction_helper (interaction_ns I)
          (name_of a) (Ok (name b)) (Ok (scene_id w)) i with
  | Raise e => (Raise e, I0)
  | Ok ns1 =>
    let I1 := {| interactions := log; interaction_ns := ns1;
                 interaction_sn := interaction_sn I |} in
    match _update_interaction_helper ns1
            (Ok (name b)) (name_of a) (Ok (scene_id w)) i with
    | Raise e => (Raise e, I1)
    | Ok ns2 =>
      let I2 := {| interactions := log; interaction_ns := ns2;
                   interaction_sn := interaction_sn I |} in
      match _update_interaction_helper (interaction_sn I)
              (Ok (scene_id w)) (name_of a) (Ok (name b)) i with
      | Raise e => (Raise e, I2)
      | Ok sn1 =>
        let I3 := {| interactions := log; interaction_ns := ns2;
                     interaction_sn := sn1 |} in
        match _update_interaction_helper sn1
                (Ok (scene_id w)) (Ok (name b)) (name_of a) i with
        | Raise e => (Raise e, I3)
        | Ok sn2 =>
            (Ok tt, {| interactions := log; interaction_ns := ns2;
                       interaction_sn := sn2 |})
        end
      end
    end
  end.

(** ** Text utilities *)

Module Text.
Import Chars.

(** [re.sub(p + '+', ' ', s)] for a character class [p]: every maximal
    run of [p] becomes one space. *)
Fixpoint collapse_from (p : ascii -> bool) (in_run : bool) (s : string)
    : string :=
  match s with
  | EmptyString => EmptyString
  | String c s' =>
      if p c then
        if in_run then collapse_from p true s'
        else String " " (collapse_from p true s')
      else String c (collapse_from p false s')
  end.

Definition collapse (p : ascii -> bool) (s : string) : string :=
  collapse_from p false s.

Definition is_tab_or_space (c : ascii) : bool :=
  (N.eqb (code c) 9 || N.eqb (code c) 32)%bool.

Definition is_dash (c : ascii) : bool := is_char "-" c.

Fixpoint skip_dashes (s : string) : string :=
  match s with
  | EmptyString => EmptyString
  | String c s' => if is_dash c then skip_dashes s' else s
  end.

(** [re.sub(r'^\s*-+\s*', '', s, count=1)] *)
Definition sub_leading_dashes (s : string) : string :=
  match Py.lstrip s with
  | String c t =>
      if is_dash c then Py.lstrip (skip_dashes t) else s
  | EmptyString => s
  end.

(** [re.sub(r'-+[^-]*$', '', s, count=1)]: the leftmost match starts at
    the last group of dashes and runs to the end of the string. *)
Fixpoint sub_last_dashes (s : string) : string :=
  match s with
  | EmptyString => EmptyString
  | String c s' =>
      if is_dash c && negb (Regex.exists_char is_dash (skip_dashes s'))
      then EmptyString
      else String c (sub_last_dashes s')
  end.

(** [strip_leading]; [remove] is used as a pattern by the source and is
    always the literal ['THE']. *)
Definition strip_leading (nm remove : string) : string :=
  let matched :=
    Py.startswith nm remove
    && match Py.drop (String.length remove) nm with
       | String c _ => is_space c
       | EmptyString => false
       end in
  let result :=
    if matched then Py.drop (String.length remove + 1) nm else EmptyString in
  if Z.eqb (Py.len result) 0 then nm
  else if Regex.forall_chars is_space result then nm
  else result.

Definition get_scene_location (scene_heading : string) : string :=
  let h :=
    if Py.startswith scene_heading "INTERIOR"
       || Py.startswith scene_heading "EXTERIOR"
    then Py.drop 8 scene_heading
    else if Py.startswith scene_heading "INT."
            || Py.startswith scene_heading "EXT."
    then Py.drop 4 scene_heading
    else scene_heading in
  let h := sub_leading_dashes h in
  let h := Py.lstrip h in
  let h := sub_last_dashes h in
  let h := Py.rstrip h in
  strip_leading h "THE".

(** [re.sub(r'\([^\)]*\)', '', s)]: an opening parenthesis with a closing
    one somewhere after it is removed up to the first closing one. *)
Fixpoint remove_parentheticals (inside : bool) (s : string) : string :=
  match s with
  | EmptyString => EmptyString
  | String c s' =>
      if inside then remove_parentheticals (negb (is_char ")" c)) s'
      else if is_char "(" c && Regex.exists_char (is_char ")") s'
      then remove_parentheticals true s'
      else String c (remove_parentheticals false s')
  end.

Definition get_character_from_dialog_header (dialog_header : string)
    : string :=
  Py.strip (remove_parentheticals false dialog_header).

(** [\b] between two neighbouring characters; outside the string counts
    as a non-word character. *)
Definition is_word_opt (c : option ascii) : bool :=
  match c with
  | Some x => is_word x
  | None => false
  end.

Definition boundary (prev next : option ascii) : bool :=
  xorb (is_word_opt prev) (is_word_opt next).

Definition head (s : string) : option ascii :=
  match s with
  | EmptyString => None
  | String c _ => Some c
  end.

(** The class [[A-Z0-9\s\.\-\']]. *)
Definition noun_class (c : ascii) : bool :=
  is_upper c || is_digit c || is_space c
  || is_char "." c || is_char "-" c || is_char "'" c.

(** The largest [k] such that the first [k] characters of [s] are in
    [noun_class] and a word boundary follows them; [last] is the
    character before [s]. *)
Fixpoint longest_end (last : ascii) (s : string) : option nat :=
  let here := if boundary (Some last) (head s) then Some O else None in
  match s with
  | EmptyString => here
  | String c s' =>
      if noun_class c then
        match longest_end c s' with
        | Some k => Some (S k)
        | None => here
        end
      else here
  end.

(** The length of the match of [\b[A-Z][A-Z0-9\s\.\-\']+\b] at the start
    of [s], if any; [prev] is the character before [s]. *)
Definition match_noun (prev : option ascii) (s : string) : option nat :=
  match s with
  | String c0 (String c1 rest) =>
      if boundary prev (Some c0) && is_upper c0 && noun_class c1 then
        match longest_end c1 rest with
        | Some k => Some (2 + k)%nat
        | None => None
        end
      else None
  | _ => None
  end.

(** [re.findall(r'\b[A-Z][A-Z0-9\s\.\-\']+\b', text)].  [skip] counts the
    characters of the previous match still to pass. *)
Fixpoint findall_nouns (prev : option ascii) (skip : nat) (s : string)
    : list string :=
  match s with
  | EmptyString => []
  | String c s' =>
      match skip with
      | S k => findall_nouns (Some c) k s'
      | O =>
          match match_noun prev s with
          | Some n => substring 0 n s :: findall_nouns (Some c) (n - 1) s'
          | None => findall_nouns (Some c) O s'
          end
      end
  end.

Fixpoint last_char (s : string) : option ascii :=
  match s with
  | EmptyString => None
  | String c EmptyString => Some c
  | String _ s' => last_char s'
  end.

(** [re.sub(r'^(A|I) ', '', s)] *)
Definition sub_leading_article (s : string) : string :=
  if Py.startswith s "A " || Py.startswith s "I " then Py.drop 2 s else s.

(** The provisional names of [discover_nouns]. *)
Definition provisional_names (text : string) : list string :=
  map (fun x => strip_leading (sub_leading_article (Py.strip x)) "THE")
    (filter (fun x =>
       negb (String.eqb (Py.strip x) EmptyString)
       && Regex.exists_char is_upper x
       && negb (String.eqb (Py.strip x) "A")
       && negb (String.eqb (Py.strip x) "I")
       && negb (bool_decide (last_char x = Some "'"%char)) = true)
      (findall_nouns None O text)).

(** One pattern character against one text character under [re.I]; in a
    pattern that was not escaped, [.] is any character but a newline.  A
    pattern that was not escaped is read as the source reads it when it is
    made of the characters [[A-Z0-9\s\.\-\']] that [discover_nouns]
    returns, among which [.] is the only one [re] gives a meaning of its
    own; other patterns are outside the model. *)
Definition char_matches (escaped : bool) (p c : ascii) : bool :=
  if negb escaped && is_char "." p then negb (is_char LF c)
  else Ascii.eqb (to_lower p) (to_lower c).

(** The text left after [pat] matched at the start of [s], with the last
    character matched. *)
Fixpoint match_literal (escaped : bool) (pat : string) (last : option ascii)
    (s : string) : option (option ascii * string) :=
  match pat with
  | EmptyString => Some (last, s)
  | String p pat' =>
      match s with
      | String c s' =>
          if char_matches escaped p c
          then match_literal escaped pat' (Some c) s'
          else None
      | EmptyString => None
      end
  end.

(** [\b pat \b] at the start of [s]. *)
Definition match_word (escaped : bool) (pat : string) (prev : option ascii)
    (s : string) : bool :=
  boundary prev (head s)
  && match match_literal escaped pat prev s with
     | Some (last, rest) => boundary last (head rest)
     | None => false
     end.

(** The start offsets of [re.finditer(r'\b' + pat + r'\b', text, re.I)]. *)
Fixpoint finditer (escaped : bool) (pat : string) (prev : option ascii)
    (skip : nat) (pos : Z) (s : string) : list Z :=
  let hit :=
    match skip with
    | O => match_word escaped pat prev s
    | S _ => false
    end in
  match s with
  | EmptyString => if hit then [pos] else []
  | String c s' =>
      if hit
      then pos :: finditer escaped pat (Some c) (String.length pat - 1)
                    (pos + 1) s'
      else finditer escaped pat (Some c) (skip - 1) (pos + 1) s'
  end.

End Text.

(** ** The offset mapper *)

(** The loop of [get_line_offsets] over the segments of
    [text.split('\n')]; [k] is the index of the segment. *)
Fixpoint line_offsets_from (segments : list string) (total_offset : Z)
    (first_line : Z) (k : Z) : list (Z * Z) :=
  match segments with
  | [] => []
  | seg :: rest =>
      let total_offset := total_offset + Py.len seg + 1 in
      (total_offset, first_line + k)
        :: line_offsets_from rest total_offset first_line (k + 1)
  end.

(** [get_line_offsets]: the entry of the last segment is popped. *)
Definition get_line_offsets (text : string) (first_line : Z)
    : list (Z * Z) :=
  removelast (line_offsets_from (Py.split_lines text) 0 first_line 0).

(** The loop of [get_line_for_offset]. *)
Fixpoint find_line (line_offsets : list (Z * Z)) (pos : Z) : option Z :=
  match line_offsets with
  | [] => None
  | (total_offset, ln) :: rest =>
      if Z.ltb pos total_offset then Some ln else find_line rest pos
  end.

(** [get_line_for_offset]: the line, or the exception raised by
    [line_offsets[0]], and what was printed. *)
Definition get_line_for_offset (line_offsets : list (Z * Z)) (pos : Z)
    : outcome Z * list message :=
  match find_line line_offsets pos with
  | Some ln => (Ok ln, [])
  | None =>
      (entry ← Py.index line_offsets 0; Ok (snd entry),
       [[PS "Error: Couldn't find position"; PZ pos;
         PS " in line offsets:"; POffsets line_offsets]])
  end.

(** ** State and exceptions of the extraction engine *)

(** The objects the engine mutates, and standard output. *)
Record world : Type := World {
  w_presences : Presences;
  w_interactions : Interactions;
  w_out : list message
}.

(** A computation that may raise; the state persists when it does. *)
Definition M (A : Type) : Type := world -> outcome A * world.

Definition ret {A} (x : A) : M A := fun w => (Ok x, w).

Definition bind {A B} (m : M A) (k : A -> M B) : M B := fun w =>
  match m w with
  | (Ok x, w') => k x w'
  | (Raise e, w') => (Raise e, w')
  end.

Notation "'let*' x ':=' m 'in' k" := (bind m (fun x => k))
  (at level 10, x pattern, m at level 100, k at level 200).

Definition lift {A} (o : outcome A) : M A := fun w => (o, w).

Definition print (ms : list message) : M unit := fun w =>
  (Ok tt, {| w_presences := w_presences w;
             w_interactions := w_interactions w;
             w_out := w_out w ++ ms |}).

Definition get_Presences : M Presences := fun w => (Ok (w_presences w), w).

(** [update_presence] on the registry of the world. *)
Definition do_update_presence (p : presence) : M unit := fun w =>
  let '(P, printed) := update_presence (w_presences w) p in
  (Ok tt, {| w_presences := P; w_interactions := w_interactions w;
             w_out := w_out w ++ printed |}).

(** A computation on the interaction graph, run on the graph of the
    world. *)
Definition on_interactions {A}
    (f : Interactions -> outcome A * Interactions) : M A := fun w =>
  let '(r, G) := f (w_interactions w) in
  (r, {| w_presences := w_presences w; w_interactions := G;
         w_out := w_out w |}).

Definition do_update_interaction (a : option presence) (b : presence)
    (w : where_t) (it : itype) : M unit :=
  on_interactions (fun I => update_interaction I a b w it).

(** [for x in xs: body(x)] *)
Fixpoint for_each {A} (xs : list A) (body : A -> M unit) : M unit :=
  match xs with
  | [] => ret tt
  | x :: rest => let* _ := body x in for_each rest body
  end.

(** [itertools.combinations(l, 2)] *)
Fixpoint combinations2 {A} (l : list A) : list (A * A) :=
  match l with
  | [] => []
  | x :: rest => map (fun y => (x, y)) rest ++ combinations2 rest
  end.

(** ** The extraction engine *)

(** The sort keys of [sorted(..., key=...)] on pairs. *)
Definition by_fst {A} (x y : Z * A) : Prop := fst x <= fst y.
Definition by_snd {A} (x y : A * Z) : Prop := snd x <= snd y.

#[global] Instance by_fst_dec {A} (x y : Z * A) : Decision (by_fst x y).
Proof. unfold by_fst. apply _. Defined.
#[global] Instance by_snd_dec {A} (x y : A * Z) : Decision (by_snd x y).
Proof. unfold by_snd. apply _. Defined.

(** [enumerate(l)], counting from [k]. *)
Fixpoint enumerate_from {A} (k : nat) (l : list A) : list (nat * A) :=
  match l with
  | [] => []
  | x :: rest => (k, x) :: enumerate_from (S k) rest
  end.

Definition enumerate {A} (l : list A) : list (nat * A) := enumerate_from 0 l.

(** The inner loop of the speaker linking, for one [s1]. *)
Fixpoint link_speaker (s1_pos : nat) (s1 : presence)
    (dialog_recorded : gset string) (others : list (nat * presence))
    (G : Interactions) : outcome unit * Interactions :=
  match others with
  | [] => (Ok tt, G)
  | (s2_pos, s2) :: rest =>
      if Nat.leb s2_pos s1_pos
         || bool_decide (name s2 ∈ dialog_recorded)
         || bool_decide (name s1 = name s2)
      then link_speaker s1_pos s1 dialog_recorded rest G
      else
        match update_interaction G (Some s1) s2 (where_ s1) DISCUSS with
        | (Ok _, G') => link_speaker s1_pos s1 dialog_recorded rest G'
        | (Raise e, G') => (Raise e, G')
        end
  end.

(** The outer loop of the speaker linking. *)
Fixpoint link_speakers_from (speakers_present : list presence)
    (todo : list (nat * presence)) (dialog_recorded : gset string)
    (G : Interactions) : outcome unit * Interactions :=
  match todo with
  | [] => (Ok tt, G)
  | (s1_pos, s1) :: rest =>
      match link_speaker s1_pos s1 dialog_recorded
              (enumerate speakers_present) G with
      | (Ok _, G') =>
          link_speakers_from speakers_present rest
            ({[ name s1 ]} ∪ dialog_recorded) G'
      | (Raise e, G') => (Raise e, G')
      end
  end.

(** The last loop of [update_presence_and_interactions_for_dialog]: each
    speaker is related to the dialog entries below. *)
Definition link_speakers (speakers_present : list presence)
    (G : Interactions) : outcome unit * Interactions :=
  link_speakers_from speakers_present (enumerate speakers_present) ∅ G.

Section Engine.

(** The module-level [mode] imported from [const.py]. *)
Variable mode : parse_mode.

(** [nltk.tokenize.sent_tokenize], an external library. *)
Variable sent_tokenize : string -> list string.

Definition discover_nouns (P : Presences) (text : string) (ntype_ : ntype)
    : list (string * ntype) :=
  map (fun nm => (nm, ntype_))
    (filter (fun nm => presence_ns P !! nm = None)
       (Text.provisional_names text)).

(** [get_name_offsets].  The source iterates over a dictionary and a set,
    whose orders Python leaves unspecified: occurrences at the same
    offset come in the order of [map_to_list] and of [new_nouns].  The
    name of a new noun is used as a pattern without [re.escape]: see
    [Text.char_matches] for the names on which the model is exact. *)
Definition get_name_offsets (P : Presences) (text : string)
    (new_nouns : list (string * ntype)) : list (string * Z) :=
  let known :=
    flat_map (fun nm => map (fun o => (nm, o))
                          (Text.finditer true nm None 0 0 text))
      (map fst (map_to_list (presence_ns P))) in
  let fresh :=
    flat_map (fun noun => map (fun o => (fst noun, o))
                            (Text.finditer false (fst noun) None 0 0 text))
      new_nouns in
  merge_sort by_snd (remove_dups (known ++ fresh)).

(** The loop over the name occurrences of one sentence; returns
    [sent_presences]. *)
Fixpoint presences_of_sentence (script_lines : list line)
    (line_offsets : list (Z * Z)) (sid : Z)
    (scene_location : option presence) (ptype_ : itype) (prior_offset : Z)
    (name_offsets : list (string * Z)) (sent_presences : list presence)
    : M (list presence) :=
  match name_offsets with
  | [] => ret sent_presences
  | (nm, offset) :: rest =>
      let total_offset := prior_offset + offset in
      let '(found, printed) := get_line_for_offset line_offsets total_offset in
      let* _ := print printed in
      let* ln := lift found in
      let* P := get_Presences in
      let* pg := lift (get_page_for_line script_lines ln) in
      let p := get_presence (nm, get_noun_type_for_name P nm THING)
                 ptype_ sid pg ln in
      let* _ := do_update_presence p in
      let* _ := do_update_interaction scene_location p (where_ p) SETTING in
      presences_of_sentence script_lines line_offsets sid scene_location
        ptype_ prior_offset rest (sent_presences ++ [p])
  end.

(** The loop over the sentences; returns [result]. *)
Fixpoint presences_of_sentences (script_lines : list line)
    (line_offsets : list (Z * Z)) (sid : Z)
    (scene_location : option presence) (ptype_ : itype)
    (sentences : list string) (prior_offset : Z) (result : list presence)
    : M (list presence) :=
  match sentences with
  | [] => ret result
  | sent :: rest =>
      let* P := get_Presences in
      let new_nouns :=
        match mode with
        | FUZZY => discover_nouns P sent THING
        | STRICT => []
        end in
      let name_offsets := get_name_offsets P sent new_nouns in
      let* sent_presences :=
        presences_of_sentence script_lines line_offsets sid scene_location
          ptype_ prior_offset name_offsets [] in
      let* _ :=
        for_each (combinations2 sent_presences) (fun pq =>
          do_update_interaction (Some (fst pq)) (snd pq)
            (where_ (fst pq)) APPEAR) in
      presences_of_sentences script_lines line_offsets sid scene_location
        ptype_ rest (prior_offset + (Py.len sent + 1))
        (result ++ sent_presences)
  end.

Definition update_presence_and_interactions_for_lines
    (script_lines : list line) (first_line_ last_line_ : Z) (sid : Z)
    (scene_location : option presence) (ptype_ : itype)
    : M (list presence) :=
  let text :=
    Py.join (map content (Py.slice script_lines (first_line_ - 1) last_line_)) in
  let text := Text.collapse Text.is_tab_or_space text in
  let line_offsets := get_line_offsets text first_line_ in
  let text := Text.collapse Chars.is_space text in
  presences_of_sentences script_lines line_offsets sid scene_location ptype_
    (sent_tokenize text) 0 [].

(** The local variables of the loop over the lines of a dialog block. *)
Record dstate : Type := DState {
  speakers_present : list presence;
  running_dialog : bool;
  prior_speaker : option presence;
  first_dialog_line : Z;
  last_dialog_line : Z
}.

(** The dialog lines collected so far are processed and what they mention
    is linked to the prior speaker. *)
Definition flush_dialog (script_lines : list line) (sid : Z)
    (scene_location : option presence) (prior : option presence)
    (first_dialog last_dialog : Z) : M unit :=
  let* mentioned :=
    update_presence_and_interactions_for_lines script_lines
      first_dialog last_dialog sid scene_location MENTION in
  match prior with
  | Some speaker =>
      for_each mentioned (fun thing =>
        do_update_interaction (Some speaker) thing (where_ thing) MENTION)
  | None => ret tt
  end.

(** The loop over [sorted(block['line_types'], key=int)]. *)
Fixpoint dialog_lines (script_lines : list line) (sid : Z)
    (scene_location : option presence) (keys : list (Z * ptype))
    (st : dstate) : M dstate :=
  match keys with
  | [] => ret st
  | (ln, line_type) :: rest =>
      if bool_decide (line_type = DIALOG_HEADER) then
        let* l := lift (Py.index script_lines (ln - 1)) in
        let character := Text.get_character_from_dialog_header (content l) in
        if String.eqb character EmptyString then
          let* _ := print
            [[PS "ERROR: Encountered empty character name on line:"; PZ ln]] in
          dialog_lines script_lines sid scene_location rest st
        else
          let* pg := lift (get_page_for_line script_lines ln) in
          let speaker := get_presence (character, CHARACTER) DISCUSS sid pg ln in
          let* _ := do_update_presence speaker in
          let* _ := do_update_interaction scene_location speaker
                      (where_ speaker) SETTING in
          let* _ :=
            if running_dialog st
            then flush_dialog script_lines sid scene_location
                   (prior_speaker st) (first_dialog_line st)
                   (last_dialog_line st)
            else ret tt in
          dialog_lines script_lines sid scene_location rest
            {| speakers_present := speakers_present st ++ [speaker];
               running_dialog := false;
               prior_speaker := Some speaker;
               first_dialog_line := first_dialog_line st;
               last_dialog_line := last_dialog_line st |}
      else if bool_decide (line_type = DIALOG) then
        dialog_lines script_lines sid scene_location rest
          (if running_dialog st then
             {| speakers_present := speakers_present st;
                running_dialog := true;
                prior_speaker := prior_speaker st;
                first_dialog_line := first_dialog_line st;
                last_dialog_line := ln |}
           else
             {| speakers_present := speakers_present st;
                running_dialog := true;
                prior_speaker := prior_speaker st;
                first_dialog_line := ln;
                last_dialog_line := ln |})
      else dialog_lines script_lines sid scene_location rest st
  end.

(** The keys of [line_types] in increasing order, with their values. *)
Definition sorted_line_types (b : block) : list (Z * ptype) :=
  merge_sort by_fst (map_to_list (line_types b)).

Definition update_presence_and_interactions_for_dialog
    (script_lines : list line) (sid : Z) (scene_location : option presence)
    (b : block) : M unit :=
  let* st :=
    dialog_lines script_lines sid scene_location (sorted_line_types b)
      {| speakers_present := []; running_dialog := false;
         prior_speaker := None; first_dialog_line := 0;
         last_dialog_line := 0 |} in
  let* _ :=
    if running_dialog st
    then flush_dialog script_lines sid scene_location (prior_speaker st)
           (first_dialog_line st) (last_dialog_line st)
    else ret tt in
  on_interactions (link_speakers (speakers_present st)).

Definition is_known_character (P : Presences) (nm : string) : bool :=
  match presence_ns P !! nm with
  | Some e => bool_decide (entry_noun_type e = CHARACTER)
  | None => false
  end.

(** First pass, the loop over the blocks of one scene. *)
Fixpoint seed_blocks (script_lines : list line) (sid : Z) (bs : list block)
    (scene_location : option presence) : M unit :=
  match bs with
  | [] => ret tt
  | b :: rest =>
      if bool_decide (block_type b = SCENE_HEADING) then
        let* l := lift (Py.index script_lines (first_line b - 1)) in
        let nm := Text.get_scene_location (content l) in
        let location :=
          get_presence (nm, LOCATION) SETTING sid (page_no l) (line_no l) in
        let* P := get_Presences in
        let* _ :=
          if is_known_character P nm
          then print [[PS "ERROR: Encountered"; PS nm;
                       PS "in the context of a scene heading - ignoring."]]
          else do_update_presence location in
        seed_blocks script_lines sid rest (Some location)
      else if bool_decide (block_type b = DIALOG) then
        let* _ := update_presence_and_interactions_for_dialog script_lines
                    sid scene_location b in
        seed_blocks script_lines sid rest scene_location
      else seed_blocks script_lines sid rest scene_location
  end.

(** [presence_sn[scene_id][name][0]] *)
Definition first_presence_in_scene (P : Presences) (sid : Z) (nm : string)
    : outcome presence :=
  match presence_sn P !! sid with
  | None => Raise KeyError
  | Some by_name =>
      match by_name !! nm with
      | None => Raise KeyError
      | Some ps => Py.index ps 0
      end
  end.

(** Second pass, the loop that replays the headings of one scene; returns
    [(scene_location, prior_scene_location)]. *)
Fixpoint replay_headings (script_lines : list line) (sid : Z)
    (bs : list block) (scene_location prior_scene_location : option presence)
    : M (option presence * option presence) :=
  match bs with
  | [] => ret (scene_location, prior_scene_location)
  | b :: rest =>
      if bool_decide (block_type b = SCENE_HEADING) then
        let* l := lift (Py.index script_lines (first_line b - 1)) in
        let nm := Text.get_scene_location (content l) in
        let* P := get_Presences in
        if is_known_character P nm then
          let* _ := print
            [[PS "ERROR: Encountered"; PS nm;
              PS "in the context of a scene heading - ignoring."]] in
          replay_headings script_lines sid rest prior_scene_location
            prior_scene_location
        else
          let* p := lift (first_presence_in_scene P sid nm) in
          ret (Some p, Some p)
      else
        replay_headings script_lines sid rest scene_location
          prior_scene_location
  end.

(** Second pass, the loop over the action and direction blocks. *)
Fixpoint sweep_blocks (script_lines : list line) (sid : Z) (bs : list block)
    (scene_location : option presence) : M unit :=
  match bs with
  | [] => ret tt
  | b :: rest =>
      let* _ :=
        if bool_decide (block_type b ∈ [ACTION; DIRECTION]) then
          let* _ := update_presence_and_interactions_for_lines script_lines
                      (first_line b) (last_line b) sid scene_location APPEAR in
          ret tt
        else ret tt in
      sweep_blocks script_lines sid rest scene_location
  end.

(** [script['scenes'][scene_id]] *)
Definition scene_at (s : structure) (sid : Z) : outcome scene :=
  match scenes s !! sid with
  | Some sc => Ok sc
  | None => Raise KeyError
  end.

(** [sorted(script['scenes'], key=int)] *)
Definition sorted_scene_ids (s : structure) : list Z :=
  Py.sorted (map fst (map_to_list (scenes s))).

Definition first_pass (script_lines : list line) (s : structure) : M unit :=
  for_each (sorted_scene_ids s) (fun sid =>
    let* sc := lift (scene_at s sid) in
    seed_blocks script_lines sid (scene_blocks sc) None).

Fixpoint second_pass_from (script_lines : list line) (s : structure)
    (sids : list Z) (prior_scene_location : option presence) : M unit :=
  match sids with
  | [] => ret tt
  | sid :: rest =>
      let* sc := lift (scene_at s sid) in
      let* locs := replay_headings script_lines sid (scene_blocks sc) None
                     prior_scene_location in
      let* _ := sweep_blocks script_lines sid (scene_blocks sc) (fst locs) in
      second_pass_from script_lines s rest (snd locs)
  end.

Definition second_pass (script_lines : list line) (s : structure) : M unit :=
  second_pass_from script_lines s (sorted_scene_ids s) None.

(** The loop of the last pass over the sorted items of [line_types]. *)
Fixpoint sum_dialog_words (script_lines : list line) (first_line_ : Z)
    (items : list (Z * ptype)) (dialog_words_ : Z) : outcome Z :=
  match items with
  | [] => Ok dialog_words_
  | (ln, line_type) :: rest =>
      if Z.ltb ln first_line_ then
        sum_dialog_words script_lines first_line_ rest dialog_words_
      else if Z.eqb ln first_line_ then
        l ← Py.index script_lines (ln - 1);
        sum_dialog_words script_lines first_line_ rest
          (dialog_words_ + Py.count_words (content l))
      else if bool_decide (line_type = DIALOG_HEADER) then Ok dialog_words_
      else
        l ← Py.index script_lines (ln - 1);
        sum_dialog_words script_lines first_line_ rest
          (dialog_words_ + Py.count_words (content l))
  end.

(** The block of the scene that holds the line, or Python's [None]. *)
Definition enclosing_block (bs : list block) (ln : Z) : option block :=
  List.find (fun b => Z.leb (first_line b) ln && Z.leb ln (last_line b)) bs.

(** The value the last pass stores in [presence['dialog_words']]. *)
Definition dialog_words_for (script_lines : list line) (s : structure)
    (p : presence) : outcome Z :=
  sc ← scene_at s (scene_id (where_ p));
  match enclosing_block (scene_blocks sc) (where_line_no (where_ p)) with
  | None => Raise TypeError
  | Some dialog_block =>
      sum_dialog_words script_lines (where_line_no (where_ p))
        (sorted_line_types dialog_block) 0
  end.

(** The last pass on one presence dictionary. *)
Definition augment (script_lines : list line) (s : structure)
    (p : presence) : presence :=
  if bool_decide (presence_type p = DISCUSS) then
    match dialog_words_for script_lines s p with
    | Ok w =>
        {| name := name p; noun_type := noun_type p;
           presence_type := presence_type p; where_ := where_ p;
           presence_dialog_words := Some w |}
    | Raise _ => p
    end
  else p.

Definition augment_interaction (f : presence -> presence) (i : interaction)
    : interaction :=
  {| int_a := f <$> int_a i; int_b := f (int_b i);
     int_where := int_where i; interaction_type := interaction_type i |}.

(** [f] on every element of every list of a dictionary of lists. *)
Definition map_lists `{Countable K} {A} (f : A -> A) (m : gmap K (list A))
    : gmap K (list A) :=
  (fun l : list A => f <$> l) <$> m.

Definition map_index `{Countable K1, Countable K2} {A} (f : A -> A)
    (m : gmap K1 (gmap K2 (list A))) : gmap K1 (gmap K2 (list A)) :=
  map_lists f <$> m.

(** The first exception the loop of the last pass raises, if any. *)
Fixpoint augment_check (script_lines : list line) (s : structure)
    (ps : list presence) : outcome unit :=
  match ps with
  | [] => Ok tt
  | p :: rest =>
      if bool_decide (presence_type p = DISCUSS) then
        _ ← dialog_words_for script_lines s p;
        augment_check script_lines s rest
      else augment_check script_lines s rest
  end.

(** The last pass.  A presence dictionary is shared by the log, the
    indices and the interactions that name it; the value stored depends on
    the dictionary alone and every [DISCUSS] dictionary is in the log, so
    the mutation is the same map applied to every copy. *)
Definition augment_dialog_words (script_lines : list line) (s : structure)
    : M unit := fun w =>
  let P := w_presences w in
  let G := w_interactions w in
  match augment_check script_lines s (presences P) with
  | Raise e => (Raise e, w)
  | Ok _ =>
      let f := augment script_lines s in
      let g := augment_interaction f in
      (Ok tt,
       {| w_presences :=
            {| presences := f <$> presences P;
               presence_ns :=
                 (fun e => {| entry_noun_type := entry_noun_type e;
                              entry_scenes := map_lists f (entry_scenes e) |})
                 <$> presence_ns P;
               presence_sn := map_lists f <$> presence_sn P |};
          w_interactions :=
            {| interactions := g <$> interactions G;
               interaction_ns := map_index g <$> interaction_ns G;
               interaction_sn := map_index g <$> interaction_sn G |};
          w_out := w_out w |})
  end.

Definition new_world : world :=
  {| w_presences := new_Presences; w_interactions := new_Interactions;
     w_out := [] |}.

(** [compute_presence_and_interactions]: the pair returned or the
    exception raised, and what was printed.  The argument [parse_mode_] is
    only assigned to a local variable by the source; the mode in force is
    the module-level [mode]. *)
Definition compute_presence_and_interactions (script_lines : list line)
    (s : structure) (parse_mode_ : parse_mode)
    : outcome (Presences * Interactions) * list message :=
  let run :=
    let* _ := first_pass script_lines s in
    let* _ := second_pass script_lines s in
    augment_dialog_words script_lines s in
  match run new_world with
  | (Ok _, w) => (Ok (w_presences w, w_interactions w), w_out w)
  | (Raise e, w) => (Raise e, w_out w)
  end.

(** The whole pipeline: [compute_presence_and_interactions] after
    [parse_script_lines]. *)
Definition extract (script_lines : list line) (parse_mode_ : parse_mode)
    : outcome (Presences * Interactions) * list message :=
  match parse_script_lines mode script_lines with
  | (Ok s, out) =>
      let '(r, out') :=
        compute_presence_and_interactions script_lines s parse_mode_ in
      (r, out ++ out')
  | (Raise e, out) => (Raise e, out)
  end.

End Engine.

(** ** Test doubles *)

(** A stand-in for [sent_tokenize] on texts that hold one sentence: the
    text without the white space around it is its single sentence. *)
Definition single_sentence (text : string) : list string :=
  let sentence := Py.strip text in
  if String.eqb sentence EmptyString then [] else [sentence].

(** The line records of a text file: lines numbered from [k] on page 1. *)
Fixpoint numbered_from (k : Z) (contents : list string) : list line :=
  match contents with
  | [] => []
  | c :: rest =>
      {| line_no := k; page_no := 1; content := c |}
        :: numbered_from (k + 1) rest
  end.

Definition newline : string := String Chars.LF EmptyString.

(** Every line keeps its newline, as the offset mapper assumes. *)
Definition with_newlines (contents : list string) : list line :=
  numbered_from 1 (map (fun c => c +:+ newline) contents).

(** The lines without their newlines. *)
Definition without_newlines (contents : list string) : list line :=
  numbered_from 1 contents.

(** ** Notions the properties are stated with *)

(** Decides a fact about all 256 characters by enumeration. *)
Ltac by_enumeration :=
  let c := fresh "c" in
  intros c; destruct c as [[] [] [] [] [] [] [] []]; vm_compute;
  solve [reflexivity | discriminate | intros; reflexivity
         | intros; discriminate].

(** The authoritative noun type of a name in the registry. *)
Definition authoritative_type (P : Presences) (nm : string) : option ntype :=
  entry_noun_type <$> presence_ns P !! nm.

(** A sequence of calls of [update_presence]; what they print is dropped. *)
Definition update_presences (P : Presences) (ps : list presence)
    : Presences :=
  fold_left (fun Q p => fst (update_presence Q p)) ps P.

(** [p] is in the list of the name-keyed index and of the scene-keyed
    index. *)
Definition in_presence_ns (P : Presences) (nm : string) (sid : Z)
    (p : presence) : Prop :=
  exists e ps, presence_ns P !! nm = Some e
               /\ entry_scenes e !! sid = Some ps /\ p ∈ ps.

Definition in_presence_sn (P : Presences) (sid : Z) (nm : string)
    (p : presence) : Prop :=
  exists by_name ps, presence_sn P !! sid = Some by_name
                     /\ by_name !! nm = Some ps /\ p ∈ ps.

Definition presence_reachable (P : Presences) (p : presence) : Prop :=
  in_presence_ns P (name p) (scene_id (where_ p)) p
  /\ in_presence_sn P (scene_id (where_ p)) (name p) p.

Definition Presences_consistent (P : Presences) : Prop :=
  forall p, p ∈ presences P -> presence_reachable P p.

(** The lists of the two indices, empty where a key is missing. *)
Definition ns_list (P : Presences) (nm : string) (sid : Z) : list presence :=
  default [] (presence_ns P !! nm ≫= fun e => entry_scenes e !! sid).

Definition sn_list (P : Presences) (sid : Z) (nm : string) : list presence :=
  default [] (presence_sn P !! sid ≫= fun m => m !! nm).

(** [i] is in the list at [d[k1][k2][k3]]. *)
Definition in_index `{Countable K1, Countable K2, Countable K3}
    (d : gmap K1 (gmap K2 (gmap K3 (list interaction))))
    (k1 : K1) (k2 : K2) (k3 : K3) (i : interaction) : Prop :=
  exists d1 d2 l, d !! k1 = Some d1 /\ d1 !! k2 = Some d2
                  /\ d2 !! k3 = Some l /\ i ∈ l.

(** The list at [d[k1][k2][k3]], empty where a key is missing. *)
Definition index_list `{Countable K1, Countable K2, Countable K3}
    (d : gmap K1 (gmap K2 (gmap K3 (list interaction))))
    (k1 : K1) (k2 : K2) (k3 : K3) : list interaction :=
  match d !! k1 with
  | Some d1 =>
      match d1 !! k2 with
      | Some d2 => default [] (d2 !! k3)
      | None => []
      end
  | None => []
  end.

(** The four index paths of an interaction: both participant orders under
    both keying strategies. *)
Definition interaction_reachable (G : Interactions) (i : interaction)
    : Prop :=
  exists a, int_a i = Some a
    /\ let b := int_b i in
       let sid := scene_id (int_where i) in
       in_index (interaction_ns G) (name a) (name b) sid i
       /\ in_index (interaction_ns G) (name b) (name a) sid i
       /\ in_index (interaction_sn G) sid (name a) (name b) i
       /\ in_index (interaction_sn G) sid (name b) (name a) i.

Definition Interactions_consistent (G : Interactions) : Prop :=
  forall i, i ∈ interactions G -> interaction_reachable G i.

(** One call of [update_interaction] between two presences. *)
Record call : Type := Call {
  call_a : presence;
  call_b : presence;
  call_where : where_t;
  call_type : itype
}.

Definition interaction_of (c : call) : interaction :=
  get_interaction (Some (call_a c)) (call_b c) (call_where c) (call_type c).

(** A sequence of calls of [update_interaction]; stops at an exception. *)
Fixpoint update_interactions (G : Interactions) (cs : list call)
    : outcome unit * Interactions :=
  match cs with
  | [] => (Ok tt, G)
  | c :: rest =>
      match update_interaction G (Some (call_a c)) (call_b c)
              (call_where c) (call_type c) with
      | (Ok _, G') => update_interactions G' rest
      | (Raise e, G') => (Raise e, G')
      end
  end.

(** The line numbers of an offset table do not decrease along it. *)
Definition ascending (l : list (Z * Z)) : Prop :=
  forall pre x post y, l = pre ++ x :: post -> In y post -> snd x <= snd y.

(** The names of the participants of an interaction. *)
Definition participant_names (i : interaction) : option string * string :=
  (name <$> int_a i, name (int_b i)).

(** Header entry [e1] is related to header entry [e2]: [e2] comes later,
    bears another name, and no entry before [e1] bears the name of [e2]. *)
Definition links (speakers : list presence) (e1 e2 : nat * presence)
    : Prop :=
  (fst e1 < fst e2)%nat
  /\ (name (snd e2) ∉ map name (take (fst e1) speakers))
  /\ name (snd e1) <> name (snd e2).

#[global] Instance links_dec (speakers : list presence)
    (e1 e2 : nat * presence) : Decision (links speakers e1 e2).
Proof. unfold links. apply _. Defined.

(** The pairs of header entries that the speaker linking relates, in the
    order of the two loops. *)
Definition discuss_pairs (speakers : list presence)
    : list ((nat * presence) * (nat * presence)) :=
  flat_map (fun e1 : nat * presence =>
              map (pair e1) (filter (links speakers e1) (enumerate speakers)))
    (enumerate speakers).

(** The interaction recorded for a pair of header entries. *)
Definition discuss_link (e : (nat * presence) * (nat * presence))
    : interaction :=
  get_interaction (Some (snd (fst e))) (snd (snd e))
    (where_ (snd (fst e))) DISCUSS.

(** The sum of a list of counts. *)
Definition total (l : list Z) : Z := foldr Z.add 0 l.

(** The scenes of a structure, in the order of [map_to_list]. *)
Definition scene_list (s : structure) : list scene :=
  map snd (map_to_list (scenes s)).

(** A block after the word-count pass: it has its count, which is zero
    for an [EMPTY] block and never negative. *)
Definition block_counted (b : block) : Prop :=
  is_Some (block_total_words b)
  /\ (block_type b = EMPTY -> block_total_words b = Some 0)
  /\ 0 <= block_words b.

(** A scene after the word-count pass: its total is the sum of the counts
    of its blocks, and its dialog words are within the total. *)
Definition scene_counted (sc : scene) : Prop :=
  Forall block_counted (scene_blocks sc)
  /\ scene_total_words sc = Some (total (map block_words (scene_blocks sc)))
  /\ is_Some (scene_dialog_words sc)
  /\ 0 <= scene_dialog sc <= scene_words sc.

(** The input contract: the line at index [i] bears the number [i + 1]. *)
Definition well_numbered (script_lines : list line) : Prop :=
  forall i l, script_lines !! i = Some l -> line_no l = Z.of_nat i + 1.

(** The lines of a block are among the first [n] lines. *)
Definition block_in_range (n : Z) (b : block) : Prop :=
  1 <= first_line b /\ last_line b <= n.

Definition blocks_in_range (n : Z) (sc : scene) : Prop :=
  Forall (block_in_range n) (scene_blocks sc).

(** The state of the segmenter after [m] well-numbered lines: every block
    lies within the lines read. *)
Definition segmented (m : Z) (st : pstate) : Prop :=
  (forall k sc, st_scenes st !! k = Some sc -> blocks_in_range m sc)
  /\ blocks_in_range m (current_scene st)
  /\ block_in_range (Z.max 1 m) (current_block st).

(** An interaction whose two participants bear the same name. *)
Definition self_interaction (i : interaction) : Prop :=
  name <$> int_a i = Some (name (int_b i)).

#[global] Instance self_interaction_dec (i : interaction)
    : Decision (self_interaction i).
Proof. unfold self_interaction. apply _. Defined.

(** The interactions of a result, each as the names of its participants
    and its type; [None] when an exception was raised. *)
Definition recorded (r : outcome (Presences * Interactions) * list message)
    : option (list ((option string * string) * itype)) :=
  match fst r with
  | Ok (_, G) =>
      Some (map (fun i => (participant_names i, interaction_type i))
              (interactions G))
  | Raise _ => None
  end.

(** The promotion lattice [THING < LOCATION < CHARACTER]. *)
Definition rank (t : ntype) : nat :=
  match t with
  | THING => 0
  | LOCATION => 1
  | CHARACTER => 2
  end.

(** The presences of a log that bear a name, in a scene. *)
Definition named (nm : string) (p : presence) : Prop := name p = nm.

Definition named_in (nm : string) (sid : Z) (p : presence) : Prop :=
  name p = nm /\ scene_id (where_ p) = sid.

#[global] Instance named_dec (nm : string) (p : presence)
    : Decision (named nm p).
Proof. unfold named. apply _. Defined.

#[global] Instance named_in_dec (nm : string) (sid : Z) (p : presence)
    : Decision (named_in nm sid p).
Proof. unfold named_in. apply _. Defined.

(** The copies of an interaction between two presences that the list at
    [[n1][n2][sid]] of an index holds: one when it links [n1] to [n2] in
    scene [sid], one more when it links [n2] to [n1]. *)
Definition index_copies (n1 n2 : string) (sid : Z) (i : interaction)
    : list interaction :=
  (if decide (name <$> int_a i = Some n1 /\ name (int_b i) = n2
              /\ scene_id (int_where i) = sid) then [i] else [])
  ++ (if decide (name <$> int_a i = Some n2 /\ name (int_b i) = n1
                 /\ scene_id (int_where i) = sid) then [i] else []).

(** The number of newlines of a text. *)
Fixpoint count_newlines (s : string) : nat :=
  match s with
  | EmptyString => 0
  | String c s' =>
      (if Chars.is_char Chars.LF c then 1 else 0) + count_newlines s'
  end.

(** A text made of lines that each end with a newline. *)
Definition unlines (segments : list string) : string :=
  Py.join (map (fun seg => seg +:+ newline) segments).

(** Closes a goal whose hypotheses on three keys contradict each other. *)
Ltac keys_contradict :=
  exfalso;
  repeat match goal with H : _ /\ _ |- _ => destruct H end;
  repeat match goal with H : Some _ = Some _ |- _ => injection H as H end;
  match goal with
  | H : ~ _ |- _ => apply H; repeat split; congruence
  end.

(** The property kept by every insert: the authoritative type of a name
    is the highest type among the logged presences of the name. *)
Definition highest_logged (P : Presences) : Prop :=
  forall nm,
    let ts := map noun_type (filter (named nm) (presences P)) in
    match authoritative_type P nm with
    | None => ts = []
    | Some t => In t ts /\ forall t', In t' ts -> (rank t' <= rank t)%nat
    end.

(** The property kept by every insert: each list of the two indices is
    the log filtered by name and scene. *)
Definition indices_mirror_log (P : Presences) : Prop :=
  forall nm sid,
    ns_list P nm sid = filter (named_in nm sid) (presences P)
    /\ sn_list P sid nm = filter (named_in nm sid) (presences P).

(** The last element of a list, if any. *)
Fixpoint last_of {A} (l : list A) : option A :=
  match l with
  | [] => None
  | [x] => Some x
  | _ :: rest => last_of rest
  end.

(** A text line holds no newline. *)
Definition no_newline (seg : string) : Prop :=
  Regex.exists_char (Chars.is_char Chars.LF) seg = false.

#[global] Instance by_snd_total {A} : Total (@by_snd A).
Proof. intros x y. unfold by_snd. lia. Qed.

(** The blocks follow each other from line [start] on: each begins where
    the one before ended and holds at least one line. *)
Fixpoint chained_from (start : Z) (bs : list block) : Prop :=
  match bs with
  | [] => True
  | b :: rest =>
      first_line b = start /\ first_line b <= last_line b
      /\ chained_from (last_line b + 1) rest
  end.

(** The last line of blocks that follow each other from [start] on. *)
Fixpoint chain_end (start : Z) (bs : list block) : Z :=
  match bs with
  | [] => start - 1
  | b :: rest => chain_end (last_line b + 1) rest
  end.

(** A scene as the segmenter leaves it under the key [k]: it bears the
    number [k], begins with its heading block, and its blocks follow each
    other from its first line to its last line. *)
Definition scene_segmented (k : Z) (sc : scene) : Prop :=
  scene_number sc = k
  /\ heading_line sc = scene_first_line sc
  /\ chained_from (scene_first_line sc) (scene_blocks sc)
  /\ scene_last_line sc
     = Some (chain_end (scene_first_line sc) (scene_blocks sc))
  /\ exists b rest, scene_blocks sc = b :: rest
                    /\ block_type b = SCENE_HEADING.

(** What the word-count pass keeps of a block. *)
Definition block_lines (b : block) : ptype * Z * Z :=
  (block_type b, first_line b, last_line b).

(** The state of the segmenter after [m] lines numbered from 1. *)
Definition segmenting (m : Z) (st : pstate) : Prop :=
  let cs := current_scene st in
  0 <= scene_number cs
  /\ (forall k, is_Some (st_scenes st !! k) <-> 0 <= k < scene_number cs)
  /\ (forall k sc, st_scenes st !! k = Some sc -> 1 <= k ->
                   scene_segmented k sc)
  /\ (fst (prior_types st) <> FRONT ->
      st_line_no st = Some m
      /\ block_type (current_block st) = fst (prior_types st))
  /\ (fst (prior_types st) = FRONT -> scene_number cs = 0)
  /\ (1 <= scene_number cs ->
      heading_line cs = scene_first_line cs
      /\ chained_from (scene_first_line cs)
           (scene_blocks cs ++ [current_block st])
      /\ chain_end (scene_first_line cs)
           (scene_blocks cs ++ [current_block st]) = m
      /\ exists b rest,
           scene_blocks cs ++ [current_block st] = b :: rest
           /\ block_type b = SCENE_HEADING)
  /\ (forall k sc sc',
        1 <= k -> st_scenes st !! k = Some sc ->
        st_scenes st !! (k + 1) = Some sc' ->
        scene_last_line sc = Some (scene_first_line sc' - 1))
  /\ (forall sc,
        2 <= scene_number cs ->
        st_scenes st !! (scene_number cs - 1) = Some sc ->
        scene_last_line sc = Some (scene_first_line cs - 1)).

(** Two worlds whose registries hold the same names with the same types. *)
Definition same_types (w w' : world) : Prop :=
  forall nm,
    authoritative_type (w_presences w') nm
    = authoritative_type (w_presences w) nm.

(** A text with its upper-case letters lowered, as [re.I] compares. *)
Fixpoint lower (s : string) : string :=
  match s with
  | EmptyString => EmptyString
  | String c s' => String (Chars.to_lower c) (lower s')
  end.

(** [text[o : o + len(nm)]] for an offset [o >= 0]. *)
Definition text_at (text : string) (o : Z) (nm : string) : string :=
  substring (Z.to_nat o) (String.length nm) text.

(** A text holds a parenthetical: an opening parenthesis with a closing
    one somewhere after it. *)
Fixpoint has_parenthetical (s : string) : bool :=
  match s with
  | EmptyString => false
  | String c s' =>
      (Chars.is_char "(" c && Regex.exists_char (Chars.is_char ")") s')
      || has_parenthetical s'
  end.

(** A text neither begins nor ends with whitespace. *)
Definition trimmed (s : string) : Prop :=
  match Text.head s with
  | Some c => Chars.is_space c = false
  | None => True
  end
  /\ match Text.last_char s with
     | Some c => Chars.is_space c = false
     | None => True
     end.

(** * Properties *)

(** ** The derivative matcher agrees with the language of the expression *)

Module RegexFacts.
Import Chars Regex.

Lemma app_empty_inv (s t : string) :
  s +:+ t = EmptyString -> s = EmptyString /\ t = EmptyString.
Proof. destruct s; simpl; intros H; [auto | discriminate]. Qed.

Lemma app_empty_r (s : string) : s +:+ EmptyString = s.
Proof. induction s; simpl; congruence. Qed.

Lemma nullable_lang (r : regex) : nullable r = true <-> lang r EmptyString.
Proof.
  split.
  - induction r; simpl; intros H; try discriminate.
    + constructor.
    + apply andb_true_iff in H as [Ha Hb].
      change EmptyString with (EmptyString +:+ EmptyString).
      constructor; auto.
    + apply orb_true_iff in H as [Ha | Hb];
        [apply L_alt_l | apply L_alt_r]; auto.
    + constructor.
  - intros H. remember EmptyString as w eqn:Hw.
    induction H; simpl; subst; try discriminate; auto.
    + apply app_empty_inv in Hw as [-> ->].
      rewrite IHlang1, IHlang2; auto.
    + rewrite IHlang; auto.
    + rewrite IHlang; auto using orb_true_r.
Qed.

Lemma deriv_sound (c : ascii) (r : regex) :
  forall s, lang (deriv c r) s -> lang r (String c s).
Proof.
  induction r; simpl; intros s H.
  - inversion H.
  - inversion H.
  - destruct (b c) eqn:Hc; inversion H; subst. constructor; auto.
  - destruct (nullable r1) eqn:Hn.
    + inversion H; subst.
      * match goal with Hs : lang (Seq _ _) _ |- _ => inversion Hs; subst end.
        change (String c (s0 +:+ t)) with (String c s0 +:+ t).
        constructor; auto.
      * change (String c s) with (EmptyString +:+ String c s).
        constructor; auto. apply nullable_lang; auto.
    + inversion H; subst.
      change (String c (s0 +:+ t)) with (String c s0 +:+ t).
      constructor; auto.
  - inversion H; subst; [apply L_alt_l | apply L_alt_r]; auto.
  - inversion H; subst.
    change (String c (s0 +:+ t)) with (String c s0 +:+ t).
    constructor; auto.
Qed.

Lemma deriv_complete (r : regex) (w : string) :
  lang r w -> forall c s, w = String c s -> lang (deriv c r) s.
Proof.
  induction 1; intros c0 s0 Hw; simpl; try discriminate.
  - injection Hw as -> <-. rewrite H. constructor.
  - destruct s as [|c1 s1]; simpl in Hw.
    + subst t. assert (Hn : nullable a = true) by (apply nullable_lang; auto).
      rewrite Hn. apply L_alt_r. eauto.
    + injection Hw as -> <-.
      assert (Hs : lang (Seq (deriv c0 a) b) (s1 +:+ t))
        by (constructor; eauto).
      destruct (nullable a); [apply L_alt_l |]; auto.
  - apply L_alt_l; eauto.
  - apply L_alt_r; eauto.
  - simpl in Hw. injection Hw as -> <-. constructor; eauto.
Qed.

Lemma matches_lang (s : string) :
  forall r, matches r s = true <-> lang r s.
Proof.
  induction s as [|c s IH]; intros r; simpl.
  - apply nullable_lang.
  - rewrite IH. split; [apply deriv_sound |].
    intros H. eapply deriv_complete; eauto.
Qed.

Lemma exists_char_app (q : ascii -> bool) (s t : string) :
  exists_char q (s +:+ t) = exists_char q s || exists_char q t.
Proof. induction s; simpl; [auto | rewrite IHs, orb_assoc; auto]. Qed.

Lemma forall_chars_app (q : ascii -> bool) (s t : string) :
  forall_chars q (s +:+ t) = forall_chars q s && forall_chars q t.
Proof. induction s; simpl; [auto | rewrite IHs, andb_assoc; auto]. Qed.

Lemma chop_newline_spec (s s' : string) :
  chop_newline s = Some s' -> s = s' +:+ String LF EmptyString.
Proof.
  revert s'. induction s as [|c s IH]; simpl; intros s' H; [discriminate |].
  destruct s as [|c1 s1].
  - destruct (is_char LF c) eqn:Hc; [|discriminate].
    injection H as <-. apply Ascii.eqb_eq in Hc. subst c. reflexivity.
  - destruct (chop_newline (String c1 s1)) as [u|] eqn:Hu; [|discriminate].
    injection H as <-. simpl. f_equal. apply IH. reflexivity.
Qed.

(** A word of [Star (Cls p)] is a run of characters of [p]. *)
Lemma lang_star_cls (p : ascii -> bool) (s : string) :
  lang (Star (Cls p)) s <-> forall_chars p s = true.
Proof.
  split.
  - intros H. remember (Star (Cls p)) as r eqn:Hr.
    induction H; try discriminate; auto.
    injection Hr as ->. inversion H; subst. simpl.
    rewrite IHlang2 by reflexivity.
    match goal with Hp : p _ = true |- _ => rewrite Hp end. reflexivity.
  - induction s as [|c s IH]; simpl; intros H; [constructor |].
    apply andb_true_iff in H as [Hc Hs].
    change (String c s) with (String c EmptyString +:+ s).
    constructor; auto. constructor; auto.
Qed.

(** Every word of [Seq (Cls p) r] starts with a character of [p]. *)
Lemma lang_cls_head (p : ascii -> bool) (r : regex) (s : string) :
  lang (Seq (Cls p) r) s -> exists c t, s = String c t /\ p c = true.
Proof.
  intros H. inversion H; subst.
  match goal with Hc : lang (Cls _) _ |- _ => inversion Hc; subst end.
  simpl. eauto.
Qed.

Lemma lang_plus_head (p : ascii -> bool) (r : regex) (s : string) :
  lang (Seq (Plus (Cls p)) r) s -> exists c t, s = String c t /\ p c = true.
Proof.
  intros H. inversion H; subst.
  match goal with Hc : lang (Plus _) _ |- _ =>
    apply lang_cls_head in Hc as (c & t' & -> & Hp) end.
  simpl. eauto.
Qed.

(** A character that every word of a part holds is in every word of the
    sequence. *)
Lemma lang_seq_exists_l (q : ascii -> bool) (a b : regex) (s : string) :
  (forall u, lang a u -> exists_char q u = true) ->
  lang (Seq a b) s -> exists_char q s = true.
Proof.
  intros Ha H. inversion H; subst.
  rewrite exists_char_app, Ha; auto.
Qed.

Lemma lang_seq_exists_r (q : ascii -> bool) (a b : regex) (s : string) :
  (forall u, lang b u -> exists_char q u = true) ->
  lang (Seq a b) s -> exists_char q s = true.
Proof.
  intros Hb H. inversion H; subst.
  match goal with Ht : lang b ?t |- _ =>
    rewrite exists_char_app, (Hb t Ht) end.
  apply orb_true_r.
Qed.

Lemma lang_cls_exists (p q : ascii -> bool) (s : string) :
  (forall c, p c = true -> q c = true) ->
  lang (Cls p) s -> exists_char q s = true.
Proof.
  intros Hpq H. inversion H; subst. simpl. rewrite Hpq; auto.
Qed.

(** What an anchored search finds holds a character that every word of
    the expression holds. *)
Lemma search_anchored_exists (q : ascii -> bool) (r : regex) (s : string) :
  (forall u, lang r u -> exists_char q u = true) ->
  search_anchored r s = true -> exists_char q s = true.
Proof.
  intros Hr H. unfold search_anchored in H.
  apply orb_true_iff in H as [H | H].
  - apply Hr, matches_lang, H.
  - destruct (chop_newline s) as [s'|] eqn:Hs; [|discriminate].
    apply chop_newline_spec in Hs. subst s.
    rewrite exists_char_app, Hr; [reflexivity | apply matches_lang, H].
Qed.

(** What an anchored search finds starts as every word of the expression
    does. *)
Lemma search_anchored_head (p : ascii -> bool) (r : regex) (s : string) :
  (forall u, lang r u -> exists c t, u = String c t /\ p c = true) ->
  search_anchored r s = true -> exists c t, s = String c t /\ p c = true.
Proof.
  intros Hr H. unfold search_anchored in H.
  apply orb_true_iff in H as [H | H].
  - apply Hr, matches_lang, H.
  - destruct (chop_newline s) as [s'|] eqn:Hs; [|discriminate].
    apply chop_newline_spec in Hs. subst s.
    apply matches_lang, Hr in H as (c & t & -> & Hp). simpl. eauto.
Qed.

Lemma forall_exists_false (p q : ascii -> bool) (s : string) :
  (forall c, p c = true -> q c = false) ->
  forall_chars p s = true -> exists_char q s = false.
Proof.
  intros Hpq. induction s as [|c s IH]; simpl; intros H; [reflexivity |].
  apply andb_true_iff in H as [Hc Hs]. rewrite Hpq, IH; auto.
Qed.

End RegexFacts.

(** ** The line classifier *)

Module ClassifierFacts.
Import Chars Regex RegexFacts.

Lemma space_not_open_paren : forall c, is_space c = true -> is_char "(" c = false.
Proof. by_enumeration. Qed.

Lemma space_not_digit : forall c, is_space c = true -> is_digit c = false.
Proof. by_enumeration. Qed.

Lemma space_not_colon : forall c, is_space c = true -> is_char ":" c = false.
Proof. by_enumeration. Qed.

Lemma empty_line_all_space (line : string) :
  is_empty_line line = true -> forall_chars is_space line = true.
Proof.
  unfold is_empty_line, search_anchored, space. intros H.
  apply orb_true_iff in H as [H | H].
  - apply lang_star_cls, matches_lang, H.
  - destruct (chop_newline line) as [s'|] eqn:Hs; [|discriminate].
    apply chop_newline_spec in Hs. subst line.
    rewrite forall_chars_app. apply matches_lang, lang_star_cls in H.
    rewrite H. reflexivity.
Qed.

Lemma direction_starts_with_space (line : string) :
  is_direction line = true ->
  exists c t, line = String c t /\ is_space c = true.
Proof.
  apply search_anchored_head. intros u Hu. eapply lang_plus_head, Hu.
Qed.

Lemma direction_has_colon (line : string) :
  is_direction line = true -> exists_char (is_char ":") line = true.
Proof.
  apply search_anchored_exists. intros u Hu.
  eapply lang_seq_exists_r; [|exact Hu]. intros v Hv.
  eapply lang_seq_exists_r; [|exact Hv]. intros x Hx.
  eapply lang_cls_exists; [|exact Hx]. auto.
Qed.

Lemma scene_header_starts_without_space (line : string) :
  search_anchored scene_header_re line = true ->
  exists c t, line = String c t /\ is_space c = false.
Proof.
  intros H.
  apply (search_anchored_head (fun c => negb (is_space c || is_lower c)))
    in H as (c & t & -> & Hc).
  - exists c, t. split; [reflexivity |].
    apply negb_true_iff, orb_false_iff in Hc as [Hc _]. exact Hc.
  - intros u Hu. eapply lang_cls_head, Hu.
Qed.

Lemma space_first_not_scene_header (mode : parse_mode) (c : ascii)
    (t : string) :
  is_space c = true -> is_scene_header mode (String c t) = false.
Proof.
  intros Hc.
  assert (Hs : search_anchored scene_header_re (String c t) = false).
  { destruct (search_anchored scene_header_re (String c t)) eqn:Hs;
      [|reflexivity].
    apply scene_header_starts_without_space in Hs as (c' & t' & Heq & Hc').
    injection Heq as <- <-. congruence. }
  unfold is_scene_header. rewrite Hs. destruct mode; reflexivity.
Qed.

Lemma direction_not_scene_header (mode : parse_mode) (line : string) :
  is_direction line = true -> is_scene_header mode line = false.
Proof.
  intros H. apply direction_starts_with_space in H as (c & t & -> & Hc).
  apply space_first_not_scene_header, Hc.
Qed.

Lemma direction_not_empty (line : string) :
  is_direction line = true -> is_empty_line line = false.
Proof.
  intros H. apply direction_has_colon in H.
  destruct (is_empty_line line) eqn:He; [|reflexivity].
  apply empty_line_all_space in He.
  rewrite (forall_exists_false is_space (is_char ":")) in H;
    auto using space_not_colon.
Qed.

Lemma empty_not_scene_header (mode : parse_mode) (line : string) :
  is_empty_line line = true -> is_scene_header mode line = false.
Proof.
  intros H. apply empty_line_all_space in H.
  destruct line as [|c t].
  - destruct mode; reflexivity.
  - simpl in H. apply andb_true_iff in H as [Hc _].
    apply space_first_not_scene_header, Hc.
Qed.

Lemma empty_not_start_continue (line : string) :
  is_empty_line line = true -> is_start_continue line = false.
Proof.
  intros H. apply empty_line_all_space in H.
  destruct (is_start_continue line) eqn:Hs; [|reflexivity].
  apply (search_anchored_exists (is_char "(")) in Hs.
  - rewrite (forall_exists_false is_space (is_char "(")) in Hs;
      auto using space_not_open_paren.
  - intros u Hu.
    eapply lang_seq_exists_r; [|exact Hu]. intros v Hv.
    eapply lang_seq_exists_l; [|exact Hv]. intros x Hx.
    eapply lang_cls_exists; [|exact Hx]. auto.
Qed.

Lemma empty_not_page_num (line : string) :
  is_empty_line line = true -> is_page_num line = false.
Proof.
  intros H. apply empty_line_all_space in H.
  destruct (is_page_num line) eqn:Hs; [|reflexivity].
  apply (search_anchored_exists is_digit) in Hs.
  - rewrite (forall_exists_false is_space is_digit) in Hs;
      auto using space_not_digit.
  - intros u Hu.
    eapply lang_seq_exists_r; [|exact Hu]. intros v Hv.
    eapply lang_seq_exists_l; [|exact Hv]. intros x Hx.
    eapply lang_seq_exists_l; [|exact Hx]. intros y Hy.
    eapply lang_cls_exists; [|exact Hy]. auto.
Qed.

(** The lookahead test [next_line and is_dialog_header( next_line )]. *)
Lemma lookahead_header (next_line : option string) :
  Py.and_then next_line is_dialog_header = true <->
  exists n, next_line = Some n /\ is_dialog_header n = true.
Proof.
  destruct next_line as [n|]; simpl; split.
  - intros H. apply andb_true_iff in H as [_ H]. eauto.
  - intros (n' & [= <-] & H). rewrite H.
    destruct n; [discriminate | reflexivity].
  - discriminate.
  - intros (n' & [=] & _).
Qed.

End ClassifierFacts.

Section ClassifierClaims.
Import ClassifierFacts.

(** C9.  A whitespace-only line, when the prior block type is not [FRONT]
    and the prior line type is not [CONTINUED] (a whitespace-only line is
    never a continuation marker or a page number): after
    [(DIALOG, DIALOG_HEADER)] the classifier returns the error
    classification [(ERROR, EMPTY)] and prints a diagnostic; after
    [(DIALOG, DIALOG)] with a lookahead line of dialog-header shape, or
    after [(DIALOG, RESUMED)], it returns [(DIALOG, EMPTY)]; in every
    other case it returns [(EMPTY, EMPTY)]. *)
Theorem empty_line_classification (mode : parse_mode) (line : string)
    (next_line : option string) (prior : types) :
  is_empty_line line = true ->
  fst prior <> FRONT ->
  snd prior <> CONTINUED ->
  let header_next :=
    exists n, next_line = Some n /\ is_dialog_header n = true in
  (prior = (DIALOG, DIALOG_HEADER) ->
   get_types mode line next_line prior
   = ((ERROR, EMPTY), [[PS "EMPTY LINE CAN'T FOLLOW A DIALOG HEADER!"]]))
  /\ ((prior = (DIALOG, DIALOG) /\ header_next) \/ prior = (DIALOG, RESUMED) ->
      get_types mode line next_line prior = ((DIALOG, EMPTY), []))
  /\ (prior <> (DIALOG, DIALOG_HEADER) ->
      ~ ((prior = (DIALOG, DIALOG) /\ header_next)
         \/ prior = (DIALOG, RESUMED)) ->
      get_types mode line next_line prior = ((EMPTY, EMPTY), [])).
Proof.
  intros Hempty Hfront Hcont header_next. subst header_next.
  rewrite <- lookahead_header.
  unfold get_types.
  rewrite (empty_not_scene_header mode line Hempty),
    (empty_not_start_continue line Hempty),
    (empty_not_page_num line Hempty), Hempty.
  rewrite (bool_decide_eq_false_2 _ Hfront),
    (bool_decide_eq_false_2 _ Hcont).
  destruct prior as [pb pl]. simpl in *.
  destruct (Py.and_then next_line is_dialog_header);
    destruct pb, pl; simpl;
    repeat split; intros; try reflexivity; try congruence;
    try (exfalso; intuition congruence).
Qed.

Lemma empty_line_classification_witness :
  is_empty_line "   " = true
  /\ fst (DIALOG, DIALOG) <> FRONT
  /\ snd (DIALOG, DIALOG) <> CONTINUED
  /\ get_types STRICT "   " (Some "     JOHN") (DIALOG, DIALOG)
     = ((DIALOG, EMPTY), []).
Proof.
  assert (He : is_empty_line "   " = true) by reflexivity.
  assert (Hf : fst (DIALOG, DIALOG) <> FRONT) by discriminate.
  assert (Hc : snd (DIALOG, DIALOG) <> CONTINUED) by discriminate.
  split; [exact He | split; [exact Hf | split; [exact Hc |]]].
  apply (empty_line_classification STRICT "   " (Some "     JOHN")
           (DIALOG, DIALOG) He Hf Hc).
  left. split; [reflexivity |]. exists "     JOHN". split; reflexivity.
Defined.

(** C4, as the code has it.  A line of direction shape met while the prior
    classification is [(FRONT, FRONT)] is front matter: the classifier
    returns [(FRONT, FRONT)] without a diagnostic, and the segmenter only
    extends the front span, so the next line is again evaluated against
    the prior [(FRONT, FRONT)] context. *)
Theorem direction_in_front_is_front (mode : parse_mode) (l : line)
    (next_line : option string) :
  is_direction (content l) = true ->
  get_types mode (content l) next_line (FRONT, FRONT) = ((FRONT, FRONT), [])
  /\ parse_line mode l next_line initial_pstate
     = {| st_front := (1, line_no l);
          st_scenes := st_scenes initial_pstate;
          current_scene := current_scene initial_pstate;
          current_block := current_block initial_pstate;
          prior_types := (FRONT, FRONT);
          st_line_no := Some (line_no l);
          st_out := [] |}.
Proof.
  intros H.
  assert (Hg : get_types mode (content l) next_line (FRONT, FRONT)
               = ((FRONT, FRONT), [])).
  { unfold get_types.
    rewrite (direction_not_scene_header mode _ H), (direction_not_empty _ H).
    reflexivity. }
  split; [exact Hg |].
  unfold parse_line. simpl prior_types. rewrite Hg. reflexivity.
Qed.

Lemma direction_in_front_is_front_witness :
  is_direction "          FADE IN:" = true
  /\ get_types STRICT "          FADE IN:" (Some "") (FRONT, FRONT)
     = ((FRONT, FRONT), []).
Proof.
  assert (H : is_direction "          FADE IN:" = true) by reflexivity.
  split; [exact H |].
  apply (direction_in_front_is_front STRICT
           {| line_no := 1; page_no := 1; content := "          FADE IN:" |}
           (Some "") H).
Defined.

(** C4 as stated fails: a first line of direction shape is not classified
    [ERROR]. *)
Lemma direction_first_line_not_error :
  is_direction "          FADE IN:" = true
  /\ fst (fst (get_types STRICT "          FADE IN:" None (FRONT, FRONT)))
     <> ERROR
  /\ fst (fst (get_types FUZZY "          FADE IN:" None (FRONT, FRONT)))
     <> ERROR.
Proof. repeat split; vm_compute; discriminate. Qed.

End ClassifierClaims.

(** ** The noun registry *)

Module RegistryFacts.

Lemma update_noun_type_table (old_type new_type : ntype) :
  fst (update_noun_type old_type new_type)
  = match old_type, new_type with
    | THING, LOCATION | THING, CHARACTER | LOCATION, CHARACTER => new_type
    | _, _ => old_type
    end.
Proof. destruct old_type, new_type; reflexivity. Qed.

(** The authoritative type after [update_presence]: only the name of the
    presence is touched, and its type goes through [update_noun_type]. *)
Lemma authoritative_type_update (P : Presences) (p : presence)
    (nm : string) :
  authoritative_type (fst (update_presence P p)) nm
  = if decide (nm = name p) then
      Some (fst (update_noun_type
                   (default (noun_type p) (authoritative_type P nm))
                   (noun_type p)))
    else authoritative_type P nm.
Proof.
  unfold authoritative_type, update_presence.
  destruct (update_noun_type _ (noun_type p)) as [t printed] eqn:Hu.
  simpl. destruct (decide (nm = name p)) as [-> | Hne].
  - rewrite lookup_insert_eq. simpl. f_equal.
    destruct (presence_ns P !! name p) as [e|] eqn:He; simpl in *.
    + destruct (entry_scenes e !! scene_id (where_ p)); simpl in Hu;
        rewrite Hu; reflexivity.
    + rewrite Hu. reflexivity.
  - rewrite lookup_insert_ne by congruence. reflexivity.
Qed.

Lemma update_presence_printed (P : Presences) (p : presence) :
  snd (update_presence P p)
  = snd (update_noun_type
           (default (noun_type p) (authoritative_type P (name p)))
           (noun_type p)).
Proof.
  unfold authoritative_type, update_presence.
  destruct (update_noun_type _ (noun_type p)) as [t printed] eqn:Hu.
  simpl.
  destruct (presence_ns P !! name p) as [e|] eqn:He; simpl in *.
  - destruct (entry_scenes e !! scene_id (where_ p)); simpl in Hu;
      rewrite Hu; reflexivity.
  - rewrite Hu. reflexivity.
Qed.

Lemma character_stays (P : Presences) (p : presence) (nm : string) :
  authoritative_type P nm = Some CHARACTER ->
  authoritative_type (fst (update_presence P p)) nm = Some CHARACTER.
Proof.
  intros H. rewrite authoritative_type_update, H.
  destruct (decide (nm = name p)); [|reflexivity].
  simpl. rewrite update_noun_type_table. reflexivity.
Qed.

Lemma character_stays_all (ps : list presence) :
  forall (P : Presences) (nm : string),
    authoritative_type P nm = Some CHARACTER ->
    authoritative_type (update_presences P ps) nm = Some CHARACTER.
Proof.
  induction ps as [|p ps IH]; intros P nm H; simpl; [exact H |].
  apply IH, character_stays, H.
Qed.

Lemma update_presence_log (P : Presences) (p : presence) :
  presences (fst (update_presence P p)) = presences P ++ [p].
Proof.
  unfold update_presence.
  destruct (update_noun_type _ (noun_type p)). reflexivity.
Qed.

Lemma in_presence_ns_list (P : Presences) (nm : string) (sid : Z)
    (q : presence) :
  in_presence_ns P nm sid q <-> q ∈ ns_list P nm sid.
Proof.
  unfold in_presence_ns, ns_list. split.
  - intros (e & ps & -> & Hl & Hin). simpl. rewrite Hl. exact Hin.
  - destruct (presence_ns P !! nm) as [e|]; simpl; [|intros H; inversion H].
    destruct (entry_scenes e !! sid) as [ps|] eqn:Hl; simpl;
      [|intros H; inversion H].
    eauto.
Qed.

Lemma in_presence_sn_list (P : Presences) (sid : Z) (nm : string)
    (q : presence) :
  in_presence_sn P sid nm q <-> q ∈ sn_list P sid nm.
Proof.
  unfold in_presence_sn, sn_list. split.
  - intros (m & ps & -> & Hl & Hin). simpl. rewrite Hl. exact Hin.
  - destruct (presence_sn P !! sid) as [m|]; simpl; [|intros H; inversion H].
    destruct (m !! nm) as [ps|] eqn:Hl; simpl; [|intros H; inversion H].
    eauto.
Qed.

(** The name-keyed index after [update_presence]: the presence is
    appended to the list of its name and scene, and no other list
    changes. *)
Lemma ns_list_update (P : Presences) (p : presence) (nm : string)
    (sid : Z) :
  ns_list (fst (update_presence P p)) nm sid
  = if decide (nm = name p /\ sid = scene_id (where_ p))
    then ns_list P nm sid ++ [p] else ns_list P nm sid.
Proof.
  unfold ns_list, update_presence.
  destruct (update_noun_type _ (noun_type p)) as [t printed]. simpl.
  destruct (presence_ns P !! name p) as [e|] eqn:He;
    [destruct (entry_scenes e !! scene_id (where_ p)) as [ps0|] eqn:Hs |];
    case_decide as Hd;
    [destruct Hd as [-> ->] | | destruct Hd as [-> ->] |
     | destruct Hd as [-> ->] | ];
    simplify_map_eq; try done.
  all: destruct (decide (nm = name p)) as [-> | Hne];
    simplify_map_eq; try done.
  all: destruct (decide (sid = scene_id (where_ p))) as [-> | Hne];
    simplify_map_eq; done.
Qed.

(** The scene-keyed index after [update_presence]. *)
Lemma sn_list_update (P : Presences) (p : presence) (sid : Z)
    (nm : string) :
  sn_list (fst (update_presence P p)) sid nm
  = if decide (nm = name p /\ sid = scene_id (where_ p))
    then sn_list P sid nm ++ [p] else sn_list P sid nm.
Proof.
  unfold sn_list, update_presence.
  destruct (update_noun_type _ (noun_type p)) as [t printed]. simpl.
  destruct (presence_sn P !! scene_id (where_ p)) as [m|] eqn:Hm;
    [destruct (m !! name p) as [ps0|] eqn:Hs |];
    case_decide as Hd;
    [destruct Hd as [-> ->] | | destruct Hd as [-> ->] |
     | destruct Hd as [-> ->] | ];
    simplify_map_eq; try done.
  all: destruct (decide (sid = scene_id (where_ p))) as [-> | Hne];
    simplify_map_eq; try done.
  all: destruct (decide (nm = name p)) as [-> | Hne];
    simplify_map_eq; done.
Qed.

Lemma update_presence_consistent (P : Presences) (p : presence) :
  Presences_consistent P ->
  Presences_consistent (fst (update_presence P p)).
Proof.
  intros HP q Hq. rewrite update_presence_log in Hq.
  unfold presence_reachable.
  rewrite in_presence_ns_list, in_presence_sn_list,
    ns_list_update, sn_list_update.
  apply elem_of_app in Hq as [Hq | Hq].
  - destruct (HP q Hq) as [Hn Hs].
    apply in_presence_ns_list in Hn. apply in_presence_sn_list in Hs.
    case_decide; rewrite ?elem_of_app; auto.
  - apply list_elem_of_singleton in Hq. subst q.
    rewrite !decide_True by auto.
    rewrite !elem_of_app, !list_elem_of_singleton. auto.
Qed.

Lemma update_presences_log (ps : list presence) :
  forall P, presences (update_presences P ps) = presences P ++ ps.
Proof.
  induction ps as [|p ps IH]; intros P; simpl.
  - rewrite app_nil_r. reflexivity.
  - rewrite IH, update_presence_log, <- app_assoc. reflexivity.
Qed.

Lemma update_presences_consistent (ps : list presence) :
  forall P, Presences_consistent P ->
            Presences_consistent (update_presences P ps).
Proof.
  induction ps as [|p ps IH]; intros P HP; simpl; [exact HP |].
  apply IH, update_presence_consistent, HP.
Qed.

End RegistryFacts.

(** ** The interaction graph *)

Module GraphFacts.

Section Helper.
Context `{Countable K1, Countable K2, Countable K3}.
Implicit Types d : gmap K1 (gmap K2 (gmap K3 (list interaction))).

Lemma in_index_list d (k1 : K1) (k2 : K2) (k3 : K3) (i : interaction) :
  in_index d k1 k2 k3 i <-> i ∈ index_list d k1 k2 k3.
Proof.
  unfold in_index, index_list. split.
  - intros (d1 & d2 & l & -> & -> & -> & Hin). exact Hin.
  - destruct (d !! k1) as [d1|]; [|intros Hi; inversion Hi].
    destruct (d1 !! k2) as [d2|] eqn:E1; [|intros Hi; inversion Hi].
    destruct (d2 !! k3) as [l|] eqn:E2; simpl; [|intros Hi; inversion Hi].
    eauto 8.
Qed.

(** With its three keys at hand the helper does not raise: it appends the
    interaction to the list at the keys and changes no other list. *)
Lemma helper_lists d (k1 : K1) (k2 : K2) (k3 : K3) (i : interaction) :
  exists d',
    _update_interaction_helper d (Ok k1) (Ok k2) (Ok k3) i = Ok d'
    /\ forall j1 j2 j3,
         index_list d' j1 j2 j3
         = if decide (j1 = k1 /\ j2 = k2 /\ j3 = k3)
           then index_list d j1 j2 j3 ++ [i] else index_list d j1 j2 j3.
Proof.
  eexists. split; [reflexivity |].
  intros j1 j2 j3. unfold index_list.
  destruct (d !! k1) as [d1|] eqn:E1;
    [destruct (d1 !! k2) as [d2|] eqn:E2;
       [destruct (d2 !! k3) as [l|] eqn:E3 | ] | ];
    case_decide as Hd; try (destruct Hd as (-> & -> & ->));
    simplify_map_eq; try done.
  all: destruct (decide (j1 = k1)) as [-> | N1]; simplify_map_eq; try done.
  all: destruct (decide (j2 = k2)) as [-> | N2]; simplify_map_eq; try done.
  all: destruct (decide (j3 = k3)) as [-> | N3]; simplify_map_eq; try done.
  all: exfalso; auto.
Qed.

Lemma helper_keeps d d' (k1 : K1) (k2 : K2) (k3 : K3) (i x : interaction)
    (j1 : K1) (j2 : K2) (j3 : K3) :
  _update_interaction_helper d (Ok k1) (Ok k2) (Ok k3) i = Ok d' ->
  x ∈ index_list d j1 j2 j3 -> x ∈ index_list d' j1 j2 j3.
Proof.
  intros Hd Hx. destruct (helper_lists d k1 k2 k3 i) as (d'' & Hd'' & Hl).
  rewrite Hd in Hd''. injection Hd'' as <-. rewrite Hl.
  case_decide; [apply elem_of_app; left |]; exact Hx.
Qed.

Lemma helper_adds d d' (k1 : K1) (k2 : K2) (k3 : K3) (i : interaction) :
  _update_interaction_helper d (Ok k1) (Ok k2) (Ok k3) i = Ok d' ->
  i ∈ index_list d' k1 k2 k3.
Proof.
  intros Hd. destruct (helper_lists d k1 k2 k3 i) as (d'' & Hd'' & Hl).
  rewrite Hd in Hd''. injection Hd'' as <-. rewrite Hl.
  rewrite decide_True by auto.
  apply elem_of_app. right. apply list_elem_of_singleton. reflexivity.
Qed.

End Helper.

(** [update_interaction] between two presences does not raise; the
    interaction is appended to the log and to the lists of the four index
    paths, and every list keeps what it held. *)
Lemma update_interaction_spec (G : Interactions) (a b : presence)
    (w : where_t) (it : itype) :
  let i := get_interaction (Some a) b w it in
  exists G',
    update_interaction G (Some a) b w it = (Ok tt, G')
    /\ interactions G' = interactions G ++ [i]
    /\ (forall x j1 j2 j3,
          x ∈ index_list (interaction_ns G) j1 j2 j3 ->
          x ∈ index_list (interaction_ns G') j1 j2 j3)
    /\ (forall x j1 j2 j3,
          x ∈ index_list (interaction_sn G) j1 j2 j3 ->
          x ∈ index_list (interaction_sn G') j1 j2 j3)
    /\ i ∈ index_list (interaction_ns G') (name a) (name b) (scene_id w)
    /\ i ∈ index_list (interaction_ns G') (name b) (name a) (scene_id w)
    /\ i ∈ index_list (interaction_sn G') (scene_id w) (name a) (name b)
    /\ i ∈ index_list (interaction_sn G') (scene_id w) (name b) (name a).
Proof.
  intros i. unfold update_interaction. fold i. simpl name_of.
  destruct (helper_lists (interaction_ns G) (name a) (name b) (scene_id w) i)
    as (ns1 & E1 & L1).
  rewrite E1.
  destruct (helper_lists ns1 (name b) (name a) (scene_id w) i)
    as (ns2 & E2 & L2).
  rewrite E2.
  destruct (helper_lists (interaction_sn G) (scene_id w) (name a) (name b) i)
    as (sn1 & E3 & L3).
  rewrite E3.
  destruct (helper_lists sn1 (scene_id w) (name b) (name a) i)
    as (sn2 & E4 & L4).
  rewrite E4.
  eexists. split; [reflexivity |]. simpl.
  split; [reflexivity |].
  repeat split.
  - intros x j1 j2 j3 Hx. eapply helper_keeps, helper_keeps; eauto.
  - intros x j1 j2 j3 Hx. eapply helper_keeps, helper_keeps; eauto.
  - eapply helper_keeps, helper_adds; eauto.
  - eapply helper_adds; eauto.
  - eapply helper_keeps, helper_adds; eauto.
  - eapply helper_adds; eauto.
Qed.

End GraphFacts.

Section RegistryClaims.
Import RegistryFacts GraphFacts.

(** C5.  Noun type promotion is monotonic.  [update_noun_type] returns the
    new type only for THING to LOCATION, THING to CHARACTER and LOCATION to
    CHARACTER, and the existing type otherwise.  Once the authoritative
    type of a name is CHARACTER it stays CHARACTER under any sequence of
    [update_presence]; a presence that brings LOCATION for such a name
    leaves the authoritative type CHARACTER and prints the diagnostic. *)
Theorem noun_type_promotion_monotonic (P : Presences) (nm : string) :
  authoritative_type P nm = Some CHARACTER ->
  (forall old_type new_type,
     fst (update_noun_type old_type new_type)
     = match old_type, new_type with
       | THING, LOCATION | THING, CHARACTER | LOCATION, CHARACTER => new_type
       | _, _ => old_type
       end)
  /\ (forall ps,
        authoritative_type (update_presences P ps) nm = Some CHARACTER)
  /\ (forall p,
        name p = nm -> noun_type p = LOCATION ->
        authoritative_type (fst (update_presence P p)) nm = Some CHARACTER
        /\ snd (update_presence P p)
           = [[PS "ERROR: detected a character in a location context."]]).
Proof.
  intros H. split; [apply update_noun_type_table |].
  split; [intros ps; apply character_stays_all, H |].
  intros p Hn Hl. split; [apply character_stays, H |].
  rewrite update_presence_printed, Hn, H, Hl. reflexivity.
Qed.

Lemma noun_type_promotion_monotonic_witness :
  let john := get_presence ("JOHN", CHARACTER) DISCUSS 1 1 3 in
  let room := get_presence ("JOHN", LOCATION) SETTING 2 1 9 in
  let P := update_presences new_Presences [john] in
  authoritative_type P "JOHN" = Some CHARACTER
  /\ authoritative_type (fst (update_presence P room)) "JOHN"
     = Some CHARACTER
  /\ snd (update_presence P room)
     = [[PS "ERROR: detected a character in a location context."]].
Proof.
  intros john room P.
  assert (H : authoritative_type P "JOHN" = Some CHARACTER)
    by (vm_compute; reflexivity).
  split; [exact H |].
  exact (proj2 (proj2 (noun_type_promotion_monotonic P "JOHN" H))
           room eq_refl eq_refl).
Defined.

Lemma interaction_reachable_keeps (G G' : Interactions) (x : interaction) :
  (forall y j1 j2 j3,
     y ∈ index_list (interaction_ns G) j1 j2 j3 ->
     y ∈ index_list (interaction_ns G') j1 j2 j3) ->
  (forall y j1 j2 j3,
     y ∈ index_list (interaction_sn G) j1 j2 j3 ->
     y ∈ index_list (interaction_sn G') j1 j2 j3) ->
  interaction_reachable G x -> interaction_reachable G' x.
Proof.
  intros Hns Hsn (a & Ha & H1 & H2 & H3 & H4).
  exists a. split; [exact Ha |]. simpl in *.
  rewrite !in_index_list in *. auto.
Qed.

Lemma update_presence_reachable (P : Presences) (p : presence) :
  Presences_consistent P ->
  presence_reachable (fst (update_presence P p)) p.
Proof.
  intros HP. apply (update_presence_consistent P p HP).
  rewrite update_presence_log.
  apply elem_of_app. right. apply list_elem_of_singleton. reflexivity.
Qed.

Lemma update_interaction_consistent (G : Interactions) (a b : presence)
    (w : where_t) (it : itype) :
  Interactions_consistent G ->
  let i := get_interaction (Some a) b w it in
  exists G',
    update_interaction G (Some a) b w it = (Ok tt, G')
    /\ interactions G' = interactions G ++ [i]
    /\ interaction_reachable G' i
    /\ Interactions_consistent G'.
Proof.
  intros HG i.
  destruct (update_interaction_spec G a b w it)
    as (G' & E & Hlog & Hns & Hsn & H1 & H2 & H3 & H4).
  fold i in Hlog, H1, H2, H3, H4.
  assert (Hi : interaction_reachable G' i).
  { exists a. split; [reflexivity |]. simpl.
    rewrite !in_index_list. auto. }
  exists G'. split; [exact E |]. split; [exact Hlog |].
  split; [exact Hi |].
  intros x Hx. rewrite Hlog in Hx.
  apply elem_of_app in Hx as [Hx | Hx].
  - eapply interaction_reachable_keeps; eauto.
  - apply list_elem_of_singleton in Hx. subst x. exact Hi.
Qed.

(** C6, where the code departs from it.  From a consistent registry,
    [update_presence] appends the presence to the log, makes it reachable
    from the name-keyed and from the scene-keyed index, and keeps every
    logged presence reachable.  From a consistent graph,
    [update_interaction] appends the interaction to the log first.
    Between two presences it then returns normally, makes the interaction
    reachable by the four index paths (both participant orders in
    [interaction_ns] and in [interaction_sn] under the scene id of its
    [where]), and keeps every logged interaction reachable.  With the
    empty dictionary as first participant, as the second pass hands it
    over for a scene whose heading names a known character, it raises
    [KeyError] at the first key lookup: both indices are left as they
    were, the interaction appended is reachable by no index path, and the
    graph is no longer consistent. *)
Theorem index_consistency (P : Presences) (G : Interactions)
    (p : presence) (a : option presence) (b : presence) (w : where_t)
    (it : itype) :
  Presences_consistent P ->
  Interactions_consistent G ->
  (let P' := fst (update_presence P p) in
   presences P' = presences P ++ [p]
   /\ presence_reachable P' p
   /\ Presences_consistent P')
  /\ (let i := get_interaction a b w it in
      match a with
      | Some _ =>
          exists G',
            update_interaction G a b w it = (Ok tt, G')
            /\ interactions G' = interactions G ++ [i]
            /\ interaction_reachable G' i
            /\ Interactions_consistent G'
      | None =>
          exists G',
            update_interaction G a b w it = (Raise KeyError, G')
            /\ interactions G' = interactions G ++ [i]
            /\ interaction_ns G' = interaction_ns G
            /\ interaction_sn G' = interaction_sn G
            /\ ~ interaction_reachable G' i
            /\ ~ Interactions_consistent G'
      end).
Proof.
  intros HP HG. split.
  - split; [apply update_presence_log |].
    split; [apply update_presence_reachable, HP |].
    apply update_presence_consistent, HP.
  - destruct a as [a|]; [apply update_interaction_consistent, HG |].
    eexists. split; [reflexivity |]. simpl.
    split; [reflexivity |]. split; [reflexivity |]. split; [reflexivity |].
    assert (Hno : forall G', ~ interaction_reachable G'
                               (get_interaction None b w it)).
    { intros G' (a & Ha & _). discriminate. }
    split; [apply Hno |].
    intros Hc. apply (Hno _ (Hc (get_interaction None b w it)
      ltac:(apply elem_of_app; right; apply list_elem_of_here))).
Qed.

Lemma new_Presences_consistent : Presences_consistent new_Presences.
Proof. intros q Hq. inversion Hq. Qed.

Lemma new_Interactions_consistent : Interactions_consistent new_Interactions.
Proof. intros x Hx. inversion Hx. Qed.

Lemma index_consistency_witness :
  let kitchen := get_presence ("KITCHEN", LOCATION) SETTING 1 1 1 in
  let john := get_presence ("JOHN", CHARACTER) DISCUSS 1 1 3 in
  let unindexed := get_interaction None john (where_ john) SETTING in
  Presences_consistent new_Presences
  /\ Interactions_consistent new_Interactions
  /\ presence_reachable (fst (update_presence new_Presences john)) john
  /\ (exists G',
        update_interaction new_Interactions (Some kitchen) john
          (where_ john) SETTING = (Ok tt, G')
        /\ interaction_reachable G'
             (get_interaction (Some kitchen) john (where_ john) SETTING))
  /\ (exists G',
        update_interaction new_Interactions None john (where_ john) SETTING
        = (Raise KeyError, G')
        /\ interactions G' = [unindexed]
        /\ ~ interaction_reachable G' unindexed
        /\ ~ Interactions_consistent G').
Proof.
  intros kitchen john unindexed.
  assert (HP : Presences_consistent new_Presences)
    by (intros q Hq; inversion Hq).
  assert (HG : Interactions_consistent new_Interactions)
    by (intros x Hx; inversion Hx).
  split; [exact HP |]. split; [exact HG |].
  destruct (index_consistency new_Presences new_Interactions john
              (Some kitchen) john (where_ john) SETTING HP HG)
    as [(_ & Hr & _) (G' & E & _ & Hi & _)].
  split; [exact Hr |].
  split; [exists G'; split; [exact E | exact Hi] |].
  destruct (index_consistency new_Presences new_Interactions john
              None john (where_ john) SETTING HP HG)
    as [_ (G'' & E' & Hlog & _ & _ & Hno & Hinc)].
  exists G''. split; [exact E' |]. split; [exact Hlog |].
  split; [exact Hno | exact Hinc].
Defined.

(** Every registry and every graph built from the empty ones by inserts
    is consistent. *)
Lemma inserts_consistent (ps : list presence) (cs : list call) :
  Presences_consistent (update_presences new_Presences ps)
  /\ presences (update_presences new_Presences ps) = ps
  /\ exists G,
       update_interactions new_Interactions cs = (Ok tt, G)
       /\ interactions G = map interaction_of cs
       /\ Interactions_consistent G.
Proof.
  split; [apply update_presences_consistent, new_Presences_consistent |].
  split; [apply update_presences_log |].
  assert (Hgen : forall cs G0, Interactions_consistent G0 ->
            exists G, update_interactions G0 cs = (Ok tt, G)
                      /\ interactions G
                         = interactions G0 ++ map interaction_of cs
                      /\ Interactions_consistent G).
  { clear cs. induction cs as [|c cs IH]; intros G0 H0.
    - exists G0. simpl. rewrite app_nil_r. auto.
    - destruct (update_interaction_consistent G0 (call_a c) (call_b c)
                  (call_where c) (call_type c) H0)
        as (G1 & E & Hlog & _ & H1).
      unfold update_interactions; fold update_interactions.
      rewrite E. destruct (IH G1 H1) as (G & EG & HlogG & HG).
      exists G. split; [exact EG |]. split; [|exact HG].
      rewrite HlogG, Hlog, <- app_assoc. reflexivity. }
  apply (Hgen cs new_Interactions new_Interactions_consistent).
Qed.

End RegistryClaims.

(** ** The offset mapper *)

Module OffsetFacts.
Import Chars Regex RegexFacts.

Lemma split_lines_no_newline (text : string) :
  exists_char (is_char LF) text = false -> Py.split_lines text = [text].
Proof.
  induction text as [|c t IH]; simpl; intros H; [reflexivity |].
  apply orb_false_iff in H as [Hc Ht]. rewrite Hc, (IH Ht). reflexivity.
Qed.

Lemma split_lines_not_nil (text : string) : Py.split_lines text <> [].
Proof.
  induction text as [|c t IH]; simpl; [discriminate |].
  destruct (is_char LF c); [discriminate |].
  destruct (Py.split_lines t); [contradiction | discriminate].
Qed.

Lemma collapse_no_newline (p : ascii -> bool) (s : string) :
  exists_char (is_char LF) s = false ->
  forall in_run,
    exists_char (is_char LF) (Text.collapse_from p in_run s) = false.
Proof.
  induction s as [|c t IH]; simpl; intros H in_run; [reflexivity |].
  apply orb_false_iff in H as [Hc Ht].
  destruct (p c); [destruct in_run |]; simpl; rewrite ?Hc, ?IH; auto.
Qed.

Lemma join_no_newline (contents : list string) :
  Forall (fun c => exists_char (is_char LF) c = false) contents ->
  exists_char (is_char LF) (Py.join contents) = false.
Proof.
  induction 1 as [|c cs Hc _ IH]; simpl; [reflexivity |].
  rewrite exists_char_app, Hc, IH. reflexivity.
Qed.

Lemma get_line_offsets_no_newline (text : string) (first_line_ : Z) :
  exists_char (is_char LF) text = false ->
  get_line_offsets text first_line_ = [].
Proof.
  intros H. unfold get_line_offsets.
  rewrite (split_lines_no_newline text H). reflexivity.
Qed.

Lemma get_line_for_offset_empty (pos : Z) :
  get_line_for_offset [] pos
  = (Raise IndexError,
     [[PS "Error: Couldn't find position"; PZ pos;
       PS " in line offsets:"; POffsets []]]).
Proof. reflexivity. Qed.

(** The line numbers of the table grow with the entries. *)
Lemma line_offsets_from_lower (segments : list string) :
  forall total_offset first_line_ k entry,
    In entry (line_offsets_from segments total_offset first_line_ k) ->
    first_line_ + k <= snd entry.
Proof.
  induction segments as [|seg rest IH]; simpl; intros tot fl k e He;
    [contradiction |].
  destruct He as [<- | He]; simpl; [lia |].
  apply IH in He. lia.
Qed.

Lemma ascending_tail (x : Z * Z) (l : list (Z * Z)) :
  ascending (x :: l) -> ascending l.
Proof.
  intros H pre y post z E Hz. apply (H (x :: pre) y post z); [|exact Hz].
  simpl. rewrite E. reflexivity.
Qed.

Lemma line_offsets_from_ascending (segments : list string) :
  forall total_offset first_line_ k,
    ascending (line_offsets_from segments total_offset first_line_ k).
Proof.
  induction segments as [|seg rest IH]; intros tot fl k pre x post y E Hy.
  - destruct pre; discriminate.
  - simpl in E. destruct pre as [|x0 pre]; simpl in E.
    + injection E as <- <-. apply line_offsets_from_lower in Hy.
      simpl. lia.
    + injection E as _ E. eapply IH; eauto.
Qed.

Lemma ascending_prefix (l1 l2 : list (Z * Z)) :
  ascending (l1 ++ l2) -> ascending l1.
Proof.
  intros H pre x post y E Hy.
  apply (H pre x (post ++ l2) y).
  - rewrite E, <- app_assoc. reflexivity.
  - apply in_or_app. left. exact Hy.
Qed.

Lemma get_line_offsets_ascending (text : string) (first_line_ : Z) :
  ascending (get_line_offsets text first_line_).
Proof.
  unfold get_line_offsets.
  set (l := line_offsets_from (Py.split_lines text) 0 first_line_ 0).
  assert (Hl : ascending l) by apply line_offsets_from_ascending.
  destruct l as [|x l'] eqn:E; [exact Hl |].
  rewrite (app_removelast_last x (l := x :: l')) in Hl by discriminate.
  eapply ascending_prefix, Hl.
Qed.

Lemma get_line_offsets_head (text : string) (first_line_ : Z)
    (entry : Z * Z) (rest : list (Z * Z)) :
  get_line_offsets text first_line_ = entry :: rest ->
  snd entry = first_line_.
Proof.
  unfold get_line_offsets.
  destruct (Py.split_lines text) as [|s0 [|s1 r]]; simpl;
    try discriminate.
  intros [= <- _]. simpl. lia.
Qed.

(** The first entry found is the one of lowest line number. *)
Lemma find_line_lowest (pos : Z) (l : list (Z * Z)) (ln : Z) :
  ascending l ->
  find_line l pos = Some ln ->
  (exists off, In (off, ln) l /\ pos < off)
  /\ (forall off' ln', In (off', ln') l -> pos < off' -> ln <= ln').
Proof.
  induction l as [|[o n] rest IH]; simpl; intros Ha H; [discriminate |].
  destruct (Z.ltb_spec pos o) as [Hlt | Hge].
  - injection H as <-. split; [eauto |].
    intros off' ln' [[= <- <-] | Hin] _; [lia |].
    apply (Ha [] (o, n) rest (off', ln') eq_refl Hin).
  - destruct (IH (ascending_tail _ _ Ha) H) as [(off & Hin & Hoff) Hlow].
    split; [eauto |].
    intros off' ln' [[= <- <-] | Hin'] Hlt; [lia | eauto].
Qed.

Lemma find_line_none (pos : Z) (l : list (Z * Z)) :
  find_line l pos = None <-> forall off ln, In (off, ln) l -> off <= pos.
Proof.
  induction l as [|[o n] rest IH]; simpl.
  - split; [intros _ ? ? [] | reflexivity].
  - destruct (Z.ltb_spec pos o) as [Hlt | Hge]; split.
    + discriminate.
    + intros H. specialize (H o n (or_introl eq_refl)). lia.
    + intros H off ln [[= <- <-] | Hin]; [lia |]. eapply IH; eauto.
    + intros H. apply IH. intros off ln Hin. eapply H; eauto.
Qed.

(** What [get_line_for_offset] does on the table of a text: the lowest
    line whose end offset exceeds the position when there is one; the
    first line of the range with a diagnostic when there is none and the
    table has an entry; [IndexError] when the table is empty. *)
Lemma get_line_for_offset_spec (text : string) (first_line_ pos : Z) :
  let table := get_line_offsets text first_line_ in
  match find_line table pos with
  | Some ln =>
      get_line_for_offset table pos = (Ok ln, [])
      /\ (exists off, In (off, ln) table /\ pos < off)
      /\ (forall off' ln', In (off', ln') table -> pos < off' -> ln <= ln')
  | None =>
      (forall off ln, In (off, ln) table -> off <= pos)
      /\ get_line_for_offset table pos
         = (if bool_decide (table = []) then Raise IndexError
            else Ok first_line_,
            [[PS "Error: Couldn't find position"; PZ pos;
              PS " in line offsets:"; POffsets table]])
  end.
Proof.
  intros table. unfold get_line_for_offset.
  destruct (find_line table pos) as [ln|] eqn:Hf.
  - split; [reflexivity |].
    apply find_line_lowest; [apply get_line_offsets_ascending | exact Hf].
  - split; [apply find_line_none, Hf |].
    destruct table as [|e rest] eqn:Et; [reflexivity |].
    apply get_line_offsets_head in Et. subst first_line_.
    rewrite bool_decide_eq_false_2 by discriminate. reflexivity.
Qed.

End OffsetFacts.

Section OffsetClaims.
Import Chars Regex OffsetFacts.

(** C10.  For a text without a newline, [get_line_offsets] returns the
    empty table whatever the starting line: the entry of the single
    segment is popped.  On the empty table [get_line_for_offset] prints
    its diagnostic and the first-line fallback raises [IndexError], so no
    position of such a text is mapped to a line; this is the case of the
    joined block text of the extractor when no line content holds a
    newline. *)
Theorem no_newline_no_offsets (text : string) (first_line_ : Z) :
  exists_char (is_char LF) text = false ->
  get_line_offsets text first_line_ = []
  /\ (forall pos,
        get_line_for_offset (get_line_offsets text first_line_) pos
        = (Raise IndexError,
           [[PS "Error: Couldn't find position"; PZ pos;
             PS " in line offsets:"; POffsets []]]))
  /\ (forall pos ln,
        fst (get_line_for_offset (get_line_offsets text first_line_) pos)
        <> Ok ln)
  /\ (forall contents,
        text = Py.join contents ->
        get_line_offsets (Text.collapse Text.is_tab_or_space text)
          first_line_ = []).
Proof.
  intros H.
  pose proof (get_line_offsets_no_newline text first_line_ H) as E.
  split; [exact E |]. rewrite E.
  split; [intros pos; reflexivity |].
  split; [intros pos ln; discriminate |].
  intros contents _. apply get_line_offsets_no_newline.
  apply collapse_no_newline, H.
Qed.

Lemma no_newline_no_offsets_witness :
  exists_char (is_char LF) "KITCHEN is dark." = false
  /\ get_line_offsets "KITCHEN is dark." 3 = []
  /\ get_line_for_offset (get_line_offsets "KITCHEN is dark." 3) 0
     = (Raise IndexError,
        [[PS "Error: Couldn't find position"; PZ 0;
          PS " in line offsets:"; POffsets []]]).
Proof.
  assert (H : exists_char (is_char LF) "KITCHEN is dark." = false)
    by reflexivity.
  split; [exact H |].
  destruct (no_newline_no_offsets "KITCHEN is dark." 3 H) as (E & F & _).
  split; [exact E | exact (F 0)].
Defined.

(** C8, where the code departs from it.  The joined text of a block whose
    line holds no newline has an empty offset table; for the occurrence of
    a name at offset 0 no entry exceeds the offset, the diagnostic is
    printed, and the fallback raises [IndexError] instead of returning the
    first line of the range. *)
Theorem offset_fallback_raises_on_empty_table :
  let table := get_line_offsets "KITCHEN is dark." 3 in
  table = []
  /\ find_line table 0 = None
  /\ get_line_for_offset table 0
     = (Raise IndexError,
        [[PS "Error: Couldn't find position"; PZ 0;
          PS " in line offsets:"; POffsets []]])
  /\ fst (get_line_for_offset table 0) <> Ok 3.
Proof. repeat split; vm_compute; congruence. Qed.

End OffsetClaims.

(** ** The speaker linking of a dialog block *)

Module SpeakerFacts.
Import GraphFacts.

Lemma in_enumerate_from {A} (l : list A) :
  forall (k i : nat) (x : A),
    In (i, x) (enumerate_from k l)
    <-> (k <= i)%nat /\ l !! (i - k)%nat = Some x.
Proof.
  induction l as [|y l IH]; intros k i x; simpl.
  - split; [contradiction | intros [_ H]; discriminate].
  - rewrite IH. split.
    + intros [[= <- <-] | [Hk Hl]].
      * split; [lia |]. replace (k - k)%nat with 0%nat by lia. reflexivity.
      * split; [lia |]. replace (i - k)%nat with (S (i - S k)) by lia.
        exact Hl.
    + intros [Hk Hl]. destruct (decide (i = k)) as [-> | Hne].
      * left. replace (k - k)%nat with 0%nat in Hl by lia.
        injection Hl as <-. reflexivity.
      * right. split; [lia |].
        replace (i - k)%nat with (S (i - S k)) in Hl by lia. exact Hl.
Qed.

Lemma in_enumerate {A} (l : list A) (i : nat) (x : A) :
  In (i, x) (enumerate l) <-> l !! i = Some x.
Proof.
  unfold enumerate. rewrite in_enumerate_from.
  replace (i - 0)%nat with i by lia. split; [tauto | split; [lia | auto]].
Qed.

Lemma enumerate_from_NoDup {A} (l : list A) :
  forall k, NoDup (enumerate_from k l).
Proof.
  induction l as [|y l IH]; intros k; simpl; constructor; [|apply IH].
  rewrite list_elem_of_In, in_enumerate_from. lia.
Qed.

Lemma enumerate_from_drop {A} (l : list A) (k : nat) (x : A) :
  l !! k = Some x ->
  enumerate_from k (drop k l) = (k, x) :: enumerate_from (S k) (drop (S k) l).
Proof.
  intros H. rewrite (drop_S l x k H). reflexivity.
Qed.

(** The inner loop: no exception, and one interaction per entry the
    condition lets through. *)
Lemma link_speaker_spec (speakers : list presence) (s1_pos : nat)
    (s1 : presence) (dialog_recorded : gset string) :
  (forall nm, nm ∈ dialog_recorded
              <-> nm ∈ map name (take s1_pos speakers)) ->
  forall (others : list (nat * presence)) (G : Interactions),
    exists G',
      link_speaker s1_pos s1 dialog_recorded others G = (Ok tt, G')
      /\ interactions G'
         = interactions G
           ++ map discuss_link
                (map (pair (s1_pos, s1))
                   (filter (links speakers (s1_pos, s1)) others)).
Proof.
  intros Hrec others. induction others as [|[s2_pos s2] rest IH]; intros G.
  - exists G. simpl. rewrite app_nil_r. auto.
  - cbn [link_speaker].
    destruct (Nat.leb s2_pos s1_pos
              || bool_decide (name s2 ∈ dialog_recorded)
              || bool_decide (name s1 = name s2)) eqn:Hc.
    + rewrite filter_cons_False; [apply IH |].
      unfold links. simpl. intros (Hlt & Hnot & Hne).
      apply orb_true_iff in Hc as [Hc | Hc];
        [apply orb_true_iff in Hc as [Hc | Hc] |].
      * apply Nat.leb_le in Hc. lia.
      * apply bool_decide_eq_true in Hc. apply Hnot, Hrec, Hc.
      * apply bool_decide_eq_true in Hc. contradiction.
    + apply orb_false_iff in Hc as [Hc Hne].
      apply orb_false_iff in Hc as [Hlt Hnot].
      apply Nat.leb_gt in Hlt. apply bool_decide_eq_false in Hnot, Hne.
      rewrite filter_cons_True
        by (unfold links; simpl; rewrite <- Hrec; auto).
      destruct (update_interaction_spec G s1 s2 (where_ s1) DISCUSS)
        as (G1 & E & Hlog & _).
      rewrite E. destruct (IH G1) as (G' & E' & Hlog').
      exists G'. split; [exact E' |].
      rewrite Hlog', Hlog, <- app_assoc. reflexivity.
Qed.

(** The outer loop, from entry [k] on. *)
Lemma link_speakers_from_spec (speakers : list presence) :
  forall (todo : list (nat * presence)) (k : nat)
         (dialog_recorded : gset string) (G : Interactions),
    todo = enumerate_from k (drop k speakers) ->
    (forall nm, nm ∈ dialog_recorded <-> nm ∈ map name (take k speakers)) ->
    exists G',
      link_speakers_from speakers todo dialog_recorded G = (Ok tt, G')
      /\ interactions G'
         = interactions G
           ++ map discuss_link
                (flat_map (fun e1 =>
                   map (pair e1)
                     (filter (links speakers e1) (enumerate speakers)))
                   todo).
Proof.
  induction todo as [|[s1_pos s1] rest IH]; intros k rec G Htodo Hrec.
  - exists G. simpl. rewrite app_nil_r. auto.
  - destruct (drop k speakers) as [|x l'] eqn:Hd; [discriminate |].
    simpl in Htodo. injection Htodo as -> -> ->.
    assert (Hk : speakers !! k = Some x).
    { rewrite <- (Nat.add_0_r k), <- lookup_drop, Hd. reflexivity. }
    assert (Hl' : l' = drop (S k) speakers).
    { rewrite (drop_S speakers x k Hk) in Hd. congruence. }
    cbn [link_speakers_from].
    destruct (link_speaker_spec speakers k x rec Hrec (enumerate speakers) G)
      as (G1 & E1 & Hlog1).
    rewrite E1.
    destruct (IH (S k) ({[ name x ]} ∪ rec) G1) as (G' & E' & Hlog').
    + rewrite Hl'. reflexivity.
    + intros nm. rewrite (take_S_r speakers k x Hk), map_app.
      rewrite elem_of_app, elem_of_union, elem_of_singleton, Hrec.
      simpl. rewrite list_elem_of_singleton. tauto.
    + exists G'. split; [exact E' |].
      rewrite Hlog', Hlog1. simpl flat_map.
      rewrite map_app, <- app_assoc. reflexivity.
Qed.

Lemma link_speakers_spec (speakers : list presence) (G : Interactions) :
  exists G',
    link_speakers speakers G = (Ok tt, G')
    /\ interactions G'
       = interactions G ++ map discuss_link (discuss_pairs speakers).
Proof.
  apply (link_speakers_from_spec speakers (enumerate speakers) 0 ∅ G).
  - reflexivity.
  - intros nm. simpl. rewrite elem_of_empty, elem_of_nil. tauto.
Qed.

(** Which pairs of entries are related. *)
Lemma in_discuss_pairs (speakers : list presence) (i j : nat)
    (s1 s2 : presence) :
  In ((i, s1), (j, s2)) (discuss_pairs speakers)
  <-> speakers !! i = Some s1 /\ speakers !! j = Some s2
      /\ links speakers (i, s1) (j, s2).
Proof.
  unfold discuss_pairs. rewrite in_flat_map. split.
  - intros (e1 & He1 & Hin). apply in_map_iff in Hin as (e2 & [= -> ->] & He2).
    apply list_elem_of_In, list_elem_of_filter in He2 as [Hl He2].
    apply list_elem_of_In in He2.
    rewrite in_enumerate in He1, He2. auto.
  - intros (H1 & H2 & Hl). exists (i, s1). split; [apply in_enumerate, H1 |].
    apply in_map, list_elem_of_In, list_elem_of_filter.
    split; [exact Hl |]. apply list_elem_of_In, in_enumerate, H2.
Qed.

Lemma pairs_NoDup {A B} (g : A -> list B) (todo : list A) :
  NoDup todo -> (forall x, NoDup (g x)) ->
  NoDup (flat_map (fun x => map (pair x) (g x)) todo).
Proof.
  intros Htodo Hg. induction Htodo as [|x l Hx Hl IH]; simpl;
    [constructor |].
  apply NoDup_app. split; [|split; [|exact IH]].
  - apply (NoDup_fmap_2 (pair x)), Hg.
  - intros [x' y] Hin Hin'.
    apply list_elem_of_In, in_map_iff in Hin as (y' & [= <- <-] & _).
    apply list_elem_of_In, in_flat_map in Hin' as (x'' & Hx'' & Hin').
    apply in_map_iff in Hin' as (y'' & [= <- <-] & _).
    apply Hx, list_elem_of_In, Hx''.
Qed.

Lemma discuss_pairs_NoDup (speakers : list presence) :
  NoDup (discuss_pairs speakers).
Proof.
  apply pairs_NoDup; [apply enumerate_from_NoDup |].
  intros e1. apply NoDup_filter, enumerate_from_NoDup.
Qed.

(** The names borne before entry [i]. *)
Lemma name_before (speakers : list presence) (i : nat) (nm : string) :
  nm ∈ map name (take i speakers)
  <-> exists k s, (k < i)%nat /\ speakers !! k = Some s /\ name s = nm.
Proof.
  rewrite list_elem_of_In, in_map_iff. split.
  - intros (s & Hs & Hin). apply list_elem_of_In, elem_of_take in Hin
      as (k & Hk & Hlt). eauto.
  - intros (k & s & Hlt & Hk & Hs). exists s. split; [exact Hs |].
    apply list_elem_of_In, elem_of_take. eauto.
Qed.

(** Of two names borne in the block, one is borne first. *)
Lemma first_bearer (speakers : list presence) (i : nat) (s : presence) :
  speakers !! i = Some s ->
  exists f t, (f <= i)%nat /\ speakers !! f = Some t /\ name t = name s
              /\ name s ∉ map name (take f speakers).
Proof.
  intros Hi.
  destruct (list_find_elem_of (fun t => name t = name s) speakers s)
    as [[f t] Hf]; [apply list_elem_of_lookup; eauto | reflexivity |].
  apply list_find_Some in Hf as (Hf & Ht & Hbefore).
  exists f, t. split; [|split; [exact Hf | split; [exact Ht |]]].
  - destruct (le_lt_dec f i) as [Hle | Hlt]; [exact Hle |].
    exfalso. exact (Hbefore i s Hi Hlt eq_refl).
  - rewrite name_before. intros (k & u & Hlt & Hk & Hu).
    exact (Hbefore k u Hk Hlt Hu).
Qed.

End SpeakerFacts.

Section SpeakerClaims.
Import SpeakerFacts.

(** C3, as the code has it.  After the headers of a dialog block the
    speaker linking returns normally and records one DISCUSS interaction,
    at the [where] of the earlier entry, for exactly those pairs of header
    entries [i] before [j] that bear different names and where no entry
    before [i] bears the name of [j].  So there are no self-pairs, no pair
    of entries is recorded twice, two names are never linked in both
    directions, and any two headers of different names are linked, from
    the name that is borne first.  The same two speakers are recorded once
    for each such pair of entries, not once for the block. *)
Theorem discuss_linking (speakers : list presence) (G : Interactions) :
  let pairs := discuss_pairs speakers in
  (exists G',
     link_speakers speakers G = (Ok tt, G')
     /\ interactions G' = interactions G ++ map discuss_link pairs)
  /\ NoDup pairs
  /\ (forall i j s1 s2,
        In ((i, s1), (j, s2)) pairs
        <-> speakers !! i = Some s1 /\ speakers !! j = Some s2
            /\ (i < j)%nat /\ name s1 <> name s2
            /\ forall k s, (k < i)%nat -> speakers !! k = Some s ->
                           name s <> name s2)
  /\ (forall e,
        In e pairs ->
        let x := discuss_link e in
        int_a x = Some (snd (fst e)) /\ int_b x = snd (snd e)
        /\ int_where x = where_ (snd (fst e))
        /\ interaction_type x = DISCUSS
        /\ name (snd (fst e)) <> name (snd (snd e)))
  /\ (forall e e',
        In e pairs -> In e' pairs ->
        ~ (name (snd (fst e')) = name (snd (snd e))
           /\ name (snd (snd e')) = name (snd (fst e))))
  /\ (forall i j s1 s2,
        (i < j)%nat -> speakers !! i = Some s1 -> speakers !! j = Some s2 ->
        name s1 <> name s2 ->
        exists e,
          In e pairs
          /\ ((name (snd (fst e)) = name s1 /\ name (snd (snd e)) = name s2)
              \/ (name (snd (fst e)) = name s2
                  /\ name (snd (snd e)) = name s1))).
Proof.
  intros pairs.
  assert (Hin : forall i j s1 s2,
            In ((i, s1), (j, s2)) pairs
            <-> speakers !! i = Some s1 /\ speakers !! j = Some s2
                /\ (i < j)%nat /\ name s1 <> name s2
                /\ forall k s, (k < i)%nat -> speakers !! k = Some s ->
                               name s <> name s2).
  { intros i j s1 s2. unfold pairs. rewrite in_discuss_pairs.
    unfold links. simpl. rewrite name_before. split.
    - intros (H1 & H2 & Hlt & Hnot & Hne). repeat split; auto.
      intros k s Hk Hs Heq. apply Hnot. eauto.
    - intros (H1 & H2 & Hlt & Hne & Hnot). repeat split; auto.
      intros (k & s & Hk & Hs & Heq). eapply Hnot; eauto. }
  split; [apply link_speakers_spec |].
  split; [apply discuss_pairs_NoDup |].
  split; [exact Hin |].
  split; [|split].
  - intros [[i s1] [j s2]] He. apply Hin in He as (_ & _ & _ & Hne & _).
    simpl. auto.
  - intros [[i s1] [j s2]] [[i' t1] [j' t2]] He He'. simpl.
    apply Hin in He as (H1 & H2 & Hlt & Hne & Hnot).
    apply Hin in He' as (H1' & H2' & Hlt' & Hne' & Hnot').
    intros [Ea Eb].
    destruct (lt_eq_lt_dec i i') as [[Hi | ->] | Hi].
    + apply (Hnot' i s1 Hi H1). congruence.
    + congruence.
    + apply (Hnot i' t1 Hi H1'). congruence.
  - intros i j s1 s2 Hlt H1 H2 Hne.
    destruct (first_bearer speakers i s1 H1)
      as (f1 & t1 & Hf1 & Ht1 & En1 & Hb1).
    destruct (first_bearer speakers j s2 H2)
      as (f2 & t2 & Hf2 & Ht2 & En2 & Hb2).
    rewrite name_before in Hb1, Hb2.
    destruct (lt_eq_lt_dec f1 f2) as [[Hf | ->] | Hf].
    + exists ((f1, t1), (j, s2)). split; [|left; auto].
      apply Hin. repeat split; auto; [lia | congruence |].
      intros k s Hk Hs Heq. apply Hb2. exists k, s.
      repeat split; auto. lia.
    + congruence.
    + exists ((f2, t2), (i, s1)). split; [|right; auto].
      apply Hin. repeat split; auto; [lia | congruence |].
      intros k s Hk Hs Heq. apply Hb1. exists k, s.
      repeat split; auto. lia.
Qed.

(** C3 as stated fails: the same speaker pair is recorded twice when the
    later speaker has two headers in the block. *)
Lemma speaker_pair_recorded_twice :
  let ann := get_presence ("ANN", CHARACTER) DISCUSS 1 1 3 in
  let bob := get_presence ("BOB", CHARACTER) DISCUSS 1 1 6 in
  let bob_again := get_presence ("BOB", CHARACTER) DISCUSS 1 1 9 in
  let script :=
    with_newlines ["INT. ROOM"; ""; "   ANN"; "  Hello."; "";
                   "   BOB"; "  Yes."; ""; "   BOB"; "  No."] in
  (exists G',
     link_speakers [ann; bob; bob_again] new_Interactions = (Ok tt, G')
     /\ map participant_names (interactions G')
        = [(Some "ANN", "BOB"); (Some "ANN", "BOB")]
     /\ ~ NoDup (map participant_names (interactions G')))
  /\ (exists P G,
        extract STRICT single_sentence script STRICT = (Ok (P, G), [])
        /\ map participant_names
             (filter (fun i => interaction_type i = DISCUSS)
                (interactions G))
           = [(Some "ANN", "BOB"); (Some "ANN", "BOB")]).
Proof.
  intros ann bob bob_again script. split.
  - eexists. split; [vm_compute; reflexivity |].
    split; [vm_compute; reflexivity |].
    vm_compute. intros Hn. apply NoDup_cons in Hn as [Hn _].
    apply Hn, list_elem_of_here.
  - eexists. eexists. split; vm_compute; reflexivity.
Qed.

End SpeakerClaims.

(** ** The word counts of the segmenter *)

Module WordFacts.

Lemma count_words_from_nonneg (s : string) :
  forall in_word, 0 <= Py.count_words_from in_word s.
Proof.
  induction s as [|c s IH]; intros in_word; simpl; [lia |].
  destruct (Chars.is_space c); [apply IH |].
  specialize (IH true). destruct in_word; lia.
Qed.

Lemma count_words_nonneg (s : string) : 0 <= Py.count_words s.
Proof. apply count_words_from_nonneg. Qed.

Lemma total_app (l1 l2 : list Z) : total (l1 ++ l2) = total l1 + total l2.
Proof. unfold total. induction l1; simpl; lia. Qed.

Lemma total_perm (l1 l2 : list Z) : l1 ≡ₚ l2 -> total l1 = total l2.
Proof. unfold total. induction 1; simpl; lia. Qed.

(** The lines of one block: the block count grows by the words counted,
    and the dialog count grows by as much in a dialog block and not at
    all otherwise. *)
Lemma count_lines_spec (script_lines : list line) (bt : ptype)
    (idxs : list Z) :
  forall acc r,
    count_lines script_lines bt idxs acc = Ok r ->
    fst acc <= fst r
    /\ snd r - snd acc
       = if bool_decide (bt = DIALOG) then fst r - fst acc else 0.
Proof.
  induction idxs as [|i rest IH]; intros acc r H; simpl in H.
  - injection H as <-. case_bool_decide; lia.
  - destruct (Py.index script_lines i) as [l|e]; [|discriminate].
    simpl in H. apply IH in H. simpl in H.
    pose proof (count_words_nonneg (content l)).
    case_bool_decide; simpl in H; lia.
Qed.

(** The blocks of one scene. *)
Lemma count_blocks_spec (script_lines : list line) (bs : list block) :
  forall done t d r,
    count_blocks script_lines bs (done, (t, d)) = Ok r ->
    exists new,
      fst r = done ++ new
      /\ Forall block_counted new
      /\ fst (snd r) = t + total (map block_words new)
      /\ 0 <= snd (snd r) - d <= fst (snd r) - t.
Proof.
  induction bs as [|b rest IH]; intros done t d r H; simpl in H.
  - injection H as <-. exists []. simpl. rewrite app_nil_r.
    repeat split; auto; lia.
  - case_bool_decide as Hb.
    + apply IH in H as (new & E & Hc & Ht & Hd).
      exists (set_block_total_words b 0 :: new).
      rewrite E, <- app_assoc. split; [reflexivity |].
      split; [|simpl; unfold block_words at 1; simpl; split; lia].
      constructor; [|exact Hc].
      unfold block_counted, block_words. simpl. eauto with lia.
    + destruct (count_lines script_lines (block_type b) _ (0, d))
        as [[bw dw]|e] eqn:Hl; [|discriminate].
      simpl in H. apply count_lines_spec in Hl. simpl in Hl.
      apply IH in H as (new & E & Hc & Ht & Hd).
      exists (set_block_total_words b bw :: new).
      rewrite E, <- app_assoc. split; [reflexivity |].
      split.
      * constructor; [|exact Hc].
        unfold block_counted, block_words. simpl.
        split; [eauto |]. split; [contradiction | lia].
      * simpl. unfold block_words at 1. simpl.
        split; [lia |]. case_bool_decide; lia.
Qed.

Lemma count_scene_spec (script_lines : list line) (s s' : scene) :
  count_scene script_lines s = Ok s' -> scene_counted s'.
Proof.
  unfold count_scene. intros H.
  destruct (count_blocks script_lines (scene_blocks s) ([], (0, 0)))
    as [r|e] eqn:Hb; [|discriminate].
  simpl in H. injection H as <-.
  apply count_blocks_spec in Hb as (new & E & Hc & Ht & Hd).
  simpl in E. unfold scene_counted, scene_words, scene_dialog. simpl.
  rewrite E. split; [exact Hc |]. split; [f_equal; lia |].
  split; [eauto |]. rewrite Ht. lia.
Qed.

(** The scenes of the script. *)
Lemma count_scenes_spec (script_lines : list line)
    (ss : list (Z * scene)) :
  forall acc r,
    count_scenes script_lines ss acc = Ok r ->
    exists new,
      fst r = fst acc ++ new
      /\ map fst new = map fst ss
      /\ Forall (fun e => scene_counted (snd e)) new
      /\ fst (snd r)
         = fst (snd acc) + total (map (fun e => scene_words (snd e)) new)
      /\ snd (snd r)
         = snd (snd acc) + total (map (fun e => scene_dialog (snd e)) new).
Proof.
  induction ss as [|[k s] rest IH]; intros acc r H; simpl in H.
  - injection H as <-. exists []. simpl. rewrite app_nil_r.
    repeat split; auto; lia.
  - destruct (count_scene script_lines s) as [s'|e] eqn:Hs; [|discriminate].
    simpl in H. apply count_scene_spec in Hs.
    apply IH in H as (new & E & Hk & Hc & Ht & Hd). simpl in *.
    exists ((k, s') :: new). rewrite E, <- app_assoc.
    split; [reflexivity |]. split; [simpl; congruence |].
    split; [constructor; auto |]. simpl. split; lia.
Qed.

Lemma scene_counted_dialog_le (new : list (Z * scene)) :
  Forall (fun e => scene_counted (snd e)) new ->
  0 <= total (map (fun e => scene_dialog (snd e)) new)
    <= total (map (fun e => scene_words (snd e)) new).
Proof.
  induction 1 as [|e l He _ IH]; simpl; [lia |].
  destruct He as (_ & _ & _ & Hd). lia.
Qed.

(** What the structure returned holds. *)
Lemma parse_script_lines_counts (mode : parse_mode)
    (script_lines : list line) (s : structure) (out : list message) :
  parse_script_lines mode script_lines = (Ok s, out) ->
  total_words s = total (map scene_words (scene_list s))
  /\ dialog_words s = total (map scene_dialog (scene_list s))
  /\ (forall k sc, scenes s !! k = Some sc -> scene_counted sc)
  /\ 0 <= dialog_words s <= total_words s.
Proof.
  unfold parse_script_lines. intros H. injection H as H _.
  set (st := parse_lines mode script_lines initial_pstate) in *.
  destruct (count_scenes script_lines (map_to_list (flush st)) ([], (0, 0)))
    as [r|e] eqn:Hc; [|discriminate].
  simpl in H. injection H as <-.
  apply count_scenes_spec in Hc as (new & E & Hk & Hc & Ht & Hd).
  simpl in E, Ht, Hd. rewrite E. clear E.
  assert (Hnd : NoDup (new.*1)).
  { change (new.*1) with (fst <$> new).
    replace (fst <$> new) with (map fst new) by reflexivity.
    rewrite Hk. apply NoDup_fst_map_to_list. }
  pose proof (map_to_list_to_map new Hnd) as Hperm.
  unfold scene_list. simpl.
  split; [|split; [|split]].
  - rewrite Ht, Z.add_0_l, map_map. apply total_perm.
    replace (map (fun x => scene_words (snd x)) new)
      with ((fun x => scene_words (snd x)) <$> new) by reflexivity.
    replace (map (fun x : Z * scene => scene_words (snd x))
               (map_to_list (list_to_map new)))
      with ((fun x : Z * scene => scene_words (snd x))
              <$> map_to_list (list_to_map new : gmap Z scene))
      by reflexivity.
    rewrite Hperm. reflexivity.
  - rewrite Hd, Z.add_0_l, map_map. apply total_perm.
    replace (map (fun x => scene_dialog (snd x)) new)
      with ((fun x => scene_dialog (snd x)) <$> new) by reflexivity.
    replace (map (fun x : Z * scene => scene_dialog (snd x))
               (map_to_list (list_to_map new)))
      with ((fun x : Z * scene => scene_dialog (snd x))
              <$> map_to_list (list_to_map new : gmap Z scene))
      by reflexivity.
    rewrite Hperm. reflexivity.
  - intros k sc Hl. apply elem_of_list_to_map_2 in Hl.
    rewrite Forall_forall in Hc. apply (Hc (k, sc)), Hl.
  - rewrite Ht, Hd. pose proof (scene_counted_dialog_le new Hc). lia.
Qed.

End WordFacts.

(** ** The segmenter returns on well-numbered input *)

Module SegmenterFacts.

Lemma block_in_range_mono (n n' : Z) (b : block) :
  n <= n' -> block_in_range n b -> block_in_range n' b.
Proof. unfold block_in_range. lia. Qed.

Lemma blocks_in_range_mono (n n' : Z) (sc : scene) :
  n <= n' -> blocks_in_range n sc -> blocks_in_range n' sc.
Proof.
  unfold blocks_in_range. intros Hn H.
  eapply Forall_impl; [exact H |]. intros b. apply block_in_range_mono, Hn.
Qed.

Lemma append_block_in_range (n : Z) (sc : scene) (b : block) :
  blocks_in_range n sc -> block_in_range n b ->
  blocks_in_range n (append_block sc b).
Proof.
  unfold blocks_in_range. simpl. intros Hs Hb.
  apply Forall_app. split; [exact Hs |]. constructor; [exact Hb | constructor].
Qed.

(** One line keeps every block within the lines read. *)
Lemma parse_line_segmented (mode : parse_mode) (m : Z) (l : line)
    (next_line : option string) (st : pstate) :
  0 <= m -> line_no l = m + 1 ->
  segmented m st -> segmented (m + 1) (parse_line mode l next_line st).
Proof.
  intros Hm Hl (Hscenes & Hcur & Hblock).
  assert (Hscenes' : forall k sc, st_scenes st !! k = Some sc ->
                                  blocks_in_range (m + 1) sc).
  { intros k sc H. eapply blocks_in_range_mono; [|eapply Hscenes, H]. lia. }
  assert (Hcur' : blocks_in_range (m + 1) (current_scene st)).
  { eapply blocks_in_range_mono; [|exact Hcur]. lia. }
  assert (Hblock' : block_in_range (m + 1) (current_block st)).
  { eapply block_in_range_mono; [|exact Hblock]. lia. }
  assert (Hnew : forall t, block_in_range (Z.max 1 (m + 1))
                             (new_block t (line_no l))).
  { intros t. unfold block_in_range. simpl. lia. }
  unfold parse_line.
  destruct (get_types mode (content l) next_line (prior_types st))
    as [t printed].
  assert (Hgrow : block_in_range (Z.max 1 (m + 1)) (current_block st)).
  { eapply block_in_range_mono; [|exact Hblock]. lia. }
  unfold segmented.
  repeat case_bool_decide; simpl; (split; [|split]);
    try exact Hscenes'; try exact Hcur'; try apply Hnew; try exact Hgrow.
  - apply append_block_in_range; [exact Hcur' | exact Hblock'].
  - unfold block_in_range in *. simpl. lia.
  - intros k sc Hk.
    destruct (decide (k = scene_number (current_scene st))) as [-> | Hne].
    + rewrite lookup_insert_eq in Hk. injection Hk as <-.
      apply (append_block_in_range _ _ _ Hcur' Hblock').
    + rewrite lookup_insert_ne in Hk by congruence. eauto.
  - constructor.
  - apply append_block_in_range; [exact Hcur' | exact Hblock'].
Qed.

Lemma parse_lines_segmented (mode : parse_mode) (ls : list line) :
  forall (m : Z) (st : pstate),
    0 <= m ->
    (forall i l, ls !! i = Some l -> line_no l = m + Z.of_nat i + 1) ->
    segmented m st ->
    segmented (m + Z.of_nat (length ls)) (parse_lines mode ls st).
Proof.
  induction ls as [|l rest IH]; intros m st Hm Hno Hst.
  - simpl. rewrite Z.add_0_r. exact Hst.
  - cbn [parse_lines length].
    replace (m + Z.of_nat (S (length rest)))
      with ((m + 1) + Z.of_nat (length rest)) by lia.
    apply IH; [lia | |].
    + intros i l' Hi. rewrite (Hno (S i) l' Hi). lia.
    + apply parse_line_segmented; [exact Hm | | exact Hst].
      rewrite (Hno 0%nat l eq_refl). lia.
Qed.

Lemma initial_segmented : segmented 0 initial_pstate.
Proof.
  unfold segmented, blocks_in_range, block_in_range. simpl.
  split; [intros k sc H; rewrite lookup_empty in H; discriminate |].
  split; [constructor | lia].
Qed.

Lemma index_in_range {A} (l : list A) (i : Z) :
  0 <= i < Z.of_nat (length l) -> exists x, Py.index l i = Ok x.
Proof.
  intros Hi. unfold Py.index.
  destruct (Z.ltb_spec i 0) as [? | _]; [lia |].
  destruct (Z.ltb_spec i 0) as [? | _]; [lia |].
  destruct (nth_error l (Z.to_nat i)) as [x|] eqn:Hn; [eauto |].
  apply nth_error_None in Hn. lia.
Qed.

Lemma count_lines_returns (script_lines : list line) (bt : ptype)
    (idxs : list Z) :
  Forall (fun i => 0 <= i < Z.of_nat (length script_lines)) idxs ->
  forall acc, exists r, count_lines script_lines bt idxs acc = Ok r.
Proof.
  induction 1 as [|i rest Hi _ IH]; intros acc; simpl; [eauto |].
  destruct (index_in_range script_lines i Hi) as (l & ->). simpl. apply IH.
Qed.

Lemma range_bounds (lo hi : Z) :
  Forall (fun i => lo <= i < hi) (Py.range lo hi).
Proof.
  unfold Py.range. apply Forall_forall. intros i Hi.
  apply list_elem_of_In, in_map_iff in Hi as (k & <- & Hk).
  apply in_seq in Hk. lia.
Qed.

Lemma count_blocks_returns (script_lines : list line) (bs : list block) :
  Forall (block_in_range (Z.of_nat (length script_lines))) bs ->
  forall acc, exists r, count_blocks script_lines bs acc = Ok r.
Proof.
  induction 1 as [|b rest [Hlo Hhi] _ IH]; intros [done [t d]]; simpl;
    [eauto |].
  case_bool_decide; [apply IH |].
  destruct (count_lines_returns script_lines (block_type b)
              (Py.range (first_line b - 1) (last_line b))) with (acc := (0, d))
    as (r & ->).
  - eapply Forall_impl; [apply range_bounds |]. simpl. intros i. lia.
  - simpl. apply IH.
Qed.

Lemma count_scenes_returns (script_lines : list line)
    (ss : list (Z * scene)) :
  Forall (fun e => blocks_in_range (Z.of_nat (length script_lines)) (snd e))
    ss ->
  forall acc, exists r, count_scenes script_lines ss acc = Ok r.
Proof.
  induction 1 as [|[k s] rest Hs _ IH]; intros acc; simpl; [eauto |].
  unfold count_scene.
  destruct (count_blocks_returns script_lines (scene_blocks s) Hs
              ([], (0, 0))) as (r & ->).
  simpl. apply IH.
Qed.

(** On lines numbered from 1 the segmenter and its word-count pass return
    a structure. *)
Lemma parse_script_lines_returns (mode : parse_mode)
    (script_lines : list line) :
  well_numbered script_lines ->
  exists s, fst (parse_script_lines mode script_lines) = Ok s.
Proof.
  intros Hwn. unfold parse_script_lines. simpl.
  set (st := parse_lines mode script_lines initial_pstate).
  assert (Hst : segmented (Z.of_nat (length script_lines)) st).
  { apply (parse_lines_segmented mode script_lines 0 initial_pstate);
      [lia | | apply initial_segmented].
    intros i l Hi. rewrite (Hwn i l Hi). lia. }
  destruct (count_scenes_returns script_lines (map_to_list (flush st)))
    with (acc := ([] : list (Z * scene), (0, 0))) as (r & ->);
    [|simpl; eauto].
  apply Forall_forall. intros [k sc] Hk.
  apply elem_of_map_to_list in Hk. unfold flush in Hk.
  destruct (decide (k = 0)) as [-> | Hk0];
    [rewrite lookup_delete_eq in Hk; discriminate |].
  rewrite lookup_delete_ne in Hk by congruence.
  destruct Hst as (Hscenes & Hcur & Hblock). simpl.
  destruct script_lines as [|l0 rest].
  - subst st. simpl in Hk. rewrite lookup_insert_ne in Hk by congruence.
    rewrite lookup_empty in Hk. discriminate.
  - set (n := Z.of_nat (length (l0 :: rest))) in *.
    assert (Hn : Z.max 1 n = n) by (subst n; simpl length; lia).
    rewrite Hn in Hblock.
    match type of Hk with
    | <[ ?key := _ ]> _ !! _ = _ =>
        destruct (decide (k = key)) as [-> | Hne]
    end.
    + rewrite lookup_insert_eq in Hk. injection Hk as <-.
      apply (append_block_in_range _ _ _ Hcur Hblock).
    + rewrite lookup_insert_ne in Hk by congruence. eauto.
Qed.

End SegmenterFacts.

Section SegmenterClaims.
Import WordFacts SegmenterFacts.

(** C7.  On lines numbered from 1, [parse_script_lines] returns a
    structure.  In every structure it returns, [total_words] is the sum
    of the [total_words] of the scenes and [dialog_words] the sum of their
    [dialog_words]; the [total_words] of every scene is the sum of the
    [total_words] of its blocks, each block has its count and an [EMPTY]
    block has zero; and [dialog_words] is at most [total_words] in every
    scene and in the document. *)
Theorem word_count_totals (mode : parse_mode) (script_lines : list line) :
  (well_numbered script_lines ->
   exists s, fst (parse_script_lines mode script_lines) = Ok s)
  /\ (forall s,
        fst (parse_script_lines mode script_lines) = Ok s ->
        total_words s = total (map scene_words (scene_list s))
        /\ dialog_words s = total (map scene_dialog (scene_list s))
        /\ (forall k sc,
              scenes s !! k = Some sc ->
              Forall block_counted (scene_blocks sc)
              /\ scene_total_words sc
                 = Some (total (map block_words (scene_blocks sc)))
              /\ is_Some (scene_dialog_words sc)
              /\ scene_dialog sc <= scene_words sc)
        /\ dialog_words s <= total_words s).
Proof.
  split; [apply parse_script_lines_returns |].
  intros s Hs.
  destruct (parse_script_lines mode script_lines) as [r out] eqn:Hp.
  simpl in Hs. subst r.
  apply parse_script_lines_counts in Hp as (Ht & Hd & Hsc & Hle).
  split; [exact Ht |]. split; [exact Hd |]. split; [|lia].
  intros k sc Hk. destruct (Hsc k sc Hk) as (Hb & Hw & Hdw & Hbound).
  repeat split; auto; lia.
Qed.

Lemma word_count_totals_witness :
  let script :=
    with_newlines ["INT. KITCHEN - DAY"; ""; "   JOHN"; "  Hello there."] in
  well_numbered script
  /\ exists s,
       fst (parse_script_lines STRICT script) = Ok s
       /\ total_words s = total (map scene_words (scene_list s))
       /\ dialog_words s <= total_words s.
Proof.
  intros script.
  assert (Hwn : well_numbered script).
  { intros [|[|[|[|i]]]] l H; simpl in H; try discriminate;
      injection H as <-; reflexivity. }
  split; [exact Hwn |].
  destruct (word_count_totals STRICT script) as [Hret Hsum].
  destruct (Hret Hwn) as (s & Hs).
  exists s. split; [exact Hs |].
  destruct (Hsum s Hs) as (Ht & _ & _ & Hle). split; [exact Ht | exact Hle].
Defined.

End SegmenterClaims.

(** ** The extraction pipeline on whole scripts *)

Section PipelineClaims.

(** C1, where the code departs from it.  [update_interaction] has no guard
    on the names of its participants, and only the speaker linking checks
    them.  A scene heading whose location is then the speaker of a dialog
    header yields a SETTING interaction of the name with itself, whatever
    the sentence tokenizer; a scene location named in its own action text
    yields SETTING interactions of the name with itself, and two
    occurrences of one name in a sentence yield an APPEAR interaction of
    the name with itself. *)
Theorem self_interactions_recorded (mode parse_mode_ : parse_mode)
    (sent_tokenize : string -> list string) :
  let heading_speaks := with_newlines ["INT. JOHN"; ""; "   JOHN"] in
  let location_named :=
    with_newlines ["INT. KITCHEN"; "";
                   "The KITCHEN door leads to the KITCHEN."] in
  recorded (extract mode sent_tokenize heading_speaks parse_mode_)
  = Some [((Some "JOHN", "JOHN"), SETTING)]
  /\ recorded (extract mode single_sentence location_named parse_mode_)
     = Some [((Some "KITCHEN", "KITCHEN"), SETTING);
             ((Some "KITCHEN", "KITCHEN"), SETTING);
             ((Some "KITCHEN", "KITCHEN"), APPEAR)]
  /\ match fst (extract mode sent_tokenize heading_speaks parse_mode_) with
     | Ok (_, G) => Forall self_interaction (interactions G)
     | Raise _ => False
     end
  /\ match fst (extract mode single_sentence location_named parse_mode_) with
     | Ok (_, G) => Forall self_interaction (interactions G)
     | Raise _ => False
     end.
Proof.
  intros heading_speaks location_named.
  split; [destruct mode; vm_compute; reflexivity |].
  split; [destruct mode; vm_compute; reflexivity |].
  split; destruct mode; vm_compute; repeat constructor.
Qed.

(** C2, where the code departs from it.  Two scripts on which the
    pipeline raises instead of returning.  When the lines hold no newline
    the offset table of an action block is empty, and the first name found
    in it reaches the fallback of [get_line_for_offset], which raises
    [IndexError] after its diagnostic.  When a scene heading names a known
    character and no location was established before, the scene location
    is the empty dictionary, and the first name found in the action text
    of the scene raises [KeyError] in [_update_interaction_helper]. *)
Theorem extraction_raises (mode parse_mode_ : parse_mode) :
  let no_newlines :=
    without_newlines ["INT. KITCHEN"; ""; "The KITCHEN is dark."] in
  let heading_is_character :=
    with_newlines ["INT. JOHN"; ""; "JOHN walks."; ""; "   JOHN"] in
  extract mode single_sentence no_newlines parse_mode_
  = (Raise IndexError,
     [[PS "Error: Couldn't find position"; PZ 4;
       PS " in line offsets:"; POffsets []]])
  /\ extract mode single_sentence heading_is_character parse_mode_
     = (Raise KeyError,
        [[PS "ERROR: Encountered"; PS "JOHN";
          PS "in the context of a scene heading - ignoring."]]).
Proof.
  intros no_newlines heading_is_character.
  split; destruct mode; vm_compute; reflexivity.
Qed.

End PipelineClaims.

(** * Further properties of the code *)

(** ** The line classifier: further properties *)

Section ClassifierMore.
Import Chars Regex RegexFacts ClassifierFacts.

(** A line is action text or dialog text, one being the negation of the
    other: the last return of [get_types], for an unhandled line, is never
    reached, so no line gets the line type [ERROR] and the message
    [UNHANDLED LINE TYPE!] is never printed. *)
Theorem get_types_handles_every_line (mode : parse_mode) (line : string)
    (next_line : option string) (prior : types) :
  is_dialog line = negb (is_action line)
  /\ snd (fst (get_types mode line next_line prior)) <> ERROR
  /\ ~ In [PS "UNHANDLED LINE TYPE!"]
         (snd (get_types mode line next_line prior)).
Proof.
  split; [unfold is_dialog, is_action;
          destruct (starts_with_non_space line); reflexivity |].
  unfold get_types, is_dialog, is_action.
  destruct (starts_with_non_space line);
    repeat match goal with
           | |- context [if ?b then _ else _] => destruct b
           end; simpl; split; try discriminate; intuition discriminate.
Qed.

(** A diagnostic is printed only with an [ERROR] classification, and an
    [ERROR] classification comes without one only when the line continues
    a block that is already [ERROR] (a continuation marker, or a line in
    the [CONTINUED] state). *)
Theorem get_types_diagnostics (mode : parse_mode) (line : string)
    (next_line : option string) (prior : types) :
  let r := get_types mode line next_line prior in
  (snd r <> [] -> fst (fst r) = ERROR)
  /\ (fst (fst r) = ERROR -> snd r = [] ->
      fst prior = ERROR
      /\ (snd (fst r) = CONTINUED \/ snd (fst r) = RESUMED)).
Proof.
  unfold get_types.
  repeat match goal with
         | |- context [if ?b then _ else _] => destruct b eqn:?
         end; simpl; split; intros; try congruence; try discriminate;
    auto.
Qed.

Lemma get_types_diagnostics_witness :
  snd (get_types STRICT "John walks in." None (DIALOG, DIALOG)) <> []
  /\ fst (fst (get_types STRICT "John walks in." None (DIALOG, DIALOG)))
     = ERROR.
Proof.
  assert (H : snd (get_types STRICT "John walks in." None (DIALOG, DIALOG))
              <> []) by (vm_compute; discriminate).
  split; [exact H |].
  exact (proj1 (get_types_diagnostics STRICT "John walks in." None
                  (DIALOG, DIALOG)) H).
Defined.

(** Once the front matter has ended no line is classified [FRONT]. *)
Lemma get_types_front_closed (mode : parse_mode) (line : string)
    (next_line : option string) (prior : types) :
  fst prior <> FRONT ->
  fst (fst (get_types mode line next_line prior)) <> FRONT.
Proof.
  intros H. unfold get_types.
  rewrite (bool_decide_eq_false_2 _ H). simpl.
  repeat match goal with
         | |- context [if ?b then _ else _] => destruct b
         end; simpl; try discriminate; exact H.
Qed.

Lemma parse_line_front_closed (mode : parse_mode) (l : line)
    (next_line : option string) (st : pstate) :
  fst (prior_types st) <> FRONT ->
  st_front (parse_line mode l next_line st) = st_front st
  /\ fst (prior_types (parse_line mode l next_line st)) <> FRONT.
Proof.
  intros H. unfold parse_line.
  pose proof (get_types_front_closed mode (content l) next_line
                (prior_types st) H) as Hf.
  destruct (get_types mode (content l) next_line (prior_types st))
    as [t printed]. simpl in Hf.
  rewrite (bool_decide_eq_false_2 _ Hf).
  repeat case_bool_decide; simpl; auto.
Qed.

(** The front matter is a prefix of the script: after the first line that
    is not classified [FRONT], the front span recorded by the segmenter
    does not change any more, whatever lines follow. *)
Theorem front_matter_is_a_prefix (mode : parse_mode) (ls : list line)
    (st : pstate) :
  fst (prior_types st) <> FRONT ->
  st_front (parse_lines mode ls st) = st_front st
  /\ fst (prior_types (parse_lines mode ls st)) <> FRONT.
Proof.
  revert st. induction ls as [|l rest IH]; intros st H; [simpl; auto |].
  cbn [parse_lines].
  match goal with
  | |- context [parse_line mode l ?n st] =>
      destruct (parse_line_front_closed mode l n st H) as [Hf Hp];
      destruct (IH (parse_line mode l n st) Hp) as [Hf' Hp']
  end.
  split; [congruence | exact Hp'].
Qed.

Lemma front_matter_is_a_prefix_witness :
  let st :=
    parse_lines STRICT (with_newlines ["Title"; "INT. ROOM"]) initial_pstate in
  fst (prior_types st) <> FRONT
  /\ st_front (parse_lines STRICT
                 (numbered_from 3 ["          FADE IN:"; "x"]) st)
     = (1, 1).
Proof.
  intros st.
  assert (H : fst (prior_types st) <> FRONT) by (vm_compute; discriminate).
  split; [exact H |].
  rewrite (proj1 (front_matter_is_a_prefix STRICT
                    (numbered_from 3 ["          FADE IN:"; "x"]) st H)).
  vm_compute. reflexivity.
Defined.

End ClassifierMore.

(** ** The noun registry and the interaction graph: further properties *)

Section RegistryMore.
Import RegistryFacts GraphFacts.

Lemma update_noun_type_rank (old_type new_type : ntype) :
  rank (fst (update_noun_type old_type new_type))
  = Nat.max (rank old_type) (rank new_type)
  /\ (fst (update_noun_type old_type new_type) = old_type
      \/ fst (update_noun_type old_type new_type) = new_type).
Proof. destruct old_type, new_type; simpl; auto. Qed.

Lemma update_presence_highest (P : Presences) (p : presence) :
  highest_logged P -> highest_logged (fst (update_presence P p)).
Proof.
  intros HP nm. specialize (HP nm). simpl in HP.
  rewrite authoritative_type_update, update_presence_log, filter_app, map_app.
  destruct (decide (nm = name p)) as [-> | Hne].
  - rewrite (filter_cons_True (named (name p)) p []) by reflexivity.
    rewrite filter_nil. simpl map.
    destruct (update_noun_type_rank
                (default (noun_type p) (authoritative_type P (name p)))
                (noun_type p)) as [Hr Hc].
    destruct (authoritative_type P (name p)) as [t|]; simpl in *.
    + destruct HP as [Hin Hmax]. split.
      * apply in_or_app. destruct Hc as [-> | ->]; [left; exact Hin |].
        right. left. reflexivity.
      * intros t' Ht'. rewrite Hr. apply in_app_or in Ht' as [Ht' | Ht'].
        -- specialize (Hmax t' Ht'). lia.
        -- destruct Ht' as [<- | []]. lia.
    + rewrite HP. simpl. split.
      * left. destruct Hc as [-> | ->]; reflexivity.
      * intros t' [<- | []]. rewrite Hr. lia.
  - rewrite (filter_cons_False (named nm) p [])
      by (unfold named; congruence).
    rewrite filter_nil, app_nil_r. exact HP.
Qed.

(** The authoritative type of a name is the highest, in the lattice
    [THING < LOCATION < CHARACTER], of the types of the presences
    registered for the name; a name without presence has none. *)
Theorem authoritative_type_is_highest (ps : list presence) (nm : string) :
  let P := update_presences new_Presences ps in
  let ts := map noun_type (filter (named nm) ps) in
  match authoritative_type P nm with
  | None => ts = []
  | Some t => In t ts /\ forall t', In t' ts -> (rank t' <= rank t)%nat
  end.
Proof.
  assert (Hgen : forall ps P, highest_logged P ->
                              highest_logged (update_presences P ps)).
  { clear. induction ps as [|p ps IH]; intros P HP; simpl; [exact HP |].
    apply IH, update_presence_highest, HP. }
  pose proof (Hgen ps new_Presences) as H.
  assert (H0 : highest_logged new_Presences) by (intros x; reflexivity).
  specialize (H H0 nm). simpl in H.
  rewrite update_presences_log in H. exact H.
Qed.

Lemma update_presence_mirror (P : Presences) (p : presence) :
  indices_mirror_log P -> indices_mirror_log (fst (update_presence P p)).
Proof.
  intros HP nm sid. destruct (HP nm sid) as [Hn Hs].
  rewrite ns_list_update, sn_list_update, update_presence_log, filter_app.
  rewrite Hn, Hs.
  case_decide as Hd.
  - rewrite (filter_cons_True (named_in nm sid) p [])
      by (unfold named_in; destruct Hd; split; congruence).
    rewrite filter_nil. auto.
  - rewrite (filter_cons_False (named_in nm sid) p [])
      by (unfold named_in; intros [? ?]; apply Hd; split; congruence).
    rewrite filter_nil, app_nil_r. auto.
Qed.

(** Both indices hold, under a name and a scene id, exactly the logged
    presences of that name in that scene, in the order of the log; the
    list of a missing key counts as empty. *)
Theorem presence_indices_mirror_log (ps : list presence) (nm : string)
    (sid : Z) :
  let P := update_presences new_Presences ps in
  ns_list P nm sid = filter (named_in nm sid) ps
  /\ sn_list P sid nm = filter (named_in nm sid) ps.
Proof.
  assert (Hgen : forall ps P, indices_mirror_log P ->
                              indices_mirror_log (update_presences P ps)).
  { clear. induction ps as [|p ps IH]; intros P HP; simpl; [exact HP |].
    apply IH, update_presence_mirror, HP. }
  assert (H0 : indices_mirror_log new_Presences)
    by (intros x y; split; reflexivity).
  pose proof (Hgen ps new_Presences H0 nm sid) as H.
  rewrite update_presences_log in H. exact H.
Qed.

Lemma index_copies_get_interaction (n1 n2 : string) (sid : Z)
    (a b : presence) (w : where_t) (it : itype) :
  let i := get_interaction (Some a) b w it in
  index_copies n1 n2 sid i
  = (if decide (n1 = name a /\ n2 = name b /\ sid = scene_id w)
     then [i] else [])
    ++ (if decide (n1 = name b /\ n2 = name a /\ sid = scene_id w)
        then [i] else []).
Proof.
  intros i. unfold index_copies.
  repeat case_decide; simpl in *; try reflexivity; keys_contradict.
Qed.

(** The lists of the two indices after [update_interaction] between two
    presences. *)
Lemma update_interaction_lists (G : Interactions) (a b : presence)
    (w : where_t) (it : itype) :
  let i := get_interaction (Some a) b w it in
  exists G',
    update_interaction G (Some a) b w it = (Ok tt, G')
    /\ interactions G' = interactions G ++ [i]
    /\ (forall n1 n2 sid,
          index_list (interaction_ns G') n1 n2 sid
          = index_list (interaction_ns G) n1 n2 sid
            ++ index_copies n1 n2 sid i)
    /\ (forall n1 n2 sid,
          index_list (interaction_sn G') sid n1 n2
          = index_list (interaction_sn G) sid n1 n2
            ++ index_copies n1 n2 sid i).
Proof.
  intros i. unfold update_interaction. fold i. simpl name_of.
  destruct (helper_lists (interaction_ns G) (name a) (name b) (scene_id w) i)
    as (ns1 & E1 & L1).
  rewrite E1.
  destruct (helper_lists ns1 (name b) (name a) (scene_id w) i)
    as (ns2 & E2 & L2).
  rewrite E2.
  destruct (helper_lists (interaction_sn G) (scene_id w) (name a) (name b) i)
    as (sn1 & E3 & L3).
  rewrite E3.
  destruct (helper_lists sn1 (scene_id w) (name b) (name a) i)
    as (sn2 & E4 & L4).
  rewrite E4.
  eexists. split; [reflexivity |]. simpl.
  split; [reflexivity |].
  split; intros n1 n2 sid.
  - rewrite L2, L1. subst i.
    rewrite (index_copies_get_interaction n1 n2 sid a b w it).
    repeat case_decide; rewrite <- ?app_assoc, ?app_nil_r;
      try reflexivity; keys_contradict.
  - rewrite L4, L3. subst i.
    rewrite (index_copies_get_interaction n1 n2 sid a b w it).
    repeat case_decide; rewrite <- ?app_assoc, ?app_nil_r;
      try reflexivity; keys_contradict.
Qed.

Lemma update_interactions_lists (cs : list call) :
  forall G,
    exists G',
      update_interactions G cs = (Ok tt, G')
      /\ interactions G' = interactions G ++ map interaction_of cs
      /\ (forall n1 n2 sid,
            index_list (interaction_ns G') n1 n2 sid
            = index_list (interaction_ns G) n1 n2 sid
              ++ flat_map (index_copies n1 n2 sid) (map interaction_of cs))
      /\ (forall n1 n2 sid,
            index_list (interaction_sn G') sid n1 n2
            = index_list (interaction_sn G) sid n1 n2
              ++ flat_map (index_copies n1 n2 sid) (map interaction_of cs)).
Proof.
  induction cs as [|c cs IH]; intros G.
  - exists G. simpl. split; [reflexivity |].
    split; [rewrite app_nil_r; reflexivity |].
    split; intros; rewrite app_nil_r; reflexivity.
  - destruct (update_interaction_lists G (call_a c) (call_b c)
                (call_where c) (call_type c)) as (G1 & E & Hlog & Hns & Hsn).
    unfold update_interactions; fold update_interactions. rewrite E.
    destruct (IH G1) as (G' & E' & Hlog' & Hns' & Hsn').
    exists G'. split; [exact E' |].
    split; [rewrite Hlog', Hlog, <- app_assoc; reflexivity |].
    split; intros n1 n2 sid; simpl.
    + rewrite Hns', Hns, <- app_assoc. reflexivity.
    + rewrite Hsn', Hsn, <- app_assoc. reflexivity.
Qed.

Lemma index_copies_sym (n1 n2 : string) (sid : Z) (i : interaction) :
  index_copies n1 n2 sid i = index_copies n2 n1 sid i.
Proof.
  unfold index_copies. repeat case_decide; reflexivity.
Qed.

(** For a graph built from the empty one by calls of [update_interaction]
    between presences: the list at [interaction_ns[n1][n2][sid]] holds, in
    the order of the log, the logged interactions that link the two names
    in the scene, in either order of the participants; it is the list at
    [interaction_ns[n2][n1][sid]] and the list at
    [interaction_sn[sid][n1][n2]]; and an interaction of a name with
    itself is held twice. *)
Theorem interaction_indices_mirror_log (cs : list call) (n1 n2 : string)
    (sid : Z) :
  exists G,
    update_interactions new_Interactions cs = (Ok tt, G)
    /\ interactions G = map interaction_of cs
    /\ index_list (interaction_ns G) n1 n2 sid
       = flat_map (index_copies n1 n2 sid) (interactions G)
    /\ index_list (interaction_ns G) n2 n1 sid
       = index_list (interaction_ns G) n1 n2 sid
    /\ index_list (interaction_sn G) sid n1 n2
       = index_list (interaction_ns G) n1 n2 sid
    /\ (forall i, self_interaction i -> name (int_b i) = n1 -> n2 = n1 ->
                  scene_id (int_where i) = sid ->
                  index_copies n1 n2 sid i = [i; i]).
Proof.
  destruct (update_interactions_lists cs new_Interactions)
    as (G & E & Hlog & Hns & Hsn).
  simpl in Hlog. exists G. split; [exact E |]. split; [exact Hlog |].
  rewrite Hlog, !Hns, Hsn. simpl.
  split; [reflexivity |].
  split; [f_equal; apply flat_map_ext; intros i;
          apply index_copies_sym |].
  split; [reflexivity |].
  intros i Hself Hb -> Hs. unfold index_copies, self_interaction in *.
  rewrite !decide_True by (repeat split; congruence). reflexivity.
Qed.

(** With the empty dictionary as first participant [update_interaction]
    raises [KeyError] after it has appended the interaction to the log and
    before it touches an index: the graph it leaves is not consistent. *)
Theorem update_interaction_without_name (G : Interactions) (b : presence)
    (w : where_t) (it : itype) :
  update_interaction G None b w it
  = (Raise KeyError,
     {| interactions := interactions G ++ [get_interaction None b w it];
        interaction_ns := interaction_ns G;
        interaction_sn := interaction_sn G |})
  /\ ~ Interactions_consistent (snd (update_interaction G None b w it)).
Proof.
  split; [reflexivity |].
  intros H. simpl in H.
  destruct (H (get_interaction None b w it)) as (a & Ha & _).
  - apply elem_of_app. right. apply list_elem_of_here.
  - discriminate.
Qed.

End RegistryMore.

(** ** The offset mapper: further properties *)

Section OffsetMore.
Import Chars Regex RegexFacts OffsetFacts.

Lemma split_lines_length (text : string) :
  length (Py.split_lines text) = S (count_newlines text).
Proof.
  induction text as [|c t IH]; simpl; [reflexivity |].
  destruct (is_char LF c); simpl; [rewrite IH; reflexivity |].
  destruct (Py.split_lines t) as [|hd tl]; simpl in *; [discriminate | lia].
Qed.

Lemma line_offsets_from_length (segments : list string) :
  forall total_offset first_line_ k,
    length (line_offsets_from segments total_offset first_line_ k)
    = length segments.
Proof.
  induction segments as [|seg rest IH]; intros; simpl; [|rewrite IH];
    reflexivity.
Qed.

Lemma removelast_length {A} (l : list A) :
  length (removelast l) = pred (length l).
Proof.
  induction l as [|x [|y l] IH]; simpl in *; try reflexivity.
  rewrite IH. reflexivity.
Qed.

(** The offset table has one entry for each newline of the text. *)
Theorem line_offsets_per_newline (text : string) (first_line_ : Z) :
  length (get_line_offsets text first_line_) = count_newlines text.
Proof.
  unfold get_line_offsets.
  rewrite removelast_length, line_offsets_from_length, split_lines_length.
  reflexivity.
Qed.

(** On the table of a text: when the end offset of some entry exceeds the
    position, [get_line_for_offset] returns, without diagnostic, the
    lowest line number of such an entry; when none does and the table has
    an entry, it prints its diagnostic and returns the first line. *)
Theorem line_for_offset_lowest (text : string) (first_line_ pos : Z) :
  let table := get_line_offsets text first_line_ in
  (forall off0 ln0,
     In (off0, ln0) table -> pos < off0 ->
     exists ln,
       get_line_for_offset table pos = (Ok ln, [])
       /\ (exists off, In (off, ln) table /\ pos < off)
       /\ (forall off' ln', In (off', ln') table -> pos < off' -> ln <= ln'))
  /\ ((forall off ln, In (off, ln) table -> off <= pos) ->
      table <> [] ->
      get_line_for_offset table pos
      = (Ok first_line_,
         [[PS "Error: Couldn't find position"; PZ pos;
           PS " in line offsets:"; POffsets table]])).
Proof.
  intros table.
  pose proof (get_line_for_offset_spec text first_line_ pos) as H.
  fold table in H. simpl in H.
  destruct (find_line table pos) as [ln|] eqn:Hf.
  - destruct H as (E & Hex & Hlow). split.
    + intros _ _ _ _. exists ln. auto.
    + intros Hnone. destruct Hex as (off & Hin & Hlt).
      specialize (Hnone off ln Hin). lia.
  - destruct H as (Hnone & E). split.
    + intros off0 ln0 Hin Hlt. specialize (Hnone off0 ln0 Hin). lia.
    + intros _ Hne. rewrite E.
      rewrite bool_decide_eq_false_2 by exact Hne. reflexivity.
Qed.

Lemma line_for_offset_lowest_witness :
  let text := unlines ["The door"; "JOHN enters."] in
  In (9, 7) (get_line_offsets text 7)
  /\ 3 < 9
  /\ get_line_for_offset (get_line_offsets text 7) 3 = (Ok 7, []).
Proof.
  intros text.
  assert (Hin : In (9, 7) (get_line_offsets text 7))
    by (vm_compute; left; reflexivity).
  assert (Hlt : 3 < 9) by lia.
  split; [exact Hin |]. split; [exact Hlt |].
  destruct (proj1 (line_for_offset_lowest text 7 3) 9 7 Hin Hlt)
    as (ln & E & _).
  rewrite E. vm_compute in E. congruence.
Defined.

Lemma split_lines_line (seg rest : string) :
  no_newline seg ->
  Py.split_lines (seg +:+ String LF rest) = seg :: Py.split_lines rest.
Proof.
  unfold no_newline. induction seg as [|c s IH]; simpl; intros H.
  - reflexivity.
  - apply orb_false_iff in H as [Hc Hs]. rewrite Hc, (IH Hs). reflexivity.
Qed.

Lemma app_assoc_string (s t u : string) : (s +:+ t) +:+ u = s +:+ t +:+ u.
Proof. induction s; simpl; congruence. Qed.

Lemma split_lines_unlines (segments : list string) :
  Forall no_newline segments ->
  Py.split_lines (unlines segments) = segments ++ [EmptyString].
Proof.
  unfold unlines. induction 1 as [|seg rest Hseg _ IH]; simpl;
    [reflexivity |].
  rewrite app_assoc_string. unfold newline at 1.
  change (String LF EmptyString +:+ ?r) with (String LF r).
  rewrite (split_lines_line _ _ Hseg), IH. reflexivity.
Qed.

Lemma line_offsets_from_app (l1 l2 : list string) :
  forall total_offset first_line_ k,
    exists total_offset',
      line_offsets_from (l1 ++ l2) total_offset first_line_ k
      = line_offsets_from l1 total_offset first_line_ k
        ++ line_offsets_from l2 total_offset' first_line_
             (k + Z.of_nat (length l1)).
Proof.
  induction l1 as [|seg rest IH]; intros tot fl k; simpl.
  - exists tot. rewrite Z.add_0_r. reflexivity.
  - destruct (IH (tot + Py.len seg + 1) fl (k + 1)) as (tot' & E).
    exists tot'. rewrite E. do 3 f_equal. lia.
Qed.

Lemma removelast_snoc {A} (l : list A) (x : A) : removelast (l ++ [x]) = l.
Proof.
  induction l as [|y l IH]; simpl; [reflexivity |].
  destruct (l ++ [x]) eqn:E; [destruct l; discriminate |].
  rewrite IH. reflexivity.
Qed.

(** On newline-terminated lines the table has the entry of each line. *)
Lemma get_line_offsets_unlines (segments : list string) (first_line_ : Z) :
  Forall no_newline segments ->
  get_line_offsets (unlines segments) first_line_
  = line_offsets_from segments 0 first_line_ 0.
Proof.
  intros H. unfold get_line_offsets. rewrite (split_lines_unlines _ H).
  destruct (line_offsets_from_app segments [EmptyString] 0 first_line_ 0)
    as (tot' & ->).
  simpl. apply removelast_snoc.
Qed.

Lemma len_app (s t : string) : Py.len (s +:+ t) = Py.len s + Py.len t.
Proof.
  unfold Py.len. induction s as [|c s IH]; simpl String.length; [simpl; lia |].
  simpl. rewrite !Nat2Z.inj_succ. lia.
Qed.

Lemma len_unlines_cons (seg : string) (rest : list string) :
  Py.len (unlines (seg :: rest)) = Py.len seg + 1 + Py.len (unlines rest).
Proof.
  unfold unlines. simpl. rewrite !len_app. unfold newline, Py.len. simpl. lia.
Qed.

Lemma len_nonneg (s : string) : 0 <= Py.len s.
Proof. unfold Py.len. lia. Qed.

Lemma find_line_in_line (pre : list string) :
  forall (seg : string) (post : list string) (total_offset first_line_ k p : Z),
    total_offset + Py.len (unlines pre) <= p
    < total_offset + Py.len (unlines pre) + Py.len seg + 1 ->
    find_line (line_offsets_from (pre ++ seg :: post) total_offset
                 first_line_ k) p
    = Some (first_line_ + k + Z.of_nat (length pre)).
Proof.
  induction pre as [|s pre IH]; intros seg post tot fl k p Hp; simpl.
  - change (Py.len (unlines [])) with 0 in Hp.
    destruct (Z.ltb_spec p (tot + Py.len seg + 1)); [f_equal; lia | lia].
  - rewrite len_unlines_cons in Hp.
    pose proof (len_nonneg (unlines pre)).
    destruct (Z.ltb_spec p (tot + Py.len s + 1)); [lia |].
    rewrite (IH seg post (tot + Py.len s + 1) fl (k + 1) p) by lia.
    f_equal. lia.
Qed.

(** Round trip of the offset mapper.  In a text of newline-terminated
    lines, every position of a line (its newline included) is mapped back
    to the number of that line, without diagnostic. *)
Theorem line_for_offset_round_trip (pre : list string) (seg : string)
    (post : list string) (first_line_ p : Z) :
  Forall no_newline (pre ++ seg :: post) ->
  Py.len (unlines pre) <= p < Py.len (unlines pre) + Py.len seg + 1 ->
  get_line_for_offset
    (get_line_offsets (unlines (pre ++ seg :: post)) first_line_) p
  = (Ok (first_line_ + Z.of_nat (length pre)), []).
Proof.
  intros Hnl Hp. rewrite (get_line_offsets_unlines _ _ Hnl).
  unfold get_line_for_offset.
  rewrite (find_line_in_line pre seg post 0 first_line_ 0 p) by lia.
  do 2 f_equal. lia.
Qed.

Lemma line_for_offset_round_trip_witness :
  Forall no_newline (["The door"] ++ "JOHN enters." :: ["He sits."])
  /\ Py.len (unlines ["The door"]) <= 9
     < Py.len (unlines ["The door"]) + Py.len "JOHN enters." + 1
  /\ get_line_for_offset
       (get_line_offsets
          (unlines (["The door"] ++ "JOHN enters." :: ["He sits."])) 7) 9
     = (Ok (7 + Z.of_nat (length ["The door"])), []).
Proof.
  assert (Hnl : Forall no_newline
                  (["The door"] ++ "JOHN enters." :: ["He sits."]))
    by (repeat constructor).
  assert (Hp : Py.len (unlines ["The door"]) <= 9
               < Py.len (unlines ["The door"]) + Py.len "JOHN enters." + 1)
    by (vm_compute; split; [discriminate | reflexivity]).
  split; [exact Hnl |]. split; [exact Hp |].
  apply (line_for_offset_round_trip ["The door"] "JOHN enters."
           ["He sits."] 7 9 Hnl Hp).
Defined.

End OffsetMore.

(** ** The sentence-level extractor: further properties *)

Section ExtractorMore.

Lemma get_name_offsets_names (P : Presences) (text : string)
    (new_nouns : list (string * ntype)) (nm : string) (o : Z) :
  In (nm, o) (get_name_offsets P text new_nouns) ->
  is_Some (presence_ns P !! nm) \/ In nm (map fst new_nouns).
Proof.
  unfold get_name_offsets. intros Hin.
  apply list_elem_of_In in Hin.
  rewrite merge_sort_Permutation, elem_of_remove_dups in Hin.
  apply elem_of_app in Hin as [Hin | Hin];
    apply list_elem_of_In, in_flat_map in Hin as (x & Hx & Hin);
    apply in_map_iff in Hin as (o' & [= <- <-] & _).
  - left. apply in_map_iff in Hx as ([k e] & <- & Hk).
    apply list_elem_of_In, elem_of_map_to_list in Hk. simpl. eauto.
  - right. apply in_map. exact Hx.
Qed.


Lemma get_name_offsets_empty (P : Presences) (text : string) :
  presence_ns P = ∅ -> get_name_offsets P text [] = [].
Proof.
  intros H. unfold get_name_offsets. rewrite H, map_to_list_empty.
  reflexivity.
Qed.

Lemma presences_of_sentences_empty (sent_tokenize : string -> list string)
    (script_lines : list line) (line_offsets : list (Z * Z)) (sid : Z)
    (scene_location : option presence) (ptype_ : itype)
    (sentences : list string) :
  forall (prior_offset : Z) (result : list presence) (w : world),
    presence_ns (w_presences w) = ∅ ->
    presences_of_sentences STRICT script_lines line_offsets sid
      scene_location ptype_ sentences prior_offset result w
    = (Ok result, w).
Proof.
  induction sentences as [|sent rest IH]; intros prior result w Hw;
    [reflexivity |].
  cbn [presences_of_sentences]. unfold bind at 1. unfold get_Presences.
  rewrite (get_name_offsets_empty _ _ Hw).
  cbn [presences_of_sentence]. unfold bind, ret. cbn [combinations2 for_each].
  unfold ret. rewrite (IH _ _ w Hw), app_nil_r. reflexivity.
Qed.

(** In strict mode, while no name is registered, the extractor finds
    nothing in any lines, whatever the sentence tokenizer returns: it
    returns the empty list and leaves the registry, the graph and the
    output as they are.  (Names are only learnt from scene headings and
    dialog headers.) *)
Theorem strict_mode_learns_nothing (sent_tokenize : string -> list string)
    (script_lines : list line) (first_line_ last_line_ sid : Z)
    (scene_location : option presence) (ptype_ : itype) (w : world) :
  presence_ns (w_presences w) = ∅ ->
  update_presence_and_interactions_for_lines STRICT sent_tokenize
    script_lines first_line_ last_line_ sid scene_location ptype_ w
  = (Ok [], w).
Proof.
  intros Hw. unfold update_presence_and_interactions_for_lines.
  apply (presences_of_sentences_empty sent_tokenize), Hw.
Qed.

Lemma strict_mode_learns_nothing_witness :
  presence_ns (w_presences new_world) = ∅
  /\ update_presence_and_interactions_for_lines STRICT single_sentence
       (with_newlines ["JOHN walks into the KITCHEN."]) 1 1 1 None APPEAR
       new_world
     = (Ok [], new_world).
Proof.
  assert (H : presence_ns (w_presences new_world) = ∅) by reflexivity.
  split; [exact H |].
  apply (strict_mode_learns_nothing single_sentence
           (with_newlines ["JOHN walks into the KITCHEN."]) 1 1 1 None
           APPEAR new_world H).
Defined.

End ExtractorMore.

(** ** The segmenter: further properties *)

Section SegmenterMore.

Lemma parse_line_front (mode : parse_mode) (l : line)
    (next_line : option string) (st : pstate) :
  prior_types st = (FRONT, FRONT) ->
  is_scene_header mode (content l) = false ->
  parse_line mode l next_line st
  = {| st_front := (1, line_no l); st_scenes := st_scenes st;
       current_scene := current_scene st; current_block := current_block st;
       prior_types := (FRONT, FRONT); st_line_no := Some (line_no l);
       st_out := st_out st |}.
Proof.
  intros Hp Hh. unfold parse_line, get_types. rewrite Hp, Hh. simpl.
  destruct (is_empty_line (content l)); simpl; rewrite app_nil_r;
    reflexivity.
Qed.

Lemma last_of_cons {A} (l : list A) :
  forall x, exists y, last_of (x :: l) = Some y.
Proof.
  induction l as [|z l IH]; intros x; [exists x; reflexivity |].
  destruct (IH z) as (y & Hy). exists y. exact Hy.
Qed.

Lemma parse_lines_front (mode : parse_mode) (ls : list line) :
  forall st,
    prior_types st = (FRONT, FRONT) ->
    Forall (fun l => is_scene_header mode (content l) = false) ls ->
    parse_lines mode ls st
    = match last_of ls with
      | None => st
      | Some l =>
          {| st_front := (1, line_no l); st_scenes := st_scenes st;
             current_scene := current_scene st;
             current_block := current_block st;
             prior_types := (FRONT, FRONT); st_line_no := Some (line_no l);
             st_out := st_out st |}
      end.
Proof.
  induction ls as [|l rest IH]; intros st Hp Hall; [reflexivity |].
  apply Forall_cons in Hall as [Hl Hrest].
  cbn [parse_lines]. rewrite (parse_line_front _ _ _ _ Hp Hl).
  rewrite IH by (auto; reflexivity).
  destruct rest as [|l' rest']; [reflexivity |].
  change (last_of (l :: l' :: rest')) with (last_of (l' :: rest')).
  destruct (last_of_cons rest' l') as (y & ->). reflexivity.
Qed.

Lemma parse_script_lines_front_only (mode : parse_mode) (script_lines : list line) :
  Forall (fun l => is_scene_header mode (content l) = false) script_lines ->
  parse_script_lines mode script_lines
  = (Ok {| front := match last_of script_lines with
                    | None => (0, 0)
                    | Some l => (1, line_no l)
                    end;
           scenes := ∅; total_words := 0; dialog_words := 0 |}, []).
Proof.
  intros Hall. unfold parse_script_lines.
  rewrite (parse_lines_front mode script_lines initial_pstate eq_refl Hall).
  assert (Hflush : forall st,
            scene_number (current_scene st) = 0 -> st_scenes st = ∅ ->
            map_to_list (flush st) = []).
  { intros st Hn Hs. unfold flush. simpl. rewrite Hn, Hs.
    rewrite delete_insert_eq, delete_empty. apply map_to_list_empty. }
  destruct (last_of script_lines) as [l|]; rewrite Hflush by reflexivity;
    reflexivity.
Qed.

(** A script without a scene heading is front matter only: the segmenter
    returns a structure without scenes, with zero word counts, whose front
    span runs from line 1 to the last line, and prints nothing. *)
Theorem front_matter_only (mode : parse_mode) (script_lines : list line) :
  Forall (fun l => is_scene_header mode (content l) = false) script_lines ->
  parse_script_lines mode script_lines
  = (Ok {| front := match last_of script_lines with
                    | None => (0, 0)
                    | Some l => (1, line_no l)
                    end;
           scenes := ∅; total_words := 0; dialog_words := 0 |}, []).
Proof. apply parse_script_lines_front_only. Qed.

Lemma front_matter_only_witness :
  let script := with_newlines ["A SCREENPLAY"; ""; "by someone"] in
  Forall (fun l => is_scene_header STRICT (content l) = false) script
  /\ parse_script_lines STRICT script
     = (Ok {| front := (1, 3); scenes := ∅; total_words := 0;
              dialog_words := 0 |}, []).
Proof.
  intros script.
  assert (H : Forall (fun l => is_scene_header STRICT (content l) = false)
                script) by (repeat constructor).
  split; [exact H |].
  apply (front_matter_only STRICT script H).
Defined.

End SegmenterMore.

(** ** The blocks and scenes of the document tree *)

Section TreeMore.
Import WordFacts SegmenterFacts.

Lemma chained_from_snoc (bs : list block) :
  forall (start : Z) (b : block),
    chained_from start (bs ++ [b])
    <-> chained_from start bs
        /\ first_line b = chain_end start bs + 1
        /\ first_line b <= last_line b.
Proof.
  induction bs as [|x bs IH]; intros start b; simpl.
  - split; [intros (? & ? & _) | intros (_ & ? & ?)]; repeat split; auto; lia.
  - rewrite IH. tauto.
Qed.

Lemma chain_end_snoc (bs : list block) :
  forall (start : Z) (b : block),
    chain_end start (bs ++ [b]) = last_line b.
Proof.
  induction bs as [|x bs IH]; intros start b; simpl; [lia | apply IH].
Qed.

Lemma chained_from_lines (bs bs' : list block) :
  map block_lines bs = map block_lines bs' ->
  forall start,
    (chained_from start bs <-> chained_from start bs')
    /\ chain_end start bs = chain_end start bs'.
Proof.
  revert bs'. induction bs as [|b bs IH]; intros [|b' bs'] H start;
    try discriminate; simpl; [tauto |].
  simpl in H. injection H as Ht Hf Hl Hrest. rewrite Hf, Hl.
  destruct (IH bs' Hrest (last_line b' + 1)) as [Hc He].
  rewrite Hc, He. tauto.
Qed.

Lemma head_snoc (bs : list block) (b : block) (t : ptype) :
  (exists x rest, bs ++ [b] = x :: rest /\ block_type x = t) ->
  forall b', block_type b' = block_type b ->
             exists x rest, bs ++ [b'] = x :: rest /\ block_type x = t.
Proof.
  intros (x & rest & E & Hx) b' Hb'. destruct bs as [|y bs]; simpl in *.
  - injection E as <- <-. exists b', []. split; [reflexivity | congruence].
  - injection E as <- <-. eauto.
Qed.

Lemma head_snoc_more (bs : list block) (b c : block) (t : ptype) :
  (exists x rest, bs ++ [b] = x :: rest /\ block_type x = t) ->
  exists x rest, (bs ++ [b]) ++ [c] = x :: rest /\ block_type x = t.
Proof.
  intros (x & rest & E & Hx). rewrite E. simpl. eauto.
Qed.

Lemma initial_segmenting : segmenting 0 initial_pstate.
Proof.
  unfold segmenting. simpl.
  split; [lia |].
  split; [intros k; rewrite lookup_empty; split;
          [intros [? ?]; discriminate | lia] |].
  split; [intros k sc H; rewrite lookup_empty in H; discriminate |].
  split; [intros H; contradiction |].
  split; [reflexivity |]. split; [lia |].
  split; [intros k sc sc' _ H; rewrite lookup_empty in H; discriminate |].
  intros sc _ H; rewrite lookup_empty in H; discriminate.
Qed.

(** One line numbered [m + 1] keeps the scenes and blocks in order. *)
Lemma parse_line_segmenting (mode : parse_mode) (m : Z) (l : line)
    (next_line : option string) (st : pstate) :
  line_no l = m + 1 ->
  segmenting m st -> segmenting (m + 1) (parse_line mode l next_line st).
Proof.
  intros Hl (Hnum & Hkeys & Hstored & Hout & Hfront & Hcur & Hadj & Hprev).
  unfold parse_line.
  pose proof (get_types_front_closed mode (content l) next_line
                (prior_types st)) as Hclosed.
  destruct (get_types mode (content l) next_line (prior_types st))
    as [t printed]. simpl in Hclosed.
  destruct (decide (fst t = FRONT)) as [Ht | Ht].
  { rewrite (bool_decide_eq_true_2 _ Ht). unfold segmenting. simpl.
    assert (Hp : fst (prior_types st) = FRONT).
    { destruct (decide (fst (prior_types st) = FRONT)); [assumption |].
      exfalso. apply Hclosed; assumption. }
    specialize (Hfront Hp).
    split; [lia |]. split; [exact Hkeys |]. split; [exact Hstored |].
    split; [intros Hp'; contradiction |].
    split; [intros _; exact Hfront |]. split; [intros H1; lia |].
    split; [exact Hadj | exact Hprev]. }
  rewrite (bool_decide_eq_false_2 _ Ht).
  assert (Hnew : forall bs start,
            chained_from start bs -> chain_end start bs = m ->
            chained_from start (bs ++ [new_block t (line_no l)])
            /\ chain_end start (bs ++ [new_block t (line_no l)]) = m + 1).
  { intros bs start Hc He. rewrite chained_from_snoc, chain_end_snoc.
    simpl. rewrite He. repeat split; auto; lia. }
  destruct (decide (fst t = ERROR)) as [He | He].
  { rewrite (bool_decide_eq_true_2 _ He). unfold segmenting. simpl.
    split; [exact Hnum |]. split; [exact Hkeys |]. split; [exact Hstored |].
    split; [intros _; split; [congruence | reflexivity] |].
    split; [congruence |].
    split; [| split; [exact Hadj | exact Hprev]].
    intros H1. destruct (Hcur H1) as (Hh & Hc & Hend & Hhead).
    split; [exact Hh |].
    assert (Hty : block_type (current_block st) = fst (prior_types st)).
    { apply Hout. intros Hp. specialize (Hfront Hp). lia. }
    assert (Hsame : map block_lines
                      (scene_blocks (current_scene st)
                       ++ [set_block_type (current_block st)
                             (fst (prior_types st))])
                    = map block_lines
                        (scene_blocks (current_scene st)
                         ++ [current_block st])).
    { rewrite !map_app. simpl. unfold block_lines at 2 4. simpl.
      rewrite Hty. reflexivity. }
    destruct (chained_from_lines _ _ Hsame
                (scene_first_line (current_scene st))) as [Hc' He'].
    destruct (Hnew _ _ (proj2 Hc' Hc) (eq_trans He' Hend)) as [Hc2 He2].
    split; [exact Hc2 |]. split; [exact He2 |].
    apply head_snoc_more.
    apply (head_snoc _ (current_block st)); [exact Hhead |].
    simpl. rewrite Hty. reflexivity. }
  rewrite (bool_decide_eq_false_2 _ He).
  destruct (decide (fst t = fst (prior_types st))) as [Hs | Hs].
  { rewrite (bool_decide_eq_true_2 _ Hs). unfold segmenting. simpl.
    assert (Hp : fst (prior_types st) <> FRONT) by congruence.
    destruct (Hout Hp) as [Hno Hty].
    split; [exact Hnum |]. split; [exact Hkeys |]. split; [exact Hstored |].
    split; [intros _; split; [congruence | congruence] |].
    split; [congruence |].
    split; [| split; [exact Hadj | exact Hprev]].
    intros H1. destruct (Hcur H1) as (Hh & Hc & Hend & Hhead).
    split; [exact Hh |].
    rewrite chained_from_snoc in Hc. destruct Hc as (Hc & Hf & Hle).
    rewrite chain_end_snoc in Hend.
    rewrite chained_from_snoc, chain_end_snoc. simpl.
    split; [split; [exact Hc | split; [exact Hf | lia]] |].
    split; [lia |].
    apply (head_snoc _ (current_block st)); [exact Hhead | reflexivity]. }
  rewrite (bool_decide_eq_false_2 _ Hs).
  destruct (decide (fst t = SCENE_HEADING)) as [Hsh | Hsh].
  - rewrite (bool_decide_eq_true_2 _ Hsh). unfold segmenting. simpl.
    set (n := scene_number (current_scene st)) in *.
    split; [lia |].
    split.
    { intros k. destruct (decide (k = n)) as [-> | Hk].
      - rewrite lookup_insert_eq. split; [lia | eauto].
      - rewrite lookup_insert_ne by congruence. rewrite Hkeys. lia. }
    split.
    { intros k sc Hk H1. destruct (decide (k = n)) as [-> | Hne].
      - rewrite lookup_insert_eq in Hk. injection Hk as <-.
        destruct (Hcur H1) as (Hh & Hc & Hend & Hhead).
        unfold scene_segmented. simpl.
        split; [reflexivity |]. split; [exact Hh |]. split; [exact Hc |].
        split; [rewrite Hend; f_equal; lia | exact Hhead].
      - rewrite lookup_insert_ne in Hk by congruence. eauto. }
    split; [intros _; split; [congruence | reflexivity] |].
    split; [congruence |].
    split.
    { intros _. split; [reflexivity |].
      split; [repeat split; lia |]. split; [lia |].
      exists (new_block t (line_no l)), [].
      split; [reflexivity | exact Hsh]. }
    split.
    { intros k sc sc' H1 Hk Hk'.
      destruct (decide (k = n)) as [-> | Hne].
      - assert (Hin : is_Some (st_scenes st !! (n + 1))).
        { rewrite lookup_insert_ne in Hk' by lia. eauto. }
        apply Hkeys in Hin. lia.
      - rewrite lookup_insert_ne in Hk by congruence.
        destruct (decide (k + 1 = n)) as [E | Hne'].
        + rewrite E, lookup_insert_eq in Hk'. injection Hk' as <-. simpl.
          apply Hprev; [lia |]. replace (n - 1) with k by lia. exact Hk.
        + rewrite lookup_insert_ne in Hk' by congruence. eauto. }
    intros sc _ Hk. replace (n + 1 - 1) with n in Hk by lia.
    rewrite lookup_insert_eq in Hk. injection Hk as <-. reflexivity.
  - rewrite (bool_decide_eq_false_2 _ Hsh). unfold segmenting. simpl.
    split; [exact Hnum |]. split; [exact Hkeys |]. split; [exact Hstored |].
    split; [intros _; split; [congruence | reflexivity] |].
    split; [congruence |].
    split; [| split; [exact Hadj | exact Hprev]].
    intros H1. destruct (Hcur H1) as (Hh & Hc & Hend & Hhead).
    split; [exact Hh |].
    destruct (Hnew _ _ Hc Hend) as [Hc2 He2].
    split; [exact Hc2 |]. split; [exact He2 |].
    apply head_snoc_more, Hhead.
Qed.

Lemma parse_lines_segmenting (mode : parse_mode) (ls : list line) :
  forall (m : Z) (st : pstate),
    (forall i l, ls !! i = Some l -> line_no l = m + Z.of_nat i + 1) ->
    segmenting m st ->
    segmenting (m + Z.of_nat (length ls)) (parse_lines mode ls st).
Proof.
  induction ls as [|l rest IH]; intros m st Hno Hst.
  - simpl. rewrite Z.add_0_r. exact Hst.
  - cbn [parse_lines length].
    replace (m + Z.of_nat (S (length rest)))
      with ((m + 1) + Z.of_nat (length rest)) by lia.
    apply IH.
    + intros i l' Hi. rewrite (Hno (S i) l' Hi). lia.
    + apply parse_line_segmenting; [|exact Hst].
      rewrite (Hno 0%nat l eq_refl). lia.
Qed.

(** The word-count pass keeps the type and the lines of every block. *)
Lemma count_blocks_lines (script_lines : list line) (bs : list block) :
  forall done td r,
    count_blocks script_lines bs (done, td) = Ok r ->
    exists new,
      fst r = done ++ new /\ map block_lines new = map block_lines bs.
Proof.
  induction bs as [|b rest IH]; intros done [t d] r H; simpl in H.
  - injection H as <-. exists []. simpl. rewrite app_nil_r. auto.
  - case_bool_decide as Hb.
    + apply IH in H as (new & E & Hm).
      exists (set_block_total_words b 0 :: new).
      rewrite E, <- app_assoc. split; [reflexivity |].
      simpl. rewrite Hm. reflexivity.
    + destruct (count_lines script_lines (block_type b) _ (0, d))
        as [[bw dw]|e] eqn:Hc; [|discriminate].
      simpl in H. apply IH in H as (new & E & Hm).
      exists (set_block_total_words b bw :: new).
      rewrite E, <- app_assoc. split; [reflexivity |].
      simpl. rewrite Hm. reflexivity.
Qed.

Lemma count_scene_segmented (script_lines : list line) (k : Z)
    (s s' : scene) :
  count_scene script_lines s = Ok s' ->
  scene_segmented k s ->
  scene_segmented k s'
  /\ scene_first_line s' = scene_first_line s
  /\ scene_last_line s' = scene_last_line s.
Proof.
  unfold count_scene. intros H (Hn & Hh & Hc & Hl & b & rest & Hb & Hty).
  destruct (count_blocks script_lines (scene_blocks s) ([], (0, 0)))
    as [r|e] eqn:Hr; [|discriminate].
  simpl in H. injection H as <-.
  apply count_blocks_lines in Hr as (new & E & Hm). simpl in E.
  destruct (chained_from_lines _ _ Hm (scene_first_line s)) as [Hc' He'].
  unfold scene_segmented. simpl. rewrite E.
  split; [|split; reflexivity].
  split; [exact Hn |]. split; [exact Hh |].
  split; [apply Hc', Hc |]. split; [rewrite He'; exact Hl |].
  rewrite Hb in Hm. destruct new as [|b' rest']; [discriminate |].
  simpl in Hm. injection Hm as Ht _ _ _.
  exists b', rest'. split; [reflexivity | congruence].
Qed.

Lemma count_scenes_each (script_lines : list line)
    (ss : list (Z * scene)) :
  forall acc r,
    count_scenes script_lines ss acc = Ok r ->
    exists new,
      fst r = fst acc ++ new
      /\ map fst new = map fst ss
      /\ forall k s', (k, s') ∈ new ->
           exists s, (k, s) ∈ ss /\ count_scene script_lines s = Ok s'.
Proof.
  induction ss as [|[k s] rest IH]; intros acc r H; simpl in H.
  - injection H as <-. exists []. simpl. rewrite app_nil_r.
    split; [reflexivity |]. split; [reflexivity |].
    intros k s' Hin. inversion Hin.
  - destruct (count_scene script_lines s) as [s'|e] eqn:Hs; [|discriminate].
    simpl in H. apply IH in H as (new & E & Hk & Hall). simpl in E.
    exists ((k, s') :: new). rewrite E, <- app_assoc.
    split; [reflexivity |]. split; [simpl; congruence |].
    intros k0 s0 Hin. apply elem_of_cons in Hin as [[= -> ->] | Hin].
    + exists s. split; [left | exact Hs].
    + destruct (Hall k0 s0 Hin) as (s1 & Hin1 & Hs1).
      exists s1. split; [right; exact Hin1 | exact Hs1].
Qed.

(** Every scene returned is a counted copy of a scene of the loop, under
    the same key, and every scene of the loop is returned. *)
Lemma parse_script_lines_scenes (mode : parse_mode)
    (script_lines : list line) (s : structure) :
  fst (parse_script_lines mode script_lines) = Ok s ->
  let st := parse_lines mode script_lines initial_pstate in
  (forall k, is_Some (scenes s !! k) <-> is_Some (flush st !! k))
  /\ forall k sc', scenes s !! k = Some sc' ->
       exists sc, flush st !! k = Some sc
                  /\ count_scene script_lines sc = Ok sc'.
Proof.
  unfold parse_script_lines. simpl. intros H.
  set (st := parse_lines mode script_lines initial_pstate) in *.
  destruct (count_scenes script_lines (map_to_list (flush st)) ([], (0, 0)))
    as [r|e] eqn:Hc; [|discriminate].
  simpl in H. injection H as <-. simpl.
  apply count_scenes_each in Hc as (new & E & Hk & Hall).
  simpl in E. rewrite E. clear E.
  assert (Hnd : NoDup (new.*1)).
  { change (new.*1) with (fst <$> new).
    replace (fst <$> new) with (map fst new) by reflexivity.
    rewrite Hk. apply NoDup_fst_map_to_list. }
  split.
  - intros k.
    rewrite <- !elem_of_dom.
    rewrite dom_list_to_map_L.
    rewrite !elem_of_list_to_set.
    replace (new.*1) with (map fst new) by reflexivity. rewrite Hk.
    change (map fst (map_to_list (flush st)))
      with ((map_to_list (flush st)).*1).
    rewrite list_elem_of_fmap. split.
    + intros ([k0 sc] & -> & Hin). apply elem_of_map_to_list in Hin.
      simpl. apply elem_of_dom. eauto.
    + intros Hin. apply elem_of_dom in Hin as [sc Hsc].
      exists (k, sc). split; [reflexivity |].
      apply elem_of_map_to_list, Hsc.
  - intros k sc' Hl. apply elem_of_list_to_map_2 in Hl.
    destruct (Hall k sc' Hl) as (sc & Hin & Hs).
    exists sc. split; [apply elem_of_map_to_list, Hin | exact Hs].
Qed.

(** The scenes that [parse_script_lines] returns on lines numbered from 1
    are numbered 1 to [N] without a gap, each under its own number.  Each
    begins with its heading block, its blocks follow each other line by
    line from its first line to its last line, the next scene begins on the
    following line, and the last scene ends with the last line of the
    script. *)
Theorem scenes_follow_the_lines (mode : parse_mode)
    (script_lines : list line) :
  well_numbered script_lines ->
  exists s N,
    fst (parse_script_lines mode script_lines) = Ok s
    /\ 0 <= N
    /\ (forall k, is_Some (scenes s !! k) <-> 1 <= k <= N)
    /\ (forall k sc, scenes s !! k = Some sc -> scene_segmented k sc)
    /\ (forall k sc sc',
          scenes s !! k = Some sc -> scenes s !! (k + 1) = Some sc' ->
          scene_last_line sc = Some (scene_first_line sc' - 1))
    /\ (forall sc,
          scenes s !! N = Some sc ->
          scene_last_line sc = Some (Z.of_nat (length script_lines))).
Proof.
  intros Hwn.
  destruct (parse_script_lines_returns mode script_lines Hwn) as [s Hs].
  pose proof (parse_script_lines_scenes mode script_lines s Hs) as Hsc.
  set (st := parse_lines mode script_lines initial_pstate) in *.
  simpl in Hsc. destruct Hsc as [Hdom Hcopy].
  assert (Hst : segmenting (Z.of_nat (length script_lines)) st).
  { apply (parse_lines_segmenting mode script_lines 0 initial_pstate);
      [|apply initial_segmenting].
    intros i l Hi. rewrite (Hwn i l Hi). lia. }
  destruct Hst as (Hnum & Hkeys & Hstored & Hout & Hfront & Hcur & Hadj
                   & Hprev).
  set (n := scene_number (current_scene st)) in *.
  set (last := set_scene_last_line
                 (append_block (current_scene st) (current_block st))
                 (st_line_no st)).
  assert (Hflush : forall k,
            flush st !! k
            = if decide (k = 0) then None
              else if decide (k = n) then Some last
              else st_scenes st !! k).
  { intros k. unfold flush. fold last.
    change (scene_number last) with n.
    destruct (decide (k = 0)) as [-> | H0];
      [apply lookup_delete_eq |].
    rewrite lookup_delete_ne by congruence.
    destruct (decide (k = n)) as [-> | Hn];
      [apply lookup_insert_eq | apply lookup_insert_ne; congruence]. }
  assert (Hlast : 1 <= n ->
            scene_segmented n last
            /\ scene_last_line last
               = Some (Z.of_nat (length script_lines))).
  { intros H1. destruct (Hcur H1) as (Hh & Hc & Hend & Hhead).
    destruct (Hout ltac:(intros Hp; specialize (Hfront Hp); lia))
      as [Hno _].
    unfold scene_segmented, last. simpl.
    rewrite Hend, Hno. auto 10. }
  assert (Hfl : forall k sc, flush st !! k = Some sc ->
            1 <= k <= n /\ scene_segmented k sc).
  { intros k sc Hk. rewrite Hflush in Hk.
    destruct (decide (k = 0)); [discriminate |].
    destruct (decide (k = n)) as [-> | Hne].
    - injection Hk as <-. assert (1 <= n) by lia.
      split; [lia | apply Hlast; assumption].
    - assert (Hin : is_Some (st_scenes st !! k)) by eauto.
      apply Hkeys in Hin. split; [lia |]. apply Hstored; [exact Hk | lia]. }
  exists s, n.
  split; [exact Hs |]. split; [exact Hnum |].
  split.
  { intros k. rewrite Hdom, Hflush.
    destruct (decide (k = 0)) as [-> | H0];
      [split; [intros [? ?]; discriminate | lia] |].
    destruct (decide (k = n)) as [-> | Hn];
      [split; [lia | eauto] |].
    rewrite Hkeys. lia. }
  split.
  { intros k sc' Hk. destruct (Hcopy k sc' Hk) as (sc & Hf & Hc).
    apply (count_scene_segmented script_lines k sc sc' Hc), Hfl, Hf. }
  split.
  { intros k sc1 sc2 Hk1 Hk2.
    destruct (Hcopy k sc1 Hk1) as (s1 & Hf1 & Hc1).
    destruct (Hcopy (k + 1) sc2 Hk2) as (s2 & Hf2 & Hc2).
    destruct (Hfl k s1 Hf1) as [Hr1 Hg1].
    destruct (Hfl (k + 1) s2 Hf2) as [Hr2 Hg2].
    destruct (count_scene_segmented _ _ _ _ Hc1 Hg1) as (_ & _ & ->).
    destruct (count_scene_segmented _ _ _ _ Hc2 Hg2) as (_ & -> & _).
    rewrite Hflush in Hf1, Hf2.
    destruct (decide (k = 0)); [lia |].
    destruct (decide (k + 1 = 0)); [lia |].
    destruct (decide (k = n)); [lia |].
    destruct (decide (k + 1 = n)) as [E | Hne].
    - injection Hf2 as <-. simpl. apply Hprev; [lia |].
      replace (n - 1) with k by lia. exact Hf1.
    - apply (Hadj k s1 s2); [lia | exact Hf1 | exact Hf2]. }
  intros sc' Hk. destruct (Hcopy n sc' Hk) as (sc & Hf & Hc).
  destruct (Hfl n sc Hf) as [Hr Hg].
  destruct (count_scene_segmented _ _ _ _ Hc Hg) as (_ & _ & ->).
  rewrite Hflush in Hf.
  destruct (decide (n = 0)); [lia |].
  destruct (decide (n = n)); [|congruence].
  injection Hf as <-. apply Hlast. lia.
Qed.

Lemma scenes_follow_the_lines_witness :
  let script :=
    with_newlines ["A SCREENPLAY"; "INT. KITCHEN - DAY"; "";
                   "   JOHN"; "  Hello there."; ""; "EXT. GARDEN"] in
  well_numbered script
  /\ exists s N,
       fst (parse_script_lines STRICT script) = Ok s
       /\ 0 <= N
       /\ (forall k, is_Some (scenes s !! k) <-> 1 <= k <= N)
       /\ (forall k sc, scenes s !! k = Some sc -> scene_segmented k sc)
       /\ (forall k sc sc',
             scenes s !! k = Some sc -> scenes s !! (k + 1) = Some sc' ->
             scene_last_line sc = Some (scene_first_line sc' - 1))
       /\ (forall sc,
             scenes s !! N = Some sc ->
             scene_last_line sc = Some (Z.of_nat (length script))).
Proof.
  intros script.
  assert (Hwn : well_numbered script).
  { intros [|[|[|[|[|[|[|i]]]]]]] l H; simpl in H; try discriminate;
      injection H as <-; reflexivity. }
  split; [exact Hwn |].
  exact (scenes_follow_the_lines STRICT script Hwn).
Defined.

End TreeMore.

(** ** Strict mode and the registry *)

Section StrictMore.
Import RegistryFacts.

Lemma same_types_refl (w : world) : same_types w w.
Proof. intros nm. reflexivity. Qed.

Lemma same_types_trans (w1 w2 w3 : world) :
  same_types w1 w2 -> same_types w2 w3 -> same_types w1 w3.
Proof. intros H12 H23 nm. rewrite H23. apply H12. Qed.

Lemma same_types_presences (w w' : world) :
  w_presences w' = w_presences w -> same_types w w'.
Proof. intros H nm. rewrite H. reflexivity. Qed.

Lemma update_noun_type_same (t : ntype) : update_noun_type t t = (t, []).
Proof. destruct t; reflexivity. Qed.

(** A presence of a registered name, with the registered type, changes
    no type. *)
Lemma update_presence_same_types (P : Presences) (nm : string)
    (ptype_ : itype) (sid pg ln : Z) :
  is_Some (presence_ns P !! nm) ->
  forall nm',
    authoritative_type
      (fst (update_presence P
              (get_presence (nm, get_noun_type_for_name P nm THING)
                 ptype_ sid pg ln))) nm'
    = authoritative_type P nm'.
Proof.
  intros [e He] nm'. rewrite authoritative_type_update. simpl.
  destruct (decide (nm' = nm)) as [-> | Hne]; [|reflexivity].
  unfold authoritative_type, get_noun_type_for_name. rewrite He. simpl.
  rewrite update_noun_type_same. reflexivity.
Qed.

Lemma for_each_interaction_presences {A} (xs : list A)
    (a : A -> option presence) (b : A -> presence) (wh : A -> where_t)
    (it : itype) :
  forall w,
    w_presences
      (snd (for_each xs (fun x => do_update_interaction (a x) (b x) (wh x) it)
              w))
    = w_presences w.
Proof.
  induction xs as [|x rest IH]; intros w; [reflexivity |].
  cbn [for_each]. unfold bind, do_update_interaction, on_interactions.
  destruct (update_interaction (w_interactions w) (a x) (b x) (wh x) it)
    as [[[]|e] G]; [|reflexivity].
  rewrite IH. reflexivity.
Qed.

Lemma presences_of_sentence_same_types (script_lines : list line)
    (line_offsets : list (Z * Z)) (sid : Z)
    (scene_location : option presence) (ptype_ : itype) (prior_offset : Z)
    (name_offsets : list (string * Z)) :
  forall (sent_presences : list presence) (w : world),
    (forall nm o, In (nm, o) name_offsets ->
                  is_Some (presence_ns (w_presences w) !! nm)) ->
    same_types w
      (snd (presences_of_sentence script_lines line_offsets sid
              scene_location ptype_ prior_offset name_offsets sent_presences
              w)).
Proof.
  induction name_offsets as [|[nm o] rest IH]; intros sp w Hknown;
    [apply same_types_refl |].
  cbn [presences_of_sentence].
  destruct (get_line_for_offset line_offsets (prior_offset + o))
    as [found printed].
  unfold bind at 1. unfold print at 1. cbn [fst snd].
  unfold bind at 1. unfold lift at 1.
  destruct found as [ln|e]; [|apply same_types_presences; reflexivity].
  unfold bind at 1. unfold get_Presences at 1. cbn [w_presences].
  unfold bind at 1. unfold lift at 1.
  destruct (get_page_for_line script_lines ln) as [pg|e];
    [|apply same_types_presences; reflexivity].
  unfold bind at 1. unfold do_update_presence at 1. cbn [w_presences].
  set (p := get_presence (nm, get_noun_type_for_name (w_presences w) nm THING)
              ptype_ sid pg ln).
  pose proof (update_presence_same_types (w_presences w) nm ptype_ sid pg ln
                (Hknown nm o (or_introl eq_refl))) as Hsame.
  fold p in Hsame.
  destruct (update_presence (w_presences w) p) as [P' pr]. simpl in Hsame.
  unfold bind at 1. unfold do_update_interaction at 1.
  unfold on_interactions at 1. cbn [w_interactions w_presences w_out].
  destruct (update_interaction (w_interactions w) scene_location p
              (where_ p) SETTING) as [[[]|e] G]; [|exact Hsame].
  eapply same_types_trans; [|apply IH].
  - exact Hsame.
  - intros nm' o' Hin. cbn [w_presences].
    specialize (Hknown nm' o' (or_intror Hin)).
    specialize (Hsame nm'). unfold authoritative_type in Hsame.
    destruct Hknown as [e He]. rewrite He in Hsame.
    destruct (presence_ns P' !! nm'); [eauto | discriminate].
Qed.

Lemma presences_of_sentences_same_types (script_lines : list line)
    (line_offsets : list (Z * Z)) (sid : Z)
    (scene_location : option presence) (ptype_ : itype)
    (sentences : list string) :
  forall (prior_offset : Z) (result : list presence) (w : world),
    same_types w
      (snd (presences_of_sentences STRICT script_lines line_offsets sid
              scene_location ptype_ sentences prior_offset result w)).
Proof.
  induction sentences as [|sent rest IH]; intros prior result w;
    [apply same_types_refl |].
  cbn [presences_of_sentences].
  unfold bind at 1. unfold get_Presences at 1.
  unfold bind at 1.
  pose proof (presences_of_sentence_same_types script_lines line_offsets sid
                scene_location ptype_ prior
                (get_name_offsets (w_presences w) sent []) [] w) as H1.
  destruct (presences_of_sentence script_lines line_offsets sid
              scene_location ptype_ prior
              (get_name_offsets (w_presences w) sent []) [] w)
    as [[sp|e] w1]; simpl in H1.
  - unfold bind at 1.
    pose proof (for_each_interaction_presences (combinations2 sp)
                  (fun pq => Some (fst pq)) snd (fun pq => where_ (fst pq))
                  APPEAR w1) as H2.
    destruct (for_each (combinations2 sp) _ w1) as [[[]|e] w2]; simpl in H2.
    + eapply same_types_trans; [|apply IH].
      eapply same_types_trans; [|apply same_types_presences, H2].
      apply H1. intros nm o Hin.
      destruct (get_name_offsets_names _ _ _ _ _ Hin) as [? | []].
      assumption.
    + eapply same_types_trans; [|apply same_types_presences, H2].
      apply H1. intros nm o Hin.
      destruct (get_name_offsets_names _ _ _ _ _ Hin) as [? | []].
      assumption.
  - apply H1. intros nm o Hin.
    destruct (get_name_offsets_names _ _ _ _ _ Hin) as [? | []].
    assumption.
Qed.

(** In strict mode the extractor of action and dialog text registers no
    name and changes the type of none, whether it returns or raises and
    whatever the sentence tokenizer returns: names are learnt from scene
    headings and dialog headers only. *)
Theorem strict_mode_registers_no_name
    (sent_tokenize : string -> list string) (script_lines : list line)
    (first_line_ last_line_ sid : Z) (scene_location : option presence)
    (ptype_ : itype) (w : world) (nm : string) :
  authoritative_type
    (w_presences
       (snd (update_presence_and_interactions_for_lines STRICT sent_tokenize
               script_lines first_line_ last_line_ sid scene_location ptype_
               w))) nm
  = authoritative_type (w_presences w) nm.
Proof.
  unfold update_presence_and_interactions_for_lines.
  apply presences_of_sentences_same_types.
Qed.

End StrictMore.

(** ** The occurrences of names in a text *)

Section OccurrenceMore.
Import Regex Text.

Lemma match_literal_sound (escaped : bool) (pat : string) :
  forall (last : option ascii) (s : string) (r : option ascii * string),
    match_literal escaped pat last s = Some r ->
    (String.length pat <= String.length s)%nat
    /\ (escaped = true ->
        lower (substring 0 (String.length pat) s) = lower pat).
Proof.
  induction pat as [|p pat IH]; intros last s r H.
  - simpl. split; [lia |]. intros _. destruct s; reflexivity.
  - destruct s as [|c s]; [discriminate |]. cbn [match_literal] in H.
    destruct (char_matches escaped p c) eqn:Hc; [|discriminate].
    apply IH in H as [Hlen Heq]. simpl. split; [lia |].
    intros ->. rewrite (Heq eq_refl). f_equal.
    unfold char_matches in Hc. simpl in Hc.
    apply Ascii.eqb_eq in Hc. congruence.
Qed.

Lemma finditer_sound (escaped : bool) (pat : string) (s : string) :
  forall (prev : option ascii) (skip : nat) (pos o : Z),
    In o (finditer escaped pat prev skip pos s) ->
    pos <= o
    /\ o - pos + Py.len pat <= Py.len s
    /\ (escaped = true ->
        lower (substring (Z.to_nat (o - pos)) (String.length pat) s)
        = lower pat).
Proof.
  assert (Hhit : forall prev skip s0,
            match skip with
            | O => match_word escaped pat prev s0
            | S _ => false
            end = true ->
            (String.length pat <= String.length s0)%nat
            /\ (escaped = true ->
                lower (substring 0 (String.length pat) s0) = lower pat)).
  { intros prev [|k] s0 H; [|discriminate].
    unfold match_word in H. apply andb_true_iff in H as [_ H].
    destruct (match_literal escaped pat prev s0) as [r|] eqn:Hm;
      [|discriminate].
    apply (match_literal_sound _ _ _ _ _ Hm). }
  induction s as [|c s IH]; intros prev skip pos o Hin.
  - cbn [finditer] in Hin.
    destruct (match skip with O => _ | S _ => _ end) eqn:Hh;
      [|destruct Hin].
    destruct Hin as [<- | []]. apply Hhit in Hh as [Hlen Heq].
    unfold Py.len. rewrite Z.sub_diag. simpl Z.to_nat.
    split; [lia |]. split; [lia | exact Heq].
  - cbn [finditer] in Hin.
    assert (Hrest : forall skip',
              In o (finditer escaped pat (Some c) skip' (pos + 1) s) ->
              pos <= o
              /\ o - pos + Py.len pat <= Py.len (String c s)
              /\ (escaped = true ->
                  lower (substring (Z.to_nat (o - pos)) (String.length pat)
                           (String c s))
                  = lower pat)).
    { intros skip' H. apply IH in H as (Hpos & Hlen & Heq).
      unfold Py.len in *. cbn [String.length].
      split; [lia |]. split; [lia |].
      intros He. replace (Z.to_nat (o - pos))
        with (S (Z.to_nat (o - (pos + 1)))) by lia.
      simpl. exact (Heq He). }
    destruct (match skip with O => _ | S _ => _ end) eqn:Hh.
    + destruct Hin as [<- | Hin]; [|apply (Hrest _ Hin)].
      apply Hhit in Hh as [Hlen Heq].
      unfold Py.len. rewrite Z.sub_diag. simpl Z.to_nat.
      split; [lia |]. split; [lia | exact Heq].
    + apply (Hrest _ Hin).
Qed.

Lemma drop_class (p : ascii -> bool) (n : nat) :
  forall s, forall_chars p s = true -> forall_chars p (Py.drop n s) = true.
Proof.
  induction n as [|n IH]; intros [|c s] H; simpl; auto.
  simpl in H. apply andb_true_iff in H as [_ Hs]. apply IH, Hs.
Qed.

Lemma lstrip_class (p : ascii -> bool) (s : string) :
  forall_chars p s = true -> forall_chars p (Py.lstrip s) = true.
Proof.
  induction s as [|c s IH]; intros H; [reflexivity |].
  simpl. destruct (Chars.is_space c); [|exact H].
  simpl in H. apply andb_true_iff in H as [_ Hs]. apply IH, Hs.
Qed.

Lemma rstrip_class (p : ascii -> bool) (s : string) :
  forall_chars p s = true -> forall_chars p (Py.rstrip s) = true.
Proof.
  induction s as [|c s IH]; intros H; [reflexivity |].
  simpl in H. apply andb_true_iff in H as [Hc Hs].
  specialize (IH Hs). cbn [Py.rstrip].
  destruct (Py.rstrip s) as [|d t].
  - destruct (Chars.is_space c); [reflexivity |]. simpl. rewrite Hc.
    reflexivity.
  - cbn [forall_chars]. cbn [forall_chars] in IH. rewrite Hc, IH.
    reflexivity.
Qed.

Lemma strip_leading_class (p : ascii -> bool) (nm remove : string) :
  forall_chars p nm = true ->
  forall_chars p (strip_leading nm remove) = true.
Proof.
  intros H. unfold strip_leading.
  repeat match goal with
         | |- context [if ?b then _ else _] => destruct b
         end; auto using drop_class.
Qed.

Lemma longest_end_class (s : string) :
  forall (last : ascii) (k : nat),
    longest_end last s = Some k ->
    forall_chars noun_class (substring 0 k s) = true.
Proof.
  induction s as [|c s IH]; intros last k H.
  - destruct k; reflexivity.
  - cbn [longest_end] in H.
    destruct (noun_class c) eqn:Hc.
    + destruct (longest_end c s) as [j|] eqn:Hj.
      * injection H as <-. simpl. rewrite Hc. apply (IH c j Hj).
      * destruct (boundary (Some last) (head (String c s)));
          [injection H as <-; reflexivity | discriminate].
    + destruct (boundary (Some last) (head (String c s)));
        [injection H as <-; reflexivity | discriminate].
Qed.

Lemma upper_noun_class : forall c, Chars.is_upper c = true -> noun_class c = true.
Proof. intros c H. unfold noun_class. rewrite H. reflexivity. Qed.

Lemma match_noun_class (prev : option ascii) (s : string) (n : nat) :
  match_noun prev s = Some n ->
  forall_chars noun_class (substring 0 n s) = true.
Proof.
  unfold match_noun. destruct s as [|c0 [|c1 rest]]; try discriminate.
  destruct (boundary prev (Some c0) && Chars.is_upper c0 && noun_class c1)
    eqn:Hb; [|discriminate].
  apply andb_true_iff in Hb as [Hb Hc1].
  apply andb_true_iff in Hb as [_ Hc0].
  destruct (longest_end c1 rest) as [k|] eqn:Hk; [|discriminate].
  intros [= <-]. simpl.
  rewrite (upper_noun_class _ Hc0), Hc1. apply (longest_end_class _ _ _ Hk).
Qed.

Lemma findall_nouns_class (s : string) :
  forall (prev : option ascii) (skip : nat) (x : string),
    In x (findall_nouns prev skip s) ->
    forall_chars noun_class x = true.
Proof.
  induction s as [|c s IH]; intros prev skip x H; [destruct H |].
  cbn [findall_nouns] in H. destruct skip as [|k]; [|apply (IH _ _ _ H)].
  destruct (match_noun prev (String c s)) as [n|] eqn:Hm;
    [|apply (IH _ _ _ H)].
  destruct H as [<- | H]; [apply (match_noun_class _ _ _ Hm) |].
  apply (IH _ _ _ H).
Qed.

(** The names [discover_nouns] returns are made of the characters of its
    pattern. *)
Lemma discover_nouns_class (P : Presences) (text : string)
    (ntype_ : ntype) :
  Forall (fun noun => forall_chars noun_class (fst noun) = true)
    (discover_nouns P text ntype_).
Proof.
  unfold discover_nouns. apply List.Forall_forall. intros [nm t] Hin.
  apply in_map_iff in Hin as (nm' & [= <- <-] & Hin).
  apply list_elem_of_In, list_elem_of_filter in Hin as [_ Hin].
  apply list_elem_of_In in Hin. unfold provisional_names in Hin.
  apply in_map_iff in Hin as (x & <- & Hx).
  apply list_elem_of_In, list_elem_of_filter in Hx as [_ Hx].
  apply list_elem_of_In, findall_nouns_class in Hx. simpl.
  apply strip_leading_class. unfold sub_leading_article, Py.strip.
  destruct (_ || _); [apply drop_class |];
    apply rstrip_class, lstrip_class, Hx.
Qed.

(** When the new nouns are names as [discover_nouns] returns them, made
    of the characters [[A-Z0-9\s\.\-\']], every occurrence that
    [get_name_offsets] returns lies within the text, and the text holds
    there the name as registered, up to the case of its letters, unless
    the name is one of the new nouns (which the source uses as patterns
    without escaping them, so that a [.] stands for any character). *)
Theorem name_offsets_occur (P : Presences) (text : string)
    (new_nouns : list (string * ntype)) (nm : string) (o : Z) :
  Forall (fun noun => forall_chars noun_class (fst noun) = true)
    new_nouns ->
  In (nm, o) (get_name_offsets P text new_nouns) ->
  0 <= o
  /\ o + Py.len nm <= Py.len text
  /\ (In nm (map fst new_nouns)
      \/ lower (text_at text o nm) = lower nm).
Proof.
  unfold get_name_offsets, text_at. intros _ Hin.
  apply list_elem_of_In in Hin.
  rewrite merge_sort_Permutation, elem_of_remove_dups in Hin.
  apply elem_of_app in Hin as [Hin | Hin];
    apply list_elem_of_In, in_flat_map in Hin as (x & Hx & Hin);
    apply in_map_iff in Hin as (o' & [= <- <-] & Ho);
    apply finditer_sound in Ho as (Hpos & Hlen & Heq);
    rewrite Z.sub_0_r in *.
  - split; [exact Hpos |]. split; [exact Hlen |]. right. apply Heq.
    reflexivity.
  - split; [exact Hpos |]. split; [exact Hlen |]. left.
    apply in_map. exact Hx.
Qed.

Lemma name_offsets_occur_witness :
  let P :=
    fst (update_presence new_Presences
           (get_presence ("JOHN", CHARACTER) DISCUSS 1 1 1)) in
  let text := "John meets MARY and JOHN." in
  let new_nouns := discover_nouns P text THING in
  new_nouns = [("MARY", THING)]
  /\ Forall (fun noun => Regex.forall_chars noun_class (fst noun) = true)
       new_nouns
  /\ In ("JOHN", 20) (get_name_offsets P text new_nouns)
  /\ 0 <= 20
  /\ 20 + Py.len "JOHN" <= Py.len text
  /\ (In "JOHN" (map fst new_nouns)
      \/ lower (text_at text 20 "JOHN") = lower "JOHN").
Proof.
  intros P text new_nouns.
  assert (Hnew : new_nouns = [("MARY", THING)]) by (vm_compute; reflexivity).
  assert (Hclass : Forall
            (fun noun => Regex.forall_chars noun_class (fst noun) = true)
            new_nouns) by (apply discover_nouns_class).
  assert (H : In ("JOHN", 20) (get_name_offsets P text new_nouns))
    by (vm_compute; auto).
  split; [exact Hnew |]. split; [exact Hclass |]. split; [exact H |].
  exact (name_offsets_occur P text new_nouns "JOHN" 20 Hclass H).
Defined.

End OccurrenceMore.

(** ** The speaker of a dialog header *)

Section SpeakerNameMore.
Import Chars Regex Text.

Lemma space_not_close_paren :
  forall c, is_space c = true -> is_char ")" c = false.
Proof. by_enumeration. Qed.

Lemma remove_parentheticals_chars (q : ascii -> bool) (s : string) :
  exists_char q s = false ->
  forall inside, exists_char q (remove_parentheticals inside s) = false.
Proof.
  induction s as [|c s IH]; intros H inside; [reflexivity |].
  simpl in H. apply orb_false_iff in H as [Hc Hs].
  cbn [remove_parentheticals].
  destruct inside; [apply IH, Hs |].
  destruct (is_char "(" c && exists_char (is_char ")") s);
    [apply IH, Hs |].
  simpl. rewrite Hc. apply IH, Hs.
Qed.

Lemma remove_parentheticals_none (s : string) :
  forall inside, has_parenthetical (remove_parentheticals inside s) = false.
Proof.
  induction s as [|c s IH]; intros inside; [reflexivity |].
  cbn [remove_parentheticals].
  destruct inside; [apply IH |].
  destruct (is_char "(" c) eqn:Hc; simpl.
  - destruct (exists_char (is_char ")") s) eqn:He; [apply IH |].
    simpl. rewrite Hc, IH.
    rewrite (remove_parentheticals_chars _ _ He). reflexivity.
  - rewrite Hc. simpl. apply IH.
Qed.

Lemma lstrip_chars (q : ascii -> bool) (s : string) :
  exists_char q s = false -> exists_char q (Py.lstrip s) = false.
Proof.
  induction s as [|c s IH]; intros H; [reflexivity |].
  simpl. destruct (is_space c); [|exact H].
  simpl in H. apply orb_false_iff in H as [_ Hs]. apply IH, Hs.
Qed.

Lemma lstrip_none (s : string) :
  has_parenthetical s = false -> has_parenthetical (Py.lstrip s) = false.
Proof.
  induction s as [|c s IH]; intros H; [reflexivity |].
  simpl. destruct (is_space c); [|exact H].
  simpl in H. apply orb_false_iff in H as [_ Hs]. apply IH, Hs.
Qed.

Lemma rstrip_chars (q : ascii -> bool) (s : string) :
  exists_char q s = false -> exists_char q (Py.rstrip s) = false.
Proof.
  induction s as [|c s IH]; intros H; [reflexivity |].
  simpl in H. apply orb_false_iff in H as [Hc Hs].
  specialize (IH Hs). cbn [Py.rstrip].
  destruct (Py.rstrip s) as [|d t].
  - destruct (is_space c); [reflexivity |]. simpl. rewrite Hc. reflexivity.
  - cbn [exists_char]. cbn [exists_char] in IH. rewrite Hc, IH. reflexivity.
Qed.

Lemma rstrip_closing (s : string) :
  exists_char (is_char ")") (Py.rstrip s) = exists_char (is_char ")") s.
Proof.
  induction s as [|c s IH]; [reflexivity |].
  cbn [Py.rstrip]. destruct (Py.rstrip s) as [|d t].
  - cbn [exists_char] in *. rewrite <- IH.
    destruct (is_space c) eqn:Hs; [|reflexivity].
    rewrite (space_not_close_paren c Hs). reflexivity.
  - cbn [exists_char] in *. rewrite IH. reflexivity.
Qed.

Lemma rstrip_none (s : string) :
  has_parenthetical s = false -> has_parenthetical (Py.rstrip s) = false.
Proof.
  induction s as [|c s IH]; intros H; [reflexivity |].
  simpl in H. apply orb_false_iff in H as [Hc Hs].
  specialize (IH Hs). cbn [Py.rstrip].
  pose proof (rstrip_closing s) as Hcl.
  destruct (Py.rstrip s) as [|d t].
  - destruct (is_space c); [reflexivity |]. simpl.
    rewrite andb_false_r. reflexivity.
  - cbn [has_parenthetical]. cbn [has_parenthetical] in IH.
    rewrite IH, Hcl, Hc. reflexivity.
Qed.

Lemma lstrip_head (s : string) :
  match head (Py.lstrip s) with
  | Some c => is_space c = false
  | None => True
  end.
Proof.
  induction s as [|c s IH]; [exact I |].
  simpl. destruct (is_space c) eqn:Hc; [exact IH | exact Hc].
Qed.

Lemma rstrip_head (s : string) :
  match head s with
  | Some c => is_space c = false
  | None => True
  end ->
  head (Py.rstrip s) = head s.
Proof.
  destruct s as [|c s]; [reflexivity |]. simpl. intros Hc.
  destruct (Py.rstrip s); [rewrite Hc |]; reflexivity.
Qed.

Lemma rstrip_last (s : string) :
  match last_char (Py.rstrip s) with
  | Some c => is_space c = false
  | None => True
  end.
Proof.
  induction s as [|c s IH]; [exact I |].
  cbn [Py.rstrip]. destruct (Py.rstrip s) as [|d t].
  - destruct (is_space c) eqn:Hc; [exact I | exact Hc].
  - exact IH.
Qed.

(** The character name taken from a dialog header holds no parenthetical
    any more, and neither begins nor ends with whitespace (it may be
    empty, which the caller reports). *)
Theorem character_name_clean (dialog_header : string) :
  let character := get_character_from_dialog_header dialog_header in
  has_parenthetical character = false /\ trimmed character.
Proof.
  unfold get_character_from_dialog_header, Py.strip. simpl.
  split; [apply rstrip_none, lstrip_none, remove_parentheticals_none |].
  split; [|apply rstrip_last].
  rewrite rstrip_head; apply lstrip_head.
Qed.

End SpeakerNameMore.

(** ** How the line shapes nest *)

Section ShapeMore.
Import Chars Regex RegexFacts ClassifierFacts.

Lemma search_anchored_incl (r r' : regex) (s : string) :
  (forall u, lang r u -> lang r' u) ->
  search_anchored r s = true -> search_anchored r' s = true.
Proof.
  intros Hincl H. unfold search_anchored in *.
  apply orb_true_iff in H as [H | H]; apply orb_true_iff.
  - left. apply matches_lang, Hincl, matches_lang, H.
  - right. destruct (chop_newline s) as [s'|]; [|discriminate].
    apply matches_lang, Hincl, matches_lang, H.
Qed.

(** The words of [p+] are the non-empty words of characters of [p]. *)
Lemma lang_plus_cls (p : ascii -> bool) (s : string) :
  lang (Plus (Cls p)) s <-> s <> EmptyString /\ forall_chars p s = true.
Proof.
  split.
  - intros H. inversion H as [| |a b u v Hu Hv| | | |]; subst.
    inversion Hu; subst. apply lang_star_cls in Hv. simpl.
    split; [discriminate |]. apply andb_true_iff. auto.
  - intros [Hne H]. destruct s as [|c s]; [contradiction |].
    simpl in H. apply andb_true_iff in H as [Hc Hs].
    change (String c s) with (String c EmptyString +:+ s).
    constructor; [constructor; exact Hc | apply lang_star_cls, Hs].
Qed.

Lemma plus_cls_incl (p q : ascii -> bool) (r : regex) (s : string) :
  (forall u, lang r u -> forall_chars q u = true) ->
  (forall c, p c = true -> q c = true) ->
  lang (Seq (Plus (Cls p)) r) s -> lang (Plus (Cls q)) s.
Proof.
  intros Hr Hpq H. inversion H as [| |a b u v Hu Hv| | | |]; subst.
  apply lang_plus_cls in Hu as [Hne Hu]. apply lang_plus_cls.
  split; [destruct u; [contradiction | discriminate] |].
  rewrite forall_chars_app, (Hr v Hv), andb_true_r.
  clear - Hu Hpq. induction u as [|c u IH]; [reflexivity |].
  simpl in *. apply andb_true_iff in Hu as [Hc Hu].
  rewrite (Hpq c Hc), (IH Hu). reflexivity.
Qed.

Lemma colon_not_lower : negb (is_lower ":") = true.
Proof. reflexivity. Qed.

Lemma dot_not_lower : negb (is_lower ".") = true.
Proof. reflexivity. Qed.

Lemma digit_not_lower : forall c, is_digit c = true -> negb (is_lower c) = true.
Proof. by_enumeration. Qed.

Lemma lang_chr_chars (a : ascii) (q : ascii -> bool) (u : string) :
  q a = true -> lang (Chr a) u -> forall_chars q u = true.
Proof.
  intros Hq H. inversion H as [|p c Hc| | | | |]; subst.
  apply Ascii.eqb_eq in Hc. subst c. simpl. rewrite Hq. reflexivity.
Qed.

Lemma direction_is_dialog_header (line : string) :
  is_direction line = true -> is_dialog_header line = true.
Proof.
  apply search_anchored_incl. intros u H.
  inversion H as [| |a b s t Hs Ht| | | |]; subst.
  constructor; [exact Hs |].
  apply (plus_cls_incl (fun c => negb (is_lower c))
           (fun c => negb (is_lower c)) (Chr ":") t);
    [|auto | exact Ht].
  intros v Hv.
  apply (lang_chr_chars ":" (fun c => negb (is_lower c)) v colon_not_lower Hv).
Qed.

Lemma page_num_is_dialog_header (line : string) :
  is_page_num line = true -> is_dialog_header line = true.
Proof.
  apply search_anchored_incl. intros u H.
  inversion H as [| |a b s t Hs Ht| | | |]; subst.
  constructor; [exact Hs |].
  apply (plus_cls_incl is_digit (fun c => negb (is_lower c))
           (Opt (Chr ".")) t);
    [|exact digit_not_lower | exact Ht].
  intros v Hv. inversion Hv as [| | |a' b' w Hw|a' b' w Hw| |]; subst.
  - apply (lang_chr_chars "." (fun c => negb (is_lower c)) v dot_not_lower
             Hw).
  - inversion Hw. reflexivity.
Qed.

Lemma dialog_header_starts_with_space (line : string) :
  is_dialog_header line = true ->
  exists c t, line = String c t /\ is_space c = true.
Proof.
  apply search_anchored_head. intros u Hu. eapply lang_plus_head, Hu.
Qed.

(** The shapes of lines nest: a direction and a page number are both
    shaped like a dialog header, a dialog header is dialog text and no
    action text, and a scene header is action text.  So the order of the
    rules of [get_types] decides between them. *)
Theorem line_shapes_nest (mode : parse_mode) (line : string) :
  (is_direction line = true -> is_dialog_header line = true)
  /\ (is_page_num line = true -> is_dialog_header line = true)
  /\ (is_dialog_header line = true ->
      is_dialog line = true /\ is_action line = false)
  /\ (is_scene_header mode line = true ->
      is_action line = true /\ is_dialog line = false).
Proof.
  split; [apply direction_is_dialog_header |].
  split; [apply page_num_is_dialog_header |].
  split.
  - intros H.
    apply dialog_header_starts_with_space in H as (c & t & -> & Hc).
    unfold is_dialog, is_action. simpl. rewrite Hc. auto.
  - intros H.
    assert (Hs : search_anchored scene_header_re line = true).
    { unfold is_scene_header in H. destruct mode.
      - apply andb_true_iff in H as [H _]. exact H.
      - destruct (search_anchored scene_header_re line);
          [reflexivity | discriminate]. }
    apply scene_header_starts_without_space in Hs as (c & t & -> & Hc).
    unfold is_dialog, is_action. simpl. rewrite Hc. auto.
Qed.

End ShapeMore.

(** ** The pipeline on a script without scenes *)

Section PipelineMore.

(** From a script none of whose lines is a scene header nothing is
    extracted: the pipeline returns the empty registry and the empty
    graph and prints nothing, in both modes and whatever the sentence
    tokenizer. *)
Theorem nothing_extracted_without_scene (mode parse_mode_ : parse_mode)
    (sent_tokenize : string -> list string) (script_lines : list line) :
  Forall (fun l => is_scene_header mode (content l) = false) script_lines ->
  extract mode sent_tokenize script_lines parse_mode_
  = (Ok (new_Presences, new_Interactions), []).
Proof.
  intros Hall. unfold extract.
  rewrite (parse_script_lines_front_only mode script_lines Hall).
  reflexivity.
Qed.

Lemma nothing_extracted_without_scene_witness :
  let script := with_newlines ["a screenplay"; ""; "by John"] in
  Forall (fun l => is_scene_header FUZZY (content l) = false) script
  /\ extract FUZZY single_sentence script FUZZY
     = (Ok (new_Presences, new_Interactions), []).
Proof.
  intros script.
  assert (H : Forall (fun l => is_scene_header FUZZY (content l) = false)
                script) by (repeat constructor).
  split; [exact H |].
  apply (nothing_extracted_without_scene FUZZY FUZZY single_sentence script H).
Defined.

End PipelineMore.

(** ** The location named by a scene heading *)

Section LocationMore.
Import Chars Regex Text.

Lemma space_is_space : is_space " " = true.
Proof. reflexivity. Qed.

Lemma space_not_dash : forall c, is_space c = true -> is_dash c = false.
Proof. by_enumeration. Qed.

Lemma lstrip_id (s t : string) :
  s <> EmptyString ->
  match head s with
  | Some c => is_space c = false
  | None => True
  end ->
  Py.lstrip (s +:+ t) = s +:+ t.
Proof.
  destruct s as [|c s]; [contradiction |]. simpl. intros _ ->. reflexivity.
Qed.

Lemma sub_last_dashes_app (u v : string) :
  exists_char is_dash u = false ->
  sub_last_dashes (u +:+ v) = u +:+ sub_last_dashes v.
Proof.
  induction u as [|c u IH]; simpl; intros H; [reflexivity |].
  apply orb_false_iff in H as [Hc Hu]. rewrite Hc, (IH Hu). reflexivity.
Qed.

Lemma sub_last_dashes_id (u : string) :
  exists_char is_dash u = false -> sub_last_dashes u = u.
Proof.
  intros H. rewrite <- (RegexFacts.app_empty_r u) at 1.
  rewrite (sub_last_dashes_app _ _ H). simpl.
  apply RegexFacts.app_empty_r.
Qed.

Lemma spaces_no_dash (s : string) :
  forall_chars is_space s = true -> exists_char is_dash s = false.
Proof. apply RegexFacts.forall_exists_false, space_not_dash. Qed.

Lemma rstrip_spaces (s : string) :
  forall_chars is_space s = true -> Py.rstrip s = EmptyString.
Proof.
  induction s as [|c s IH]; simpl; intros H; [reflexivity |].
  apply andb_true_iff in H as [Hc Hs]. rewrite (IH Hs), Hc. reflexivity.
Qed.

Lemma rstrip_app_spaces (s ws : string) :
  s <> EmptyString ->
  match last_char s with
  | Some c => is_space c = false
  | None => True
  end ->
  forall_chars is_space ws = true ->
  Py.rstrip (s +:+ ws) = s.
Proof.
  intros Hne Hlast Hws. induction s as [|c s IH]; [contradiction |].
  cbn [String.append Py.rstrip]. destruct s as [|d s].
  - simpl in *. rewrite (rstrip_spaces _ Hws), Hlast. reflexivity.
  - rewrite IH; [reflexivity | discriminate | exact Hlast].
Qed.

(** What [get_scene_location] does after the prefix is removed. *)
Lemma scene_location_body (loc tail : string) :
  loc <> EmptyString -> trimmed loc ->
  exists_char is_dash loc = false ->
  (forall_chars is_space tail = true
   \/ exists ws time,
        tail = ws +:+ String "-" time
        /\ forall_chars is_space ws = true
        /\ exists_char is_dash (skip_dashes time) = false) ->
  strip_leading
    (Py.rstrip
       (sub_last_dashes
          (Py.lstrip (sub_leading_dashes (String " " (loc +:+ tail))))))
    "THE"
  = strip_leading loc "THE".
Proof.
  intros Hne [Hhead Hlast] Hdash Htail.
  assert (Hl : Py.lstrip (String " " (loc +:+ tail)) = loc +:+ tail).
  { cbn [Py.lstrip]. rewrite space_is_space.
    apply lstrip_id; assumption. }
  assert (Hs : sub_leading_dashes (String " " (loc +:+ tail))
               = String " " (loc +:+ tail)).
  { unfold sub_leading_dashes. rewrite Hl.
    destruct loc as [|c loc]; [contradiction |]. simpl in *.
    apply orb_false_iff in Hdash as [-> _]. reflexivity. }
  rewrite Hs, Hl, (sub_last_dashes_app _ _ Hdash). f_equal.
  destruct Htail as [Hws | (ws & time & -> & Hws & Htime)].
  - rewrite (sub_last_dashes_id _ (spaces_no_dash _ Hws)).
    apply rstrip_app_spaces; assumption.
  - rewrite (sub_last_dashes_app _ _ (spaces_no_dash _ Hws)).
    cbn [sub_last_dashes]. rewrite Htime.
    change (is_dash "-") with true. simpl.
    rewrite RegexFacts.app_empty_r.
    apply rstrip_app_spaces; assumption.
Qed.

(** Round trip of a scene heading.  From a heading made of one of the
    four prefixes, a space, a location name and either trailing whitespace
    or a group of dashes followed by a time of day without dash,
    [get_scene_location] recovers the location name, less a leading
    [THE] as [strip_leading] removes it. *)
Theorem scene_location_of_heading (pre loc tail : string) :
  In pre ["INTERIOR"; "EXTERIOR"; "INT."; "EXT."] ->
  loc <> EmptyString -> trimmed loc ->
  exists_char is_dash loc = false ->
  (forall_chars is_space tail = true
   \/ exists ws time,
        tail = ws +:+ String "-" time
        /\ forall_chars is_space ws = true
        /\ exists_char is_dash (skip_dashes time) = false) ->
  get_scene_location (pre +:+ String " " (loc +:+ tail))
  = strip_leading loc "THE".
Proof.
  intros Hpre Hne Htr Hdash Htail.
  pose proof (scene_location_body loc tail Hne Htr Hdash Htail) as Hbody.
  destruct Hpre as [<- | [<- | [<- | [<- | []]]]];
    unfold get_scene_location; exact Hbody.
Qed.

Lemma scene_location_of_heading_witness :
  In "INT." ["INTERIOR"; "EXTERIOR"; "INT."; "EXT."]
  /\ get_scene_location ("INT." +:+ String " " ("THE KITCHEN" +:+ " - DAY"))
     = "KITCHEN".
Proof.
  assert (Hpre : In "INT." ["INTERIOR"; "EXTERIOR"; "INT."; "EXT."])
    by (simpl; auto).
  split; [exact Hpre |].
  rewrite (scene_location_of_heading "INT." "THE KITCHEN" " - DAY" Hpre);
    [reflexivity | discriminate | split; reflexivity | reflexivity |].
  right. exists " ", " DAY". repeat split; reflexivity.
Defined.

End LocationMore.
